(** * A relational-algebra query processor: model and verification

    This development embeds [query_processor.py] in Rocq and checks the
    properties stated about it.  The embedding follows the source function by
    function and keeps its names.

    Conventions of the embedding:
    - a Python [str] is a [list ascii]; a character stands for the code point
      of the same number, so the model covers the strings whose code points
      are below 256.  The character classes of [str.strip], [int] and the
      [re] module ([\s], [\w], [.]) are written out for that range;
    - a value of a tuple is an [int] or a [str] (the only two types that
      [parse_relation] stores);
    - the global dictionary [relations] is an explicit store, a
      [gmap (list ascii) relation], threaded through the functions that
      assign to it;
    - a Python exception is the [Raise] outcome; returning [None] is the
      [None] of an [option]. *)

From Stdlib Require Import ZArith Ascii String List Bool Lia.
From Stdlib Require DecimalString DecimalPos.
From stdpp Require Import base decidable option list gmap strings.

Local Open Scope list_scope.

(** ** Strings *)

Abbreviation str := (list ascii).

(** A string literal of the source. *)
Definition lit (s : string) : str := list_ascii_of_string s.

(** The double-quote and the single-quote characters. *)
Definition dquote : ascii := ascii_of_nat 34.
Definition squote : ascii := ascii_of_nat 39.
Definition newline : ascii := ascii_of_nat 10.

Definition code (c : ascii) : nat := nat_of_ascii c.

Definition ascii_eqb (a b : ascii) : bool := Ascii.eqb a b.

(** [str.isspace] on one character, for code points below 256: the
    characters 9 to 13, 28 to 32, 133 and 160. *)
Definition is_space (c : ascii) : bool :=
  let n := code c in
  ((9 <=? n) && (n <=? 13) || (28 <=? n) && (n <=? 32)
   || (n =? 133) || (n =? 160))%nat.

(** Decimal digits: below 256 only [0] to [9] have the decimal property. *)
Definition is_digit (c : ascii) : bool :=
  let n := code c in ((48 <=? n) && (n <=? 57))%nat.

(** The class [\w] of a [str] pattern: alphanumeric characters and the
    underscore.  Below 256 the alphanumerics are the ASCII letters and
    digits, the letters 170, 181, 186, 192 to 214, 216 to 246, 248 to 255,
    and the numeric characters 178, 179, 185, 188, 189, 190. *)
Definition is_word (c : ascii) : bool :=
  let n := code c in
  ((48 <=? n) && (n <=? 57) || (65 <=? n) && (n <=? 90)
   || (97 <=? n) && (n <=? 122) || (n =? 95)
   || (n =? 170) || (n =? 181) || (n =? 186)
   || (192 <=? n) && (n <=? 214) || (216 <=? n) && (n <=? 246)
   || (248 <=? n) && (n <=? 255)
   || (n =? 178) || (n =? 179) || (n =? 185)
   || (188 <=? n) && (n <=? 190))%nat.

(** Membership of a character in the argument of [str.strip(chars)]. *)
Definition in_chars (chars : str) (c : ascii) : bool :=
  existsb (ascii_eqb c) chars.

(** [s.lstrip] for the characters satisfying [p]. *)
Fixpoint lstrip (p : ascii -> bool) (s : str) : str :=
  match s with
  | [] => []
  | c :: s' => if p c then lstrip p s' else s
  end.

(** [s.rstrip] for the characters satisfying [p]. *)
Fixpoint rstrip (p : ascii -> bool) (s : str) : str :=
  match s with
  | [] => []
  | c :: s' =>
      match rstrip p s' with
      | [] => if p c then [] else [c]
      | r => c :: r
      end
  end.

(** [s.strip()] and [s.strip(chars)]. *)
Definition strip_by (p : ascii -> bool) (s : str) : str :=
  rstrip p (lstrip p s).
Definition strip (s : str) : str := strip_by is_space s.
Definition strip_chars (chars : str) (s : str) : str :=
  strip_by (in_chars chars) s.

(** [s.startswith(pre)]. *)
Fixpoint startswith (pre s : str) : bool :=
  match pre, s with
  | [], _ => true
  | _ :: _, [] => false
  | a :: pre', b :: s' => ascii_eqb a b && startswith pre' s'
  end.

(** [sub in s] for strings. *)
Fixpoint contains (sub s : str) : bool :=
  match s with
  | [] => startswith sub []
  | _ :: s' => startswith sub s || contains sub s'
  end.

(** [s.split(sep)] for a non-empty [sep]: the pieces between the
    occurrences of [sep], scanned from the left without overlap.  [skip]
    counts the characters of an occurrence still to pass over and [acc]
    holds the current piece reversed. *)
Fixpoint split_go (sep : str) (skip : nat) (acc : str) (s : str)
  : list str :=
  match s with
  | [] => [rev acc]
  | c :: s' =>
      match skip with
      | S n => split_go sep n acc s'
      | O =>
          if startswith sep s
          then rev acc :: split_go sep (length sep - 1) [] s'
          else split_go sep 0 (c :: acc) s'
      end
  end.
Definition split (sep s : str) : list str := split_go sep 0 [] s.

(** [s.find(c)] and [s.rfind(c)] for a single character: the index of the
    first and of the last occurrence, [None] for Python's [-1]. *)
Fixpoint find (c : ascii) (s : str) : option nat :=
  match s with
  | [] => None
  | a :: s' => if ascii_eqb a c then Some O else S <$> find c s'
  end.
Fixpoint rfind (c : ascii) (s : str) : option nat :=
  match s with
  | [] => None
  | a :: s' =>
      match rfind c s' with
      | Some i => Some (S i)
      | None => if ascii_eqb a c then Some O else None
      end
  end.

(** The slice [s[i:j]] for non-negative [i] and [j]. *)
Definition slice (i j : nat) (s : str) : str := take (j - i) (drop i s).

(** ** [int(s)] on a string

    Python's [int] accepts optional surrounding whitespace, an optional
    sign, and decimal digits in which single underscores may separate
    digits; anything else is a [ValueError] ([None] here).  The
    interpreter's configurable limit on the number of digits is not
    modelled. *)

Definition digit_val (c : ascii) : Z := (Z.of_nat (code c) - 48)%Z.

(** Digits with single underscores between them; [acc] is the number read
    so far and [prev_digit] tells whether the previous character was a
    digit. *)
Fixpoint int_digits (acc : Z) (prev_digit : bool) (s : str) : option Z :=
  match s with
  | [] => if prev_digit then Some acc else None
  | c :: s' =>
      if is_digit c then int_digits (10 * acc + digit_val c)%Z true s'
      else if ascii_eqb c "_"%char
           then (if prev_digit then int_digits acc false s' else None)
           else None
  end.

(** The whitespace that [int] skips at both ends: the characters 9 to 13,
    32, 133 and 160 (not the separators 28 to 31, which [str.strip]
    removes). *)
Definition is_int_space (c : ascii) : bool :=
  let n := code c in
  ((9 <=? n) && (n <=? 13) || (n =? 32) || (n =? 133) || (n =? 160))%nat.

Definition py_int (s : str) : option Z :=
  match strip_by is_int_space s with
  | [] => None
  | c :: s' =>
      if ascii_eqb c "-"%char then Z.opp <$> int_digits 0 false s'
      else if ascii_eqb c "+"%char then int_digits 0 false s'
      else int_digits 0 false (c :: s')
  end.

(** ** Values, tuples, relations, the store *)

Inductive value :=
| Integer (z : Z)
| Text (s : str).

#[global] Instance value_eq_dec : EqDecision value.
Proof. solve_decision. Defined.

Record relation := Relation {
  attributes : list str;
  tuples : list (list value)
}.

#[global] Instance relation_eq_dec : EqDecision relation.
Proof. solve_decision. Defined.

(** The global [relations] dictionary. *)
Abbreviation store := (gmap str relation).

(** ** Outcomes: a returned value or a raised exception *)

Inductive exn := TypeError | IndexError.

Inductive outcome (A : Type) :=
| Ret (a : A)
| Raise (e : exn).
Arguments Ret {A} a.
Arguments Raise {A} e.

#[global] Instance exn_eq_dec : EqDecision exn.
Proof. solve_decision. Defined.

#[global] Instance outcome_eq_dec {A} `{EqDecision A} :
  EqDecision (outcome A).
Proof. solve_decision. Defined.

Definition bind {A B} (m : outcome A) (f : A -> outcome B) : outcome B :=
  match m with
  | Ret a => f a
  | Raise e => Raise e
  end.

Notation "'do' x <- m ; k" := (bind m (fun x => k))
  (at level 10, x name, m at level 100, k at level 200).

(** [l[i]] for a non-negative index. *)
Definition getitem {A} (l : list A) (i : nat) : outcome A :=
  match l !! i with
  | Some x => Ret x
  | None => Raise IndexError
  end.

(** [for x in l: ...] collecting results, stopping at the first exception. *)
Fixpoint mapM {A B} (f : A -> outcome B) (l : list A) : outcome (list B) :=
  match l with
  | [] => Ret []
  | x :: l' => do y <- f x; do ys <- mapM f l'; Ret (y :: ys)
  end.

(** [l.index(x)], used by the source only after [x in l]. *)
Fixpoint index (x : str) (l : list str) : nat :=
  match l with
  | [] => O
  | y :: l' => if decide (y = x) then O else S (index x l')
  end.

(** ** Comparison of values

    [==] and [!=] are defined between any two values, and an [int] never
    equals a [str].  The ordering operators are defined between two [int]s
    (numeric order) and between two [str]s (lexicographic order of the code
    points); between an [int] and a [str] they raise [TypeError]. *)

Fixpoint str_compare (a b : str) : comparison :=
  match a, b with
  | [], [] => Eq
  | [], _ :: _ => Lt
  | _ :: _, [] => Gt
  | x :: a', y :: b' =>
      match Nat.compare (code x) (code y) with
      | Eq => str_compare a' b'
      | c => c
      end
  end.

Definition py_compare (x y : value) : outcome comparison :=
  match x, y with
  | Integer a, Integer b => Ret (a ?= b)%Z
  | Text a, Text b => Ret (str_compare a b)
  | _, _ => Raise TypeError
  end.

Definition py_gt (x y : value) : outcome bool :=
  do c <- py_compare x y; Ret (match c with Gt => true | _ => false end).
Definition py_lt (x y : value) : outcome bool :=
  do c <- py_compare x y; Ret (match c with Lt => true | _ => false end).
Definition py_ge (x y : value) : outcome bool :=
  do c <- py_compare x y; Ret (match c with Lt => false | _ => true end).
Definition py_le (x y : value) : outcome bool :=
  do c <- py_compare x y; Ret (match c with Gt => false | _ => true end).
Definition py_eq (x y : value) : bool := bool_decide (x = y).
Definition py_ne (x y : value) : bool := negb (py_eq x y).

(** ** [evaluate_condition] *)

(** The literal of a condition: [int(value)], or on [ValueError] the text
    with double and single quotes stripped from both ends. *)
Definition coerce_literal (text : str) : value :=
  match py_int text with
  | Some z => Integer z
  | None => Text (strip_chars [dquote; squote] text)
  end.

(** The operator tokens in the order of the source's list. *)
Definition operators : list str :=
  [lit ">="; lit "<="; lit ">"; lit "<"; lit "="; lit "!="].

(** The chain [if op == '>': ... elif ...] on the operator; [None] when
    no branch is taken. *)
Definition compare_values (op : str) (tuple_value literal : value)
  : option (outcome bool) :=
  if decide (op = lit ">") then Some (py_gt tuple_value literal)
  else if decide (op = lit "<") then Some (py_lt tuple_value literal)
  else if decide (op = lit ">=") then Some (py_ge tuple_value literal)
  else if decide (op = lit "<=") then Some (py_le tuple_value literal)
  else if decide (op = lit "=" \/ op = lit "==")
       then Some (Ret (py_eq tuple_value literal))
  else if decide (op = lit "!=")
       then Some (Ret (py_ne tuple_value literal))
  else None.

(** The body of the [for op in ...] loop over the remaining operators
    [ops]; the loop goes on to the next operator when [op] does not occur
    in the condition, when the split does not give two parts, or when the
    attribute is not in the schema. *)
Fixpoint evaluate_condition_loop (ops : list str) (condition : str)
    (attributes : list str) (tuple_data : list value) : outcome bool :=
  match ops with
  | [] => Ret false
  | op :: ops' =>
      let next :=
        evaluate_condition_loop ops' condition attributes tuple_data in
      if contains op condition then
        match split op condition with
        | [part0; part1] =>
            let attr := strip part0 in
            let value := strip part1 in
            if decide (attr ∈ attributes) then
              let attr_index := index attr attributes in
              do tuple_value <- getitem tuple_data attr_index;
              let value := coerce_literal value in
              match compare_values op tuple_value value with
              | Some result => result
              | None => next
              end
            else next
        | _ => next
        end
      else next
  end.

Definition evaluate_condition (condition : str) (attributes : list str)
    (tuple_data : list value) : outcome bool :=
  evaluate_condition_loop operators condition attributes tuple_data.

(** ** The operators on relations *)

#[global] Instance value_countable : Countable value.
Proof.
  refine (inj_countable'
    (fun v => match v with Integer z => inl z | Text s => inr s end)
    (fun x => match x with inl z => Integer z | inr s => Text s end) _).
  intros []; reflexivity.
Defined.

(** [for x in l: if f(x): out.append(x)], stopping at the first exception. *)
Fixpoint filterM {A} (f : A -> outcome bool) (l : list A)
  : outcome (list A) :=
  match l with
  | [] => Ret []
  | x :: l' =>
      do b <- f x;
      do ys <- filterM f l';
      Ret (if b then x :: ys else ys)
  end.

Definition select_operation (relations : store) (relation_name : str)
    (condition : str) : outcome (option relation) :=
  match relations !! relation_name with
  | None => Ret None
  | Some rel =>
      do result_tuples <-
        filterM (evaluate_condition condition (attributes rel)) (tuples rel);
      Ret (Some (Relation (attributes rel) result_tuples))
  end.

(** The indices of the requested attributes found in the schema. *)
Fixpoint project_indices (requested : list str) (schema : list str)
  : list nat :=
  match requested with
  | [] => []
  | attr :: requested' =>
      if decide (attr ∈ schema)
      then index attr schema :: project_indices requested' schema
      else project_indices requested' schema
  end.

(** The loop over the tuples of [project_operation], with the set [seen]
    and the list [result_tuples] it updates. *)
Fixpoint project_loop (indices : list nat) (tuples : list (list value))
    (seen : gset (list value)) (result_tuples : list (list value))
  : outcome (list (list value)) :=
  match tuples with
  | [] => Ret result_tuples
  | tuple_data :: tuples' =>
      do projected <- mapM (getitem tuple_data) indices;
      if decide (projected ∈ seen)
      then project_loop indices tuples' seen result_tuples
      else project_loop indices tuples' ({[projected]} ∪ seen)
             (result_tuples ++ [projected])
  end.

Definition project_operation (relations : store) (relation_name : str)
    (attrs : list str) : outcome (option relation) :=
  match relations !! relation_name with
  | None => Ret None
  | Some rel =>
      let indices := project_indices attrs (attributes rel) in
      do result_tuples <- project_loop indices (tuples rel) ∅ [];
      Ret (Some (Relation attrs result_tuples))
  end.

(** The loop shared in shape by union, intersection and difference: a
    tuple is appended when [keep] holds of it and it is not in [seen]. *)
Fixpoint set_loop (keep : list value -> bool) (tuples : list (list value))
    (seen : gset (list value)) (result_tuples : list (list value))
  : list (list value) :=
  match tuples with
  | [] => result_tuples
  | tuple_data :: tuples' =>
      if keep tuple_data && bool_decide (tuple_data ∉ seen)
      then set_loop keep tuples' ({[tuple_data]} ∪ seen)
             (result_tuples ++ [tuple_data])
      else set_loop keep tuples' seen result_tuples
  end.

Definition union_operation (relations : store)
    (relation1_name relation2_name : str) : option relation :=
  match relations !! relation1_name, relations !! relation2_name with
  | Some rel1, Some rel2 =>
      if decide (attributes rel1 ≠ attributes rel2) then None
      else
        Some (Relation (attributes rel1)
                (set_loop (fun _ => true) (tuples rel1 ++ tuples rel2) ∅ []))
  | _, _ => None
  end.

Definition intersection_operation (relations : store)
    (relation1_name relation2_name : str) : option relation :=
  match relations !! relation1_name, relations !! relation2_name with
  | Some rel1, Some rel2 =>
      if decide (attributes rel1 ≠ attributes rel2) then None
      else
        let rel2_tuples : gset (list value) := list_to_set (tuples rel2) in
        Some (Relation (attributes rel1)
                (set_loop (fun t => bool_decide (t ∈ rel2_tuples))
                   (tuples rel1) ∅ []))
  | _, _ => None
  end.

Definition difference_operation (relations : store)
    (relation1_name relation2_name : str) : option relation :=
  match relations !! relation1_name, relations !! relation2_name with
  | Some rel1, Some rel2 =>
      if decide (attributes rel1 ≠ attributes rel2) then None
      else
        let rel2_tuples : gset (list value) := list_to_set (tuples rel2) in
        Some (Relation (attributes rel1)
                (set_loop (fun t => bool_decide (t ∉ rel2_tuples))
                   (tuples rel1) ∅ []))
  | _, _ => None
  end.

(** ** Regular expressions

    The fragment of Python's [re] used by the source: character classes,
    greedy and lazy repetition of a class, sequence, numbered groups, [^]
    and [$].  [rmatch] is a backtracking matcher with the priorities of
    [re]: a greedy repetition tries the longest run first, a lazy one the
    shortest, and the first way to match the rest of the pattern wins. *)

Inductive regex :=
| Eps
| Chr (p : ascii -> bool)
| Rep (greedy : bool) (min : nat) (p : ascii -> bool)
| Seq (r1 r2 : regex)
| Group (i : nat) (r : regex)
| Bol
| Eol.

(** The captured groups, most recent first. *)
Abbreviation caps := (list (nat * str)).

Definition min_ok {R} (min : nat) (now : option R) : option R :=
  match min with O => now | S _ => None end.

Definition or_else {R} (a b : option R) : option R :=
  match a with Some r => Some r | None => b end.

Fixpoint rep_greedy {R} (p : ascii -> bool) (min : nat) (s : str)
    (k : str -> option R) : option R :=
  match s with
  | c :: s' =>
      if p c
      then or_else (rep_greedy p (pred min) s' k) (min_ok min (k s))
      else min_ok min (k s)
  | [] => min_ok min (k s)
  end.

Fixpoint rep_lazy {R} (p : ascii -> bool) (min : nat) (s : str)
    (k : str -> option R) : option R :=
  match s with
  | c :: s' =>
      if p c
      then or_else (min_ok min (k s)) (rep_lazy p (pred min) s' k)
      else min_ok min (k s)
  | [] => min_ok min (k s)
  end.

Fixpoint rmatch (whole : str) (r : regex) (s : str) (c : caps)
    (k : str -> caps -> option caps) : option caps :=
  match r with
  | Eps => k s c
  | Chr p =>
      match s with
      | a :: s' => if p a then k s' c else None
      | [] => None
      end
  | Rep greedy min p =>
      if greedy then rep_greedy p min s (fun s' => k s' c)
      else rep_lazy p min s (fun s' => k s' c)
  | Seq r1 r2 =>
      rmatch whole r1 s c (fun s' c' => rmatch whole r2 s' c' k)
  | Group i r =>
      rmatch whole r s c
        (fun s' c' => k s' ((i, take (length s - length s') s) :: c'))
  | Bol => if (length s =? length whole)%nat then k s c else None
  | Eol =>
      match s with
      | [] => k s c
      | [a] => if ascii_eqb a newline then k s c else None
      | _ => None
      end
  end.

(** [re.match(pattern, s)]: a match anchored at the start of [s]. *)
Definition re_match (r : regex) (s : str) : option caps :=
  rmatch s r s [] (fun _ c => Some c).

(** [m.group(i)] for a group that took part in the match. *)
Fixpoint group (m : caps) (i : nat) : str :=
  match m with
  | [] => []
  | (j, t) :: m' => if (j =? i)%nat then t else group m' i
  end.

(** A literal string in a pattern. *)
Fixpoint Str (s : str) : regex :=
  match s with
  | [] => Eps
  | c :: s' => Seq (Chr (fun a => ascii_eqb a c)) (Str s')
  end.

Definition seqs (rs : list regex) : regex := foldr Seq Eps rs.

Definition is_char (c : ascii) : ascii -> bool := fun a => ascii_eqb a c.
(** [.] matches any character but a newline. *)
Definition dot : ascii -> bool := fun a => negb (ascii_eqb a newline).
Definition not_char (c : ascii) : ascii -> bool :=
  fun a => negb (ascii_eqb a c).

(** [(\w+)\s*\(([^)]+)\)\s*=\s*\{] *)
Definition header_re : regex :=
  seqs [Group 1 (Rep true 1 is_word); Rep true 0 is_space;
        Chr (is_char "("); Group 2 (Rep true 1 (not_char ")"));
        Chr (is_char ")"); Rep true 0 is_space; Chr (is_char "=");
        Rep true 0 is_space; Chr (is_char "{")].

(** [keyword\s+(.+?)\s*\(\s*(.+)\s*\)] for [project] and [select]. *)
Definition nested_re (keyword : str) : regex :=
  seqs [Str keyword; Rep true 1 is_space; Group 1 (Rep false 1 dot);
        Rep true 0 is_space; Chr (is_char "("); Rep true 0 is_space;
        Group 2 (Rep true 1 dot); Rep true 0 is_space; Chr (is_char ")")].

(** [^\w+$] *)
Definition name_re : regex := seqs [Bol; Rep true 1 is_word; Eol].

(** [keyword\s+(\w+)\s+(\w+)] for the four binary operators. *)
Definition binary_re (keyword : str) : regex :=
  seqs [Str keyword; Rep true 1 is_space; Group 1 (Rep true 1 is_word);
        Rep true 1 is_space; Group 2 (Rep true 1 is_word)].

(** ** [parse_relation] *)

(** One value of a tuple line: whitespace stripped, then double quotes
    stripped from both ends, then [int] if it parses. *)
Definition convert_value (val : str) : value :=
  let val := strip_chars [dquote] (strip val) in
  match py_int val with
  | Some z => Integer z
  | None => Text val
  end.

(** The test [tuple_line and not tuple_line.startswith('#')] on a
    stripped line. *)
Definition is_tuple_line (tuple_line : str) : bool :=
  bool_decide (tuple_line ≠ []) && negb (startswith (lit "#") tuple_line).

(** The loop over the lines of the body. *)
Fixpoint parse_lines (lines : list str) : list (list value) :=
  match lines with
  | [] => []
  | tuple_line :: lines' =>
      let tuple_line := strip tuple_line in
      if is_tuple_line tuple_line
      then map convert_value (split (lit ",") tuple_line) :: parse_lines lines'
      else parse_lines lines'
  end.

(** The lines of the body [text[start+1:end].strip()]; none when the body
    is empty. *)
Definition body_lines (text : str) (start end_ : nat) : list str :=
  let tuples_text := strip (slice (start + 1) end_ text) in
  match tuples_text with
  | [] => []
  | _ => split [newline] tuples_text
  end.

Definition parse_relation (relations : store) (text : str) : store :=
  match re_match header_re text with
  | None => relations
  | Some header_match =>
      let name := group header_match 1 in
      let attrs := map strip (split (lit ",") (group header_match 2)) in
      match find "{" text, rfind "}" text with
      | Some start, Some end_ =>
          let tuples := parse_lines (body_lines text start end_) in
          <[name := Relation attrs tuples]> relations
      | _, _ => relations
      end
  end.

(** ** [join_operation], the executor and the query parser

    [join_operation] iterates over a Python [set] of attribute names, whose
    order the language leaves open.  [set_iter] stands for that order: the
    definitions below hold for any enumeration of a set. *)

(** What a call of [parse_query] yields: the store after the call and the
    outcome. *)
Abbreviation answer := (store * outcome (option relation))%type.

Section Processor.

Variable set_iter : gset str -> list str.

(** The combined schema: the first schema, then the attributes of the
    second one that are not yet in the result. *)
Fixpoint join_attrs (result_attrs : list str) (attrs2 : list str)
  : list str :=
  match attrs2 with
  | [] => result_attrs
  | attr :: attrs2' =>
      if decide (attr ∉ result_attrs)
      then join_attrs (result_attrs ++ [attr]) attrs2'
      else join_attrs result_attrs attrs2'
  end.

(** The [for attr in common_attrs] loop, leaving at the first mismatch. *)
Fixpoint join_valid (attrs1 attrs2 : list str) (tuple1 tuple2 : list value)
    (common_attrs : list str) : outcome bool :=
  match common_attrs with
  | [] => Ret true
  | attr :: common' =>
      let idx1 := index attr attrs1 in
      let idx2 := index attr attrs2 in
      do v1 <- getitem tuple1 idx1;
      do v2 <- getitem tuple2 idx2;
      if py_ne v1 v2 then Ret false
      else join_valid attrs1 attrs2 tuple1 tuple2 common'
  end.

(** The values appended to [combined]: those of [tuple2] at the positions,
    counted from [i], whose attribute is not in the first schema. *)
Fixpoint join_extra (attrs1 : list str) (attrs2 : list str) (i : nat)
    (tuple2 : list value) : outcome (list value) :=
  match attrs2 with
  | [] => Ret []
  | attr :: attrs2' =>
      if decide (attr ∉ attrs1)
      then
        do v <- getitem tuple2 i;
        do vs <- join_extra attrs1 attrs2' (S i) tuple2;
        Ret (v :: vs)
      else join_extra attrs1 attrs2' (S i) tuple2
  end.

(** The inner loop [for tuple2 in rel2['tuples']] for one [tuple1]. *)
Fixpoint join_inner (attrs1 attrs2 : list str) (common_attrs : list str)
    (tuple1 : list value) (tuples2 : list (list value))
  : outcome (list (list value)) :=
  match tuples2 with
  | [] => Ret []
  | tuple2 :: tuples2' =>
      do valid <- join_valid attrs1 attrs2 tuple1 tuple2 common_attrs;
      do here <-
        (if valid
         then do extra <- join_extra attrs1 attrs2 0 tuple2;
              Ret [tuple1 ++ extra]
         else Ret []);
      do rest <- join_inner attrs1 attrs2 common_attrs tuple1 tuples2';
      Ret (here ++ rest)
  end.

(** The outer loop [for tuple1 in rel1['tuples']]. *)
Fixpoint join_outer (attrs1 attrs2 : list str) (common_attrs : list str)
    (tuples1 tuples2 : list (list value)) : outcome (list (list value)) :=
  match tuples1 with
  | [] => Ret []
  | tuple1 :: tuples1' =>
      do here <- join_inner attrs1 attrs2 common_attrs tuple1 tuples2;
      do rest <- join_outer attrs1 attrs2 common_attrs tuples1' tuples2;
      Ret (here ++ rest)
  end.

(** The parameter [condition] is not used by the source. *)
Definition join_operation (relations : store)
    (relation1_name relation2_name : str) (condition : option str)
  : outcome (option relation) :=
  match relations !! relation1_name, relations !! relation2_name with
  | Some rel1, Some rel2 =>
      let common_attrs : gset str :=
        list_to_set (attributes rel1) ∩ list_to_set (attributes rel2) in
      let result_attrs := join_attrs (attributes rel1) (attributes rel2) in
      do result_tuples <-
        join_outer (attributes rel1) (attributes rel2)
          (set_iter common_attrs) (tuples rel1) (tuples rel2);
      Ret (Some (Relation result_attrs result_tuples))
  | _, _ => Ret None
  end.

(** The name under which an intermediate result is staged. *)
Definition temp_name : str := lit "temp_result".

(** [execute_on_result]: the store after the call and its outcome.  When
    the operation raises, the statement that removes the staged entry is
    not reached. *)
Definition execute_on_result (relations : store)
    (operation_result : option relation)
    (operation_func : store -> str -> outcome (option relation))
  : store * outcome (option relation) :=
  match operation_result with
  | None => (relations, Ret None)
  | Some staged =>
      let relations1 := <[temp_name := staged]> relations in
      match operation_func relations1 temp_name with
      | Ret result => (delete temp_name relations1, Ret result)
      | Raise e => (relations1, Raise e)
      end
  end.

(** The four rules for the binary operators, tried in order. *)
Definition binary_rules (relations : store) (query : str)
  : outcome (option relation) :=
  match re_match (binary_re (lit "join")) query with
  | Some join_match =>
      join_operation relations (group join_match 1) (group join_match 2) None
  | None =>
  match re_match (binary_re (lit "union")) query with
  | Some union_match =>
      Ret (union_operation relations
             (group union_match 1) (group union_match 2))
  | None =>
  match re_match (binary_re (lit "intersection")) query with
  | Some intersection_match =>
      Ret (intersection_operation relations
             (group intersection_match 1) (group intersection_match 2))
  | None =>
  match re_match (binary_re (lit "difference")) query with
  | Some difference_match =>
      Ret (difference_operation relations
             (group difference_match 1) (group difference_match 2))
  | None => Ret None
  end end end end.

(** One of the two rules [keyword args (inner)].  [operation] is the
    operator applied to a relation name and the text of group 1;
    [recurse] evaluates a nested query; [otherwise] is the rest of
    [parse_query], reached when the rule does not match or when the nested
    query yields no relation. *)
Definition nested_rule (recurse : store -> str -> option answer)
    (keyword : str)
    (operation : str -> store -> str -> outcome (option relation))
    (otherwise : store -> option answer)
    (relations : store) (query : str) : option answer :=
  match re_match (nested_re keyword) query with
  | Some nested_match =>
      let args := strip (group nested_match 1) in
      let inner_query := strip (group nested_match 2) in
      if bool_decide (is_Some (re_match name_re inner_query))
      then Some (relations, operation args relations inner_query)
      else
        match recurse relations inner_query with
        | None => None
        | Some (relations', Raise e) => Some (relations', Raise e)
        | Some (relations', Ret (Some inner_result)) =>
            Some (execute_on_result relations' (Some inner_result)
                    (operation args))
        | Some (relations', Ret None) => otherwise relations'
        end
  | None => otherwise relations
  end.

Definition project_args (attrs_str : str) (relations : store)
    (relation_name : str) : outcome (option relation) :=
  project_operation relations relation_name
    (map strip (split (lit ",") attrs_str)).

Definition select_args (condition : str) (relations : store)
    (relation_name : str) : outcome (option relation) :=
  select_operation relations relation_name condition.

(** [parse_query] with a bound [fuel] on the depth of the recursion;
    [None] means that the bound was reached. *)
Fixpoint parse_query_fuel (fuel : nat) (relations : store) (query : str)
  : option answer :=
  match fuel with
  | O => None
  | S fuel' =>
      let query := strip query in
      nested_rule (parse_query_fuel fuel') (lit "project") project_args
        (fun relations =>
           nested_rule (parse_query_fuel fuel') (lit "select") select_args
             (fun relations => Some (relations, binary_rules relations query))
             relations query)
        relations query
  end.

(** A nested query is shorter than the query around it, so the length of
    the query bounds the depth.  The interpreter's limit on the depth of
    recursion is not modelled. *)
Definition parse_query (relations : store) (query : str) : option answer :=
  parse_query_fuel (S (length query)) relations query.

(** The loop of [main] over the queries: each result is written out, a
    relation or the error line for [None]; an exception leaves the loop for
    the handler around the whole of [main], so the queries after it are not
    evaluated.  The result is the list of results written and the
    exception, if any, that ended the run. *)
Fixpoint main_loop (relations : store) (queries : list str)
  : option (list (option relation) * option exn) :=
  match queries with
  | [] => Some ([], None)
  | query :: queries' =>
      match parse_query relations query with
      | None => None
      | Some (_, Raise e) => Some ([], Some e)
      | Some (relations', Ret result) =>
          match main_loop relations' queries' with
          | None => None
          | Some (written, e) => Some (result :: written, e)
          end
      end
  end.

End Processor.

(** ** [format_result], [parse_all_relations] and the queries of [main] *)

(** [sep.join(pieces)]. *)
Fixpoint join_with (sep : str) (pieces : list str) : str :=
  match pieces with
  | [] => []
  | [piece] => piece
  | piece :: pieces' => piece ++ sep ++ join_with sep pieces'
  end.

(** [str(z)] for an [int]: the decimal digits, after a minus sign for a
    negative number. *)
Definition str_of_int (z : Z) : str :=
  lit (DecimalString.NilZero.string_of_int (Z.to_int z)).

(** One value of a written tuple: [f'"{val}"'] for a [str], [str(val)]
    for an [int]. *)
Definition format_value (val : value) : str :=
  match val with
  | Text s => [dquote] ++ s ++ [dquote]
  | Integer z => str_of_int z
  end.

(** The loop of [format_result] over the tuples: each tuple gives a line
    of two spaces, the values separated by a comma and a space, and a line
    end. *)
Fixpoint format_tuples (tuples : list (list value)) : str :=
  match tuples with
  | [] => []
  | tuple_data :: tuples' =>
      let tuple_str := join_with (lit ", ") (map format_value tuple_data) in
      lit "  " ++ tuple_str ++ [newline] ++ format_tuples tuples'
  end.

Definition format_result (result : option relation) (relation_name : str)
  : str :=
  let empty := relation_name ++ lit " = {} (empty result)" ++ [newline] in
  match result with
  | None => empty
  | Some rel =>
      match tuples rel with
      | [] => empty
      | _ =>
          relation_name ++ lit " = {"
          ++ join_with (lit ", ") (attributes rel) ++ [newline]
          ++ format_tuples (tuples rel) ++ lit "}" ++ [newline]
      end
  end.

(** A match with its group 0, the text matched. *)
Definition re_match0 (r : regex) (s : str) : option caps :=
  rmatch s r s []
    (fun rest c => Some ((0, take (length s - length rest) s) :: c)).

(** [re.finditer(pattern, content)], as the list of the starts of the
    matches: the content is scanned from the left, a match is sought at
    each position, and the scan resumes where a match ends.  [skip] counts
    the characters of a match still to pass over and [pos] is the index in
    the content of the first character of [s].  This is [finditer] for a
    pattern that matches no empty text and has no [^], as the pattern of
    the header. *)
Fixpoint finditer_go (r : regex) (skip pos : nat) (s : str) : list nat :=
  match s with
  | [] => []
  | _ :: s' =>
      match skip with
      | S n => finditer_go r n (S pos) s'
      | O =>
          match re_match0 r s with
          | Some m =>
              pos :: finditer_go r (length (group m 0) - 1) (S pos) s'
          | None => finditer_go r 0 (S pos) s'
          end
      end
  end.

(** The loop of [parse_all_relations] over the matches: each definition
    runs from the start of its match to the start of the next one, or to
    the end of the content. *)
Fixpoint parse_matches (relations : store) (content : str)
    (matches : list nat) : store :=
  match matches with
  | [] => relations
  | start :: matches' =>
      let end_ :=
        match matches' with
        | next :: _ => next
        | [] => length content
        end in
      parse_matches (parse_relation relations (slice start end_ content))
        content matches'
  end.

Definition parse_all_relations (relations : store) (content : str) : store :=
  parse_matches relations content (finditer_go header_re 0 0 content).

(** The words with which a line of the content is taken as a query. *)
Definition operation_words : list str :=
  [lit "select"; lit "project"; lit "join"; lit "union";
   lit "intersection"; lit "difference"].

(** The loop of [main] that collects the queries from the lines of the
    content. *)
Fixpoint collect_queries (lines : list str) : list str :=
  match lines with
  | [] => []
  | line :: lines' =>
      let line := strip line in
      if startswith (lit "Query:") line
      then strip (drop 6 line) :: collect_queries lines'
      else if existsb (fun op => startswith op line) operation_words
           then line :: collect_queries lines'
           else collect_queries lines'
  end.

Definition main_queries (content : str) : list str :=
  collect_queries (split [newline] (strip content)).

(** * The vocabulary of the properties *)

(** The list without its duplicates, each element at the place of its first
    occurrence: the head is kept and its later copies are removed. *)
Fixpoint dedup_first (l : list (list value)) : list (list value) :=
  match l with
  | [] => []
  | x :: l' => x :: filter (fun y => y ≠ x) (dedup_first l')
  end.

(** The invariant of the data model: every tuple has as many values as the
    schema has attribute names. *)
Definition well_formed (rel : relation) : Prop :=
  Forall (fun t => length t = length (attributes rel)) (tuples rel).

#[global] Instance well_formed_dec rel : Decision (well_formed rel).
Proof. unfold well_formed. apply _. Defined.

(** The characters of the operator tokens. *)
Definition op_char (c : ascii) : bool :=
  in_chars (lit "<>=!") c.

(** A text without operator characters. *)
Definition plain (s : str) : bool := forallb (fun c => negb (op_char c)) s.

(** An attribute name as [parse_relation] stores them, surrounding
    whitespace stripped, and without operator characters. *)
Definition attr_name (s : str) : bool :=
  plain s && bool_decide (strip s = s).

(** The comparison that [compare_values] selects for an operator. *)
Definition comparison_of (op : str) (x y : value) : outcome bool :=
  match compare_values op x y with
  | Some result => result
  | None => Ret false
  end.

(** What C5 states of one schema, tuple, attribute name and literal: each
    of the three conditions with a two-character operator performs that
    comparison on the value of the attribute. *)
Definition two_char_comparisons (schema : list str)
    (tuple_data : list value) (a v : str) : Prop :=
  evaluate_condition (a ++ lit ">=" ++ v) schema tuple_data
  = (do x <- getitem tuple_data (index a schema);
     py_ge x (coerce_literal (strip v)))
  ∧ evaluate_condition (a ++ lit "<=" ++ v) schema tuple_data
  = (do x <- getitem tuple_data (index a schema);
     py_le x (coerce_literal (strip v)))
  ∧ evaluate_condition (a ++ lit "!=" ++ v) schema tuple_data
  = (do x <- getitem tuple_data (index a schema);
     Ret (py_ne x (coerce_literal (strip v)))).

(** An [int] against a [str], or a [str] against an [int]. *)
Definition cross_type (x y : value) : bool :=
  match x, y with
  | Integer _, Text _ | Text _, Integer _ => true
  | _, _ => false
  end.

(** What C10 states of one schema, tuple, attribute and literal of
    different types: [=] gives false, [!=] gives true, and each of the
    four ordering operators raises. *)
Definition cross_type_comparisons (schema : list str)
    (tuple_data : list value) (a v : str) : Prop :=
  evaluate_condition (a ++ lit "=" ++ v) schema tuple_data = Ret false
  ∧ evaluate_condition (a ++ lit "!=" ++ v) schema tuple_data = Ret true
  ∧ ∀ op, op ∈ [lit ">"; lit "<"; lit ">="; lit "<="] →
          ∃ e, evaluate_condition (a ++ op ++ v) schema tuple_data
               = Raise e.

(** The first character of [s], if any, is not one that [p] strips. *)
Definition starts_ok (p : ascii -> bool) (s : str) : bool :=
  match s with
  | [] => true
  | c :: _ => negb (p c)
  end.

(** The same for the last character. *)
Definition ends_ok (p : ascii -> bool) (s : str) : bool :=
  starts_ok p (rev s).

(** What C9 states of a value written with two layers of quotes: one
    layer is kept. *)
Definition keeps_inner_layer (x : str) : Prop :=
  convert_value ([dquote; dquote] ++ x ++ [dquote; dquote])
  = Text ([dquote] ++ x ++ [dquote]).

(** The number of comma-separated values of a line. *)
Definition field_count (tuple_line : str) : nat :=
  length (split (lit ",") tuple_line).

(** The stripped lines that [parse_lines] reads as tuples. *)
Definition tuple_lines (lines : list str) : list str :=
  filter (fun l => is_tuple_line l = true) (map strip lines).

(** The groups captured while a prefix of length [n] was consumed are no
    longer than [n]. *)
Definition within (n : nat) (new : caps) : Prop :=
  Forall (fun it => length it.2 ≤ n) new.

(** What C2 states of a store, a condition and a relation name: the
    query [select condition name] evaluates to the selection. *)
Definition bare_select_accepted (set_iter : gset str -> list str)
    (relations : store) (condition name : str) : Prop :=
  parse_query set_iter relations
    (lit "select " ++ condition ++ lit " " ++ name)
  = Some (relations, select_operation relations name condition).

(** The same for [project attr_list name]. *)
Definition bare_project_accepted (set_iter : gset str -> list str)
    (relations : store) (attrs_str name : str) : Prop :=
  parse_query set_iter relations
    (lit "project " ++ attrs_str ++ lit " " ++ name)
  = Some (relations,
          project_operation relations name
            (map strip (split (lit ",") attrs_str))).

(** The three kinds of failure that the executor can meet. *)
Inductive failure_kind :=
| RelationNotFound
| SchemaMismatch
| UnrecognizedQuery.

(** Example stores, as [parse_relation] builds them. *)
Definition store_R : store := parse_relation ∅ (lit "R (a) = { x }").

Definition store_S : store := parse_relation ∅ (lit "S (a, b) = { 1 }").

Definition store_AB : store :=
  parse_relation (parse_relation ∅ (lit "A (a) = { 1 }"))
    (lit "B (b) = { 1 }").

Definition store_temp : store :=
  parse_relation ∅ (lit "temp_result (a) = { 1 }").

(** What C6 states of three queries that fail in the three ways: the
    caller can tell the kind of failure from the answers. *)
Definition failures_distinguishable (set_iter : gset str -> list str)
    (relations : store) (q_missing q_mismatch q_unrecognized : str) : Prop :=
  ∃ kind_of : option answer -> failure_kind,
    kind_of (parse_query set_iter relations q_missing) = RelationNotFound
    ∧ kind_of (parse_query set_iter relations q_mismatch) = SchemaMismatch
    ∧ kind_of (parse_query set_iter relations q_unrecognized)
      = UnrecognizedQuery.

(** What C4 states of a store and a query: the store after the call is
    the store before it. *)
Definition store_restored (set_iter : gset str -> list str)
    (relations : store) (query : str) : Prop :=
  ∀ relations' outcome,
    parse_query set_iter relations query = Some (relations', outcome) →
    relations' = relations.

Definition rel_P : relation :=
  Relation [lit "a"; lit "b"]
    [[Integer 1; Text (lit "x")]; [Integer 2; Text (lit "y")];
     [Integer 1; Text (lit "x")]].

Definition rel_Q : relation :=
  Relation [lit "a"; lit "b"]
    [[Integer 2; Text (lit "y")]; [Integer 3; Text (lit "z")]].

Definition store_PQ : store := <[lit "P" := rel_P]> (<[lit "Q" := rel_Q]> ∅).

Definition rel_P_b : relation :=
  Relation [lit "b"] [[Text (lit "x")]; [Text (lit "y")]].

(** The relation of the scenarios: three employees, the names written in
    double quotes. *)
Definition employees_text : str :=
  lit "Employees (name, dept, salary) = {" ++ [newline]
  ++ lit "  " ++ [dquote] ++ lit "Alice" ++ [dquote] ++ lit ", Eng, 100"
  ++ [newline]
  ++ lit "  " ++ [dquote] ++ lit "Bob" ++ [dquote] ++ lit ", Eng, 90"
  ++ [newline]
  ++ lit "  " ++ [dquote] ++ lit "Carol" ++ [dquote] ++ lit ", Sales, 80"
  ++ [newline] ++ lit "}" ++ [newline].

Definition store_employees : store := parse_relation ∅ employees_text.

(** ** The vocabulary of the further properties *)

(** [t'] holds the values of [t] for the requested attributes that the
    schema has, in the order requested. *)
Definition projection_of (attrs schema : list str) (t t' : list value)
  : Prop :=
  Forall2 (fun a x => t !! index a schema = Some x)
    (filter (fun a => a ∈ schema) attrs) t'.

(** Two tuples agree on every attribute that both schemas have. *)
Definition agree (attrs1 attrs2 : list str) (t1 t2 : list value) : Prop :=
  Forall (fun a => a ∈ attrs2 →
                   t1 !! index a attrs1 = t2 !! index a attrs2) attrs1.

#[global] Instance agree_dec attrs1 attrs2 t1 t2 :
  Decision (agree attrs1 attrs2 t1 t2).
Proof. unfold agree. apply _. Defined.

(** The values of [t2] at the positions whose attribute the first schema
    lacks. *)
Fixpoint extra_values (attrs1 attrs2 : list str) (t2 : list value)
  : list value :=
  match attrs2, t2 with
  | a :: attrs2', x :: t2' =>
      if decide (a ∉ attrs1)
      then x :: extra_values attrs1 attrs2' t2'
      else extra_values attrs1 attrs2' t2'
  | _, _ => []
  end.

(** The natural join of two lists of tuples: for each tuple of the first
    and each of the second, in that order, the first tuple extended with
    the extra values of the second when the two agree. *)
Definition natural_join (attrs1 attrs2 : list str)
    (tuples1 tuples2 : list (list value)) : list (list value) :=
  flat_map (fun t1 =>
    flat_map (fun t2 =>
      if decide (agree attrs1 attrs2 t1 t2)
      then [t1 ++ extra_values attrs1 attrs2 t2]
      else []) tuples2) tuples1.

(** A value that is read back as written: any integer; a text without
    comma or line end, without a double quote at either end, and that
    [int] does not accept. *)
Definition writable (val : value) : Prop :=
  match val with
  | Integer _ => True
  | Text s =>
      (","%char ∉ s) ∧ (newline ∉ s)
      ∧ starts_ok (in_chars [dquote]) s = true
      ∧ ends_ok (in_chars [dquote]) s = true
      ∧ py_int s = None
  end.

(** An attribute name that is read back as written. *)
Definition writable_attr (attr : str) : Prop :=
  attr ≠ [] ∧ strip attr = attr
  ∧ (","%char ∉ attr) ∧ (")"%char ∉ attr) ∧ ("{"%char ∉ attr).

#[global] Instance writable_dec val : Decision (writable val).
Proof. destruct val; simpl; apply _. Defined.

#[global] Instance writable_attr_dec attr : Decision (writable_attr attr).
Proof. unfold writable_attr. apply _. Defined.

(** The characters of a written integer: digits and the minus sign. *)
Definition int_char (c : ascii) : bool := is_digit c || ascii_eqb c "-".

(** Every [(] of the text is followed, somewhere, by a [)]. *)
Fixpoint parens_closed (u : str) : bool :=
  match u with
  | [] => true
  | c :: u' =>
      (if ascii_eqb c "(" then existsb (fun a => ascii_eqb a ")") u'
       else true)
      && parens_closed u'
  end.

(** A text between two headers in which the header pattern finds no
    match: it has no [{], it does not end with a word character, and its
    parentheses are closed. *)
Definition gap_ok (u : str) : bool :=
  forallb (not_char "{") u && ends_ok is_word u && parens_closed u.

(** A definition: a match of the header pattern followed by such a
    text. *)
Definition definition_text (d : str) : bool :=
  match re_match0 header_re d with
  | Some m => gap_ok (drop (length (group m 0)) d)
  | None => false
  end.

(** The starts of consecutive texts, the first of them at [pos]. *)
Fixpoint offsets (pos : nat) (ds : list str) : list nat :=
  match ds with
  | [] => []
  | d :: ds' => pos :: offsets (pos + length d) ds'
  end.

(** A header: a name, an attribute list in parentheses, [=] and [{]. *)
Definition header_shape (h name : str) : Prop :=
  ∃ ws1 attrs ws2 ws3,
    h = name ++ ws1 ++ "("%char :: attrs ++ ")"%char :: ws2
        ++ "="%char :: ws3 ++ ["{"%char]
    ∧ name ≠ [] ∧ forallb is_word name = true
    ∧ forallb is_space ws1 = true
    ∧ attrs ≠ [] ∧ forallb (not_char ")") attrs = true
    ∧ forallb is_space ws2 = true ∧ forallb is_space ws3 = true.

(** What may follow a gap: nothing, or a text that begins with a name,
    whitespace and an opening parenthesis. *)
Definition follows (later : str) : Prop :=
  later = []
  ∨ ∃ n0 name ws more,
      later = n0 :: name ++ ws ++ "("%char :: more
      ∧ is_word n0 = true ∧ forallb is_word name = true
      ∧ forallb is_space ws = true.

Definition rel_D : relation :=
  Relation [lit "b"; lit "c"]
    [[Text (lit "x"); Integer 10]; [Text (lit "z"); Integer 30]].

Definition rel_C : relation :=
  Relation [lit "c"] [[Integer 7]; [Integer 8]].

Definition store_J : store :=
  <[lit "P" := rel_P]>
    (<[lit "Q" := rel_Q]> (<[lit "D" := rel_D]> (<[lit "C" := rel_C]> ∅))).

(** The tuples of [P] that satisfy [a=1]. *)
Definition rel_P_a1 : relation :=
  Relation [lit "a"; lit "b"]
    [[Integer 1; Text (lit "x")]; [Integer 1; Text (lit "x")]].

(** The tuples of the join of [P] and [D], which share [b]. *)
Definition rel_PD : relation :=
  Relation [lit "a"; lit "b"; lit "c"]
    [[Integer 1; Text (lit "x"); Integer 10];
     [Integer 1; Text (lit "x"); Integer 10]].

(** Two definitions, the second followed by a query. *)
Definition two_definitions : list str :=
  [lit "R (a) = {" ++ [newline] ++ lit "  1" ++ [newline] ++ lit "}"
   ++ [newline];
   lit "S (b) = {" ++ [newline] ++ lit "  2" ++ [newline] ++ lit "}"
   ++ [newline] ++ lit "select b=2 (S)" ++ [newline]].

(** * Properties *)

(** ** Removal of duplicates, keeping first occurrences *)

Lemma dedup_first_filter (P : list value -> Prop)
    `{!∀ x, Decision (P x)} (l : list (list value)) :
  dedup_first (filter P l) = filter P (dedup_first l).
Proof.
  induction l as [|x l IH]; [done|].
  rewrite filter_cons. destruct (decide (P x)) as [HP|HP]; simpl.
  - rewrite filter_cons_True by done. f_equal.
    rewrite IH, !list_filter_filter.
    apply list_filter_iff. naive_solver.
  - rewrite filter_cons_False by done.
    rewrite IH, list_filter_filter.
    apply list_filter_iff. intros y. split; [|naive_solver].
    intros Hy. split; [done|]. by intros ->.
Qed.

Lemma dedup_first_elem_of (l : list (list value)) (x : list value) :
  x ∈ dedup_first l ↔ x ∈ l.
Proof.
  induction l as [|y l IH]; [done|]. simpl.
  rewrite !elem_of_cons, list_elem_of_filter, IH.
  destruct (decide (x = y)); naive_solver.
Qed.

Lemma dedup_first_NoDup (l : list (list value)) : NoDup (dedup_first l).
Proof.
  induction l as [|y l IH]; simpl; [constructor|].
  constructor; [|by apply NoDup_filter].
  rewrite list_elem_of_filter. naive_solver.
Qed.

Lemma dedup_first_sublist (l : list (list value)) : dedup_first l `sublist_of` l.
Proof.
  induction l as [|y l IH]; simpl; [done|].
  apply sublist_skip.
  trans (dedup_first l); [exact (sublist_filter _ _)|exact IH].
Qed.

Lemma filter_ne_absent (x : list value) (l : list (list value)) :
  x ∉ l → filter (fun y => y ≠ x) l = l.
Proof.
  induction l as [|y l IH]; [done|].
  rewrite not_elem_of_cons. intros [Hxy Hx].
  rewrite filter_cons_True by congruence. f_equal. by apply IH.
Qed.

Lemma dedup_first_id (l : list (list value)) : NoDup l → dedup_first l = l.
Proof.
  induction 1 as [|x l Hx _ IH]; [done|]. simpl. rewrite IH. f_equal.
  by apply filter_ne_absent.
Qed.

(** The loop of the set operators computes [dedup_first] of the tuples it
    keeps. *)
Lemma set_loop_spec (keep : list value -> bool) (ts : list (list value))
    (seen : gset (list value)) (result_tuples : list (list value)) :
  set_loop keep ts seen result_tuples =
  result_tuples ++
    dedup_first (filter (fun t => keep t = true ∧ t ∉ seen) ts).
Proof.
  revert seen result_tuples.
  induction ts as [|t ts IH]; intros seen result_tuples; simpl.
  { by rewrite app_nil_r. }
  rewrite filter_cons.
  destruct (decide (keep t = true ∧ t ∉ seen)) as [[Hk Hseen]|Hno].
  - rewrite Hk, bool_decide_eq_true_2 by done. simpl.
    rewrite IH, <- app_assoc. simpl. do 2 f_equal.
    rewrite <- dedup_first_filter, list_filter_filter.
    f_equal. apply list_filter_iff. intros y. set_solver.
  - replace (keep t && bool_decide (t ∉ seen)) with false; [apply IH|].
    symmetry. apply andb_false_iff.
    destruct (keep t); [right|by left].
    apply bool_decide_eq_false_2. naive_solver.
Qed.

(** ** Union *)

(** C7: for two relations present in the store, [union_operation] fails
    exactly when their attribute lists differ; when they are equal it
    returns that schema with the tuples of the first relation followed by
    those of the second, duplicates removed and first occurrences kept in
    order. *)
Theorem union_operation_spec (relations : store) (n1 n2 : str)
    (rel1 rel2 : relation) :
  relations !! n1 = Some rel1 →
  relations !! n2 = Some rel2 →
  (union_operation relations n1 n2 = None
     ↔ attributes rel1 ≠ attributes rel2)
  ∧ (attributes rel1 = attributes rel2 →
     ∃ result_tuples,
       union_operation relations n1 n2
         = Some (Relation (attributes rel1) result_tuples)
       ∧ result_tuples = dedup_first (tuples rel1 ++ tuples rel2)
       ∧ NoDup result_tuples
       ∧ (∀ t, t ∈ result_tuples ↔ t ∈ tuples rel1 ++ tuples rel2)
       ∧ result_tuples `sublist_of` tuples rel1 ++ tuples rel2).
Proof.
  intros H1 H2. unfold union_operation. rewrite H1, H2.
  split.
  - destruct (decide (attributes rel1 ≠ attributes rel2)); naive_solver.
  - intros Heq. rewrite decide_False by naive_solver.
    eexists. split; [reflexivity|].
    rewrite set_loop_spec. simpl.
    replace (filter _ (tuples rel1 ++ tuples rel2))
      with (tuples rel1 ++ tuples rel2).
    2:{ generalize (tuples rel1 ++ tuples rel2). intros all.
        induction all as [|t all IH]; [done|].
        rewrite filter_cons_True by set_solver. by rewrite <- IH. }
    split_and!.
    + done.
    + apply dedup_first_NoDup.
    + apply dedup_first_elem_of.
    + apply dedup_first_sublist.
Qed.

(** ** Projection *)

Lemma bind_ret_inv {A B} (m : outcome A) (f : A -> outcome B) (b : B) :
  bind m f = Ret b → ∃ a, m = Ret a ∧ f a = Ret b.
Proof. destruct m as [a|e]; simpl; [eauto|done]. Qed.

Lemma getitem_ret {A} (l : list A) (i : nat) (x : A) :
  getitem l i = Ret x ↔ l !! i = Some x.
Proof. unfold getitem. destruct (l !! i); naive_solver. Qed.

(** [mapM (getitem t) indices] returns the values of [t] at the indices. *)
Lemma mapM_getitem_ret (t : list value) (indices : list nat)
    (t' : list value) :
  mapM (getitem t) indices = Ret t'
  ↔ Forall2 (fun i x => t !! i = Some x) indices t'.
Proof.
  revert t'. induction indices as [|i indices IH]; intros t'; simpl.
  - split; [by intros [= <-]; constructor|by inversion 1].
  - split.
    + intros (x & Hx%getitem_ret & H)%bind_ret_inv.
      apply bind_ret_inv in H as (xs & Hxs & [= <-]).
      constructor; [done|by apply IH].
    + inversion 1 as [|? x ? xs Hx Hxs]; subst.
      apply getitem_ret in Hx. apply IH in Hxs. by rewrite Hx, Hxs.
Qed.

Lemma index_lookup (a : str) (l : list str) :
  a ∈ l → l !! index a l = Some a.
Proof.
  induction l as [|b l IH]; [by inversion 1|].
  intros Hin. simpl. destruct (decide (b = a)) as [->|Hne]; [done|].
  apply IH. by apply elem_of_cons in Hin as [->|].
Qed.

Lemma index_lt (a : str) (l : list str) : a ∈ l → index a l < length l.
Proof. intros H. eapply lookup_lt_Some, index_lookup, H. Qed.

Lemma project_indices_all (requested schema : list str) :
  (∀ a, a ∈ requested → a ∈ schema) →
  project_indices requested schema = map (fun a => index a schema) requested.
Proof.
  induction requested as [|a requested IH]; intros Hall; [done|]. simpl.
  rewrite decide_True by (apply Hall; left).
  f_equal. apply IH. intros b Hb. apply Hall. by right.
Qed.

(** The loop of [project_operation] projects every tuple, then removes the
    duplicates as the loop of the set operators does. *)
Lemma project_loop_spec (indices : list nat) (ts : list (list value))
    (seen : gset (list value)) (result_tuples : list (list value)) :
  project_loop indices ts seen result_tuples =
  do ps <- mapM (fun t => mapM (getitem t) indices) ts;
  Ret (set_loop (fun _ => true) ps seen result_tuples).
Proof.
  revert seen result_tuples.
  induction ts as [|t ts IH]; intros seen result_tuples; [done|]. simpl.
  destruct (mapM (getitem t) indices) as [p|e]; [simpl|done].
  destruct (decide (p ∈ seen)) as [Hin|Hin]; rewrite IH.
  - destruct (mapM _ ts); [simpl|done].
    by rewrite bool_decide_eq_false_2 by naive_solver.
  - destruct (mapM _ ts); [simpl|done].
    by rewrite bool_decide_eq_true_2 by done.
Qed.

Lemma set_loop_all (ps : list (list value)) :
  set_loop (fun _ => true) ps ∅ [] = dedup_first ps.
Proof.
  rewrite set_loop_spec. simpl. f_equal.
  induction ps as [|t ps IH]; [done|].
  rewrite filter_cons_True by set_solver. by rewrite IH.
Qed.

(** The tuples of a projection: the projected tuples, first occurrences. *)
Lemma project_operation_ret (relations : store) (n : str) (rel : relation)
    (attrs : list str) :
  relations !! n = Some rel →
  project_operation relations n attrs =
  do ps <- mapM (fun t => mapM (getitem t)
                            (project_indices attrs (attributes rel)))
             (tuples rel);
  Ret (Some (Relation attrs (dedup_first ps))).
Proof.
  intros Hn. unfold project_operation. rewrite Hn, project_loop_spec.
  destruct (mapM _ (tuples rel)); [simpl|done]. by rewrite set_loop_all.
Qed.

Lemma mapM_ret_Forall2 {A B} (f : A -> outcome B) (l : list A)
    (l' : list B) :
  mapM f l = Ret l' ↔ Forall2 (fun x y => f x = Ret y) l l'.
Proof.
  revert l'. induction l as [|x l IH]; intros l'; simpl.
  - split; [by intros [= <-]; constructor|by inversion 1].
  - split.
    + intros (y & Hy & H)%bind_ret_inv.
      apply bind_ret_inv in H as (ys & Hys & [= <-]).
      constructor; [done|by apply IH].
    + inversion 1 as [|? y ? ys Hy Hys]; subst.
      apply IH in Hys. by rewrite Hy, Hys.
Qed.

(** Projecting a projected tuple again gives the same tuple. *)
Lemma project_tuple_again (schema attrs : list str) (t t' : list value) :
  (∀ a, a ∈ attrs → a ∈ schema) →
  mapM (getitem t) (project_indices attrs schema) = Ret t' →
  mapM (getitem t') (project_indices attrs attrs) = Ret t'.
Proof.
  intros Hall. rewrite (project_indices_all attrs schema) by done.
  rewrite (project_indices_all attrs attrs) by done.
  rewrite !mapM_getitem_ret. intros H.
  assert (∀ a, a ∈ attrs → t' !! index a attrs = t !! index a schema)
    as Hsame.
  { intros a Ha. pose proof (index_lookup a attrs Ha) as Hlk.
    eapply (Forall2_lookup_l _ _ _ (index a attrs)) in H
      as (x & Hx & Hx'); [|by rewrite list_lookup_fmap, Hlk].
    by rewrite Hx, Hx'. }
  apply Forall2_same_length_lookup. split.
  { rewrite length_map. apply Forall2_length in H.
    by rewrite length_map in H. }
  intros j i x Hi Hx.
  rewrite list_lookup_fmap in Hi.
  destruct (attrs !! j) as [a|] eqn:Ha; [|done]. injection Hi as <-.
  rewrite Hsame by (by eapply list_elem_of_lookup_2).
  eapply (Forall2_lookup_lr _ _ _ j) in H; [exact H| |exact Hx].
  by rewrite list_lookup_fmap, Ha.
Qed.

(** C8: projection is idempotent.  When every requested attribute is in
    the schema of the relation named [n], a relation returned by the
    projection onto [attrs] is returned unchanged by the projection onto
    [attrs] again, under whatever name and in whatever store it is looked
    up; and the first projection does return a relation when the tuples
    of the source have the length of its schema. *)
Theorem project_operation_idempotent (relations relations' : store)
    (n n' : str) (rel : relation) (attrs : list str) :
  relations !! n = Some rel →
  (∀ a, a ∈ attrs → a ∈ attributes rel) →
  (∀ rel', project_operation relations n attrs = Ret (Some rel') →
           relations' !! n' = Some rel' →
           project_operation relations' n' attrs = Ret (Some rel'))
  ∧ (well_formed rel →
     ∃ rel', project_operation relations n attrs = Ret (Some rel')).
Proof.
  intros Hn Hall. split.
  - intros rel' Hfirst Hn'.
    rewrite (project_operation_ret _ _ _ _ Hn) in Hfirst.
    apply bind_ret_inv in Hfirst as (ps & Hps & [= <-]).
    rewrite (project_operation_ret _ _ _ _ Hn'). simpl.
    assert (mapM (fun t => mapM (getitem t) (project_indices attrs attrs))
              (dedup_first ps) = Ret (dedup_first ps)) as ->.
    { apply mapM_ret_Forall2, Forall2_same_length_lookup. split; [done|].
      intros j t1 t2 H1 H2. assert (t1 = t2) as <- by congruence.
      assert (t1 ∈ ps) as Hin.
      { apply dedup_first_elem_of. by eapply list_elem_of_lookup_2. }
      apply mapM_ret_Forall2 in Hps.
      apply list_elem_of_lookup in Hin as (k & Hk).
      eapply Forall2_lookup_r in Hps as (t & _ & Ht); [|exact Hk].
      by eapply project_tuple_again. }
    simpl. by rewrite dedup_first_id by apply dedup_first_NoDup.
  - intros Hwf. rewrite (project_operation_ret _ _ _ _ Hn).
    assert (∃ ps, mapM (fun t => mapM (getitem t)
                     (project_indices attrs (attributes rel)))
                     (tuples rel) = Ret ps) as [ps ->]; [|by eexists].
    unfold well_formed in Hwf.
    induction Hwf as [|t ts Ht _ [ps IH]]; [by exists []|]. simpl.
    assert (∃ p, mapM (getitem t)
                   (project_indices attrs (attributes rel)) = Ret p)
      as [p ->]; [|rewrite IH; by eexists].
    rewrite project_indices_all by done. clear IH.
    induction attrs as [|a attrs IHa]; [by exists []|]. simpl.
    destruct IHa as [p Hp]; [intros b Hb; apply Hall; by right|].
    assert (index a (attributes rel) < length t) as Hlt.
    { rewrite Ht. apply index_lt, Hall. left. }
    apply lookup_lt_is_Some_2 in Hlt as [x Hx].
    unfold getitem at 1. rewrite Hx. simpl. rewrite Hp. by eexists.
Qed.

(** ** The condition evaluator *)

Lemma ascii_eqb_eq (a b : ascii) : ascii_eqb a b = true ↔ a = b.
Proof. apply Ascii.eqb_eq. Qed.

Lemma ascii_eqb_neq (a b : ascii) : ascii_eqb a b = false ↔ a ≠ b.
Proof. apply Ascii.eqb_neq. Qed.

Lemma plain_spec (s : str) :
  plain s = true ↔ ∀ c, c ∈ s → op_char c = false.
Proof.
  unfold plain. rewrite forallb_forall. split; intros H c Hc.
  - apply negb_true_iff, H. by apply list_elem_of_In.
  - apply negb_true_iff, H. by apply list_elem_of_In.
Qed.

Lemma startswith_app (sep s : str) : startswith sep (sep ++ s) = true.
Proof.
  induction sep as [|c sep IH]; [done|]. simpl.
  rewrite IH, andb_true_r. by apply ascii_eqb_eq.
Qed.

Lemma startswith_head (c : ascii) (sep s : str) (d : ascii) :
  startswith (c :: sep) (d :: s) = true → c = d.
Proof. simpl. intros [H _]%andb_true_iff. by apply ascii_eqb_eq. Qed.

Lemma contains_app (sep a v : str) : contains sep (a ++ sep ++ v) = true.
Proof.
  induction a as [|c a IH]; simpl.
  - destruct sep as [|d sep]; simpl.
    + destruct v; done.
    + replace (ascii_eqb d d) with true by (symmetry; by apply ascii_eqb_eq).
      by rewrite startswith_app.
  - rewrite IH. apply orb_true_r.
Qed.

(** A token whose first character is not in [s] does not occur in [s]. *)
Lemma contains_absent (c : ascii) (sep s : str) :
  c ∉ s → contains (c :: sep) s = false.
Proof.
  induction s as [|d s IH]; [done|].
  rewrite not_elem_of_cons. intros [Hcd Hc].
  cbn [contains]. rewrite IH by done. rewrite orb_false_r.
  apply not_true_is_false. intros H%startswith_head. done.
Qed.

(** A token does not occur in [s] either when its second character is not
    in [s]. *)
Lemma contains_absent2 (c1 c2 : ascii) (sep s : str) :
  c2 ∉ s → contains (c1 :: c2 :: sep) s = false.
Proof.
  induction s as [|d s IH]; [done|].
  rewrite not_elem_of_cons. intros [Hcd Hc].
  cbn [contains]. rewrite IH by done. rewrite orb_false_r.
  apply not_true_is_false. cbn [startswith].
  destruct s as [|e s]; [by rewrite andb_false_r|].
  intros [_ [He%ascii_eqb_eq _]%andb_true_iff]%andb_true_iff.
  apply Hc. rewrite He. left.
Qed.

Lemma split_go_skip (sep pre acc s : str) :
  split_go sep (length pre) acc (pre ++ s) = split_go sep 0 acc s.
Proof. induction pre as [|c pre IH]; [done|]. simpl. apply IH. Qed.

Lemma split_go_absent (c : ascii) (sep acc s : str) :
  c ∉ s → split_go (c :: sep) 0 acc s = [rev acc ++ s].
Proof.
  revert acc. induction s as [|d s IH]; intros acc.
  - intros _. simpl. by rewrite app_nil_r.
  - rewrite not_elem_of_cons. intros [Hcd Hc].
    cbn [split_go].
    destruct (startswith _ _) eqn:Hs; [by apply startswith_head in Hs|].
    rewrite IH by done. simpl. by rewrite <- app_assoc.
Qed.

(** Splitting [a ++ sep ++ v] on [sep], when the first character of [sep]
    occurs neither in [a] nor in [v]. *)
Lemma split_app (c : ascii) (sep a v : str) :
  c ∉ a → c ∉ v → split (c :: sep) (a ++ (c :: sep) ++ v) = [a; v].
Proof.
  intros Ha Hv. unfold split.
  assert (∀ acc, split_go (c :: sep) 0 acc (a ++ (c :: sep) ++ v)
                 = [rev acc ++ a; v]) as H; [|by rewrite H].
  induction a as [|d a IH]; intros acc.
  - cbn [app split_go].
    change (c :: sep ++ v) with ((c :: sep) ++ v).
    rewrite startswith_app. rewrite app_nil_r. f_equal.
    cbn [length]. rewrite Nat.sub_succ, Nat.sub_0_r.
    rewrite split_go_skip. by rewrite split_go_absent.
  - apply not_elem_of_cons in Ha as [Hcd Ha].
    rewrite <- app_comm_cons. cbn [split_go].
    destruct (startswith _ _) eqn:Hs; [by apply startswith_head in Hs|].
    rewrite IH by done. simpl. by rewrite <- app_assoc.
Qed.

Lemma lstrip_elem_of (p : ascii -> bool) (s : str) (c : ascii) :
  c ∈ s → p c = false → c ∈ lstrip p s.
Proof.
  induction s as [|d s IH]; [by inversion 1|].
  intros Hc Hp. simpl. destruct (p d) eqn:Hd; [|done].
  apply IH; [|done]. apply elem_of_cons in Hc as [->|]; [congruence|done].
Qed.

Lemma rstrip_elem_of (p : ascii -> bool) (s : str) (c : ascii) :
  c ∈ s → p c = false → c ∈ rstrip p s.
Proof.
  induction s as [|d s IH]; [by inversion 1|].
  intros Hc Hp. simpl.
  apply elem_of_cons in Hc as [->|Hc].
  - destruct (rstrip p s); [rewrite Hp|]; left.
  - specialize (IH Hc Hp). destruct (rstrip p s); [by inversion IH|by right].
Qed.

Lemma strip_elem_of (s : str) (c : ascii) :
  c ∈ s → is_space c = false → c ∈ strip s.
Proof.
  intros. unfold strip, strip_by.
  by apply rstrip_elem_of; [apply lstrip_elem_of|].
Qed.

Lemma evaluate_condition_loop_skip (op : str) (ops : list str)
    (condition : str) (schema : list str) (tuple_data : list value) :
  contains op condition = false →
  evaluate_condition_loop (op :: ops) condition schema tuple_data
  = evaluate_condition_loop ops condition schema tuple_data.
Proof. intros H. cbn [evaluate_condition_loop]. by rewrite H. Qed.

Lemma evaluate_condition_loop_miss (op : str) (ops : list str)
    (condition part0 part1 : str) (schema : list str)
    (tuple_data : list value) :
  split op condition = [part0; part1] →
  strip part0 ∉ schema →
  evaluate_condition_loop (op :: ops) condition schema tuple_data
  = evaluate_condition_loop ops condition schema tuple_data.
Proof.
  intros Hs Hno. cbn [evaluate_condition_loop]. rewrite Hs.
  rewrite decide_False by done. by destruct (contains op condition).
Qed.

Lemma evaluate_condition_loop_hit (op : str) (ops : list str)
    (condition part0 part1 : str) (schema : list str)
    (tuple_data : list value) :
  contains op condition = true →
  split op condition = [part0; part1] →
  strip part0 ∈ schema →
  evaluate_condition_loop (op :: ops) condition schema tuple_data
  = do tuple_value <- getitem tuple_data (index (strip part0) schema);
    match compare_values op tuple_value (coerce_literal (strip part1)) with
    | Some result => result
    | None => evaluate_condition_loop ops condition schema tuple_data
    end.
Proof.
  intros Hc Hs Hin. cbn [evaluate_condition_loop]. rewrite Hc, Hs.
  by rewrite decide_True by done.
Qed.

Section PlainCondition.

Variable schema : list str.
Variable tuple_data : list value.
Variables lhs v : str.
Hypothesis schema_names : forallb attr_name schema = true.
Hypothesis lhs_plain : plain lhs = true.
Hypothesis lhs_attribute : strip lhs ∈ schema.
Hypothesis v_plain : plain v = true.

Lemma schema_attr (b : str) : b ∈ schema → plain b = true ∧ strip b = b.
Proof using schema_names.
  intros Hb. rewrite forallb_forall in schema_names.
  apply list_elem_of_In, schema_names in Hb.
  apply andb_true_iff in Hb as [? ?%bool_decide_eq_true]. done.
Qed.

Lemma op_char_absent_lhs (c : ascii) : op_char c = true → c ∉ lhs.
Proof using lhs_plain.
  intros Hc H. rewrite plain_spec in lhs_plain.
  specialize (lhs_plain c H). rewrite Hc in lhs_plain.
  discriminate lhs_plain.
Qed.

Lemma op_char_absent_v (c : ascii) : op_char c = true → c ∉ v.
Proof using v_plain.
  intros Hc H. rewrite plain_spec in v_plain.
  specialize (v_plain c H). rewrite Hc in v_plain.
  discriminate v_plain.
Qed.

Lemma op_char_absent (c : ascii) (op : str) :
  op_char c = true → c ∉ op → c ∉ lhs ++ op ++ v.
Proof using lhs_plain v_plain.
  intros Hc Hop. rewrite !elem_of_app. intros [H|[H|H]]; [|done|].
  - by apply op_char_absent_lhs in H.
  - by apply op_char_absent_v in H.
Qed.

Lemma bang_not_attribute : strip (lhs ++ lit "!") ∉ schema.
Proof using schema_names.
  intros [Hp _]%schema_attr. rewrite plain_spec in Hp.
  assert ("!"%char ∈ strip (lhs ++ lit "!")) as Hin.
  { apply strip_elem_of; [|done]. apply elem_of_app. right. left. }
  by specialize (Hp _ Hin).
Qed.

Local Ltac skip_first :=
  rewrite evaluate_condition_loop_skip
    by (apply contains_absent, op_char_absent; [done|];
        cbv [lit list_ascii_of_string];
        rewrite !elem_of_cons, elem_of_nil; naive_solver).

Local Ltac skip_second :=
  rewrite evaluate_condition_loop_skip
    by (apply contains_absent2, op_char_absent; [done|];
        cbv [lit list_ascii_of_string];
        rewrite !elem_of_cons, elem_of_nil; naive_solver).

Local Ltac hit :=
  erewrite evaluate_condition_loop_hit;
    [ | apply contains_app
      | apply split_app;
          [by apply op_char_absent_lhs|by apply op_char_absent_v]
      | exact lhs_attribute ].

(** A condition [lhs op v] over texts without operator characters is read
    as the attribute [lhs.strip()], the operator [op] and the literal [v],
    for each of the six operators. *)
Lemma evaluate_condition_plain (op : str) :
  op ∈ operators →
  evaluate_condition (lhs ++ op ++ v) schema tuple_data
  = do tuple_value <- getitem tuple_data (index (strip lhs) schema);
    comparison_of op tuple_value (coerce_literal (strip v)).
Proof using schema_names lhs_plain lhs_attribute v_plain.
  unfold operators, evaluate_condition, operators.
  rewrite !elem_of_cons, elem_of_nil.
  intros [->|[->|[->|[->|[->|[->|[]]]]]]].
  - hit. done.
  - skip_first. hit. done.
  - skip_second. skip_first. hit. done.
  - skip_first. skip_second. skip_first. hit. done.
  - do 4 skip_first. hit. done.
  - do 4 skip_first.
    rewrite (evaluate_condition_loop_miss (lit "=") _ _
               (lhs ++ lit "!") v).
    + hit. done.
    + change (lit "!=") with (lit "!" ++ lit "=").
      rewrite <- (app_assoc (lit "!")), (app_assoc lhs).
      apply split_app; [|by apply op_char_absent_v].
      rewrite elem_of_app. intros [H|H].
      * by apply op_char_absent_lhs in H.
      * by apply list_elem_of_singleton in H.
    + apply bang_not_attribute.
Qed.

End PlainCondition.

Lemma attr_name_spec (schema : list str) (a : str) :
  forallb attr_name schema = true → a ∈ schema →
  plain a = true ∧ strip a = a.
Proof. intros Hs Ha. by apply (schema_attr schema Hs). Qed.

(** ** Stripping *)

Lemma lstrip_pad (p : ascii -> bool) (pre s : str) :
  forallb p pre = true → lstrip p (pre ++ s) = lstrip p s.
Proof.
  induction pre as [|c pre IH]; [done|]. simpl.
  intros [-> ?]%andb_true_iff. by apply IH.
Qed.

Lemma lstrip_id (p : ascii -> bool) (s : str) :
  starts_ok p s = true → lstrip p s = s.
Proof. destruct s as [|c s]; [done|]. simpl. by intros ->%negb_true_iff. Qed.

Lemma rstrip_cons_keep (p : ascii -> bool) (c : ascii) (s : str) :
  p c = false → rstrip p (c :: s) = c :: rstrip p s.
Proof. intros Hc. simpl. rewrite Hc. by destruct (rstrip p s). Qed.

Lemma rstrip_all (p : ascii -> bool) (s : str) :
  forallb p s = true → rstrip p s = [].
Proof.
  induction s as [|c s IH]; [done|]. simpl.
  intros [-> Hs]%andb_true_iff. by rewrite IH.
Qed.

Lemma rstrip_snoc_keep (p : ascii -> bool) (s : str) (c : ascii) :
  p c = false → rstrip p (s ++ [c]) = s ++ [c].
Proof.
  intros Hc. induction s as [|d s IH]; simpl; [by rewrite Hc|].
  rewrite IH. by destruct s.
Qed.

Lemma rstrip_app_keep (p : ascii -> bool) (s : str) (c : ascii)
    (suf : str) :
  p c = false → rstrip p (s ++ c :: suf) = s ++ c :: rstrip p suf.
Proof.
  intros Hc.
  induction s as [|d s IH]; [by apply rstrip_cons_keep|].
  rewrite <- !app_comm_cons. cbn [rstrip]. rewrite IH.
  by destruct s.
Qed.

Lemma rstrip_pad (p : ascii -> bool) (s suf : str) :
  forallb p suf = true → ends_ok p s = true → rstrip p (s ++ suf) = s.
Proof.
  intros Hsuf Hs. destruct s as [|c s _] using rev_ind.
  - by apply rstrip_all.
  - unfold ends_ok in Hs. rewrite rev_unit in Hs. simpl in Hs.
    apply negb_true_iff in Hs.
    rewrite <- app_assoc. simpl.
    rewrite rstrip_app_keep, rstrip_all by done. done.
Qed.

Lemma strip_by_pad (p : ascii -> bool) (pre s suf : str) :
  forallb p pre = true → forallb p suf = true →
  starts_ok p s = true → ends_ok p s = true →
  strip_by p (pre ++ s ++ suf) = s.
Proof.
  intros Hpre Hsuf Hs He. unfold strip_by. rewrite lstrip_pad by done.
  destruct s as [|c s].
  - simpl. rewrite rstrip_all; [done|].
    clear -Hsuf. induction suf as [|d suf IH]; [done|]. simpl in *.
    apply andb_true_iff in Hsuf as [Hd Hsuf]. rewrite Hd.
    by apply IH.
  - rewrite lstrip_id by done. by apply rstrip_pad.
Qed.

Lemma starts_ok_app (p : ascii -> bool) (s1 s2 : str) :
  starts_ok p s1 = true → starts_ok p s2 = true →
  starts_ok p (s1 ++ s2) = true.
Proof. by destruct s1. Qed.

Lemma ends_ok_app (p : ascii -> bool) (s1 s2 : str) :
  ends_ok p s1 = true → ends_ok p s2 = true →
  ends_ok p (s1 ++ s2) = true.
Proof. unfold ends_ok. rewrite rev_app_distr. intros. by apply starts_ok_app. Qed.

Lemma starts_ok_replicate (p : ascii -> bool) (n : nat) (c : ascii) :
  p c = false → starts_ok p (replicate n c) = true.
Proof. intros Hc. destruct n; simpl; [done|by rewrite Hc]. Qed.

Lemma ends_ok_replicate (p : ascii -> bool) (n : nat) (c : ascii) :
  p c = false → ends_ok p (replicate n c) = true.
Proof.
  intros Hc. unfold ends_ok.
  replace (rev (replicate n c)) with (replicate n c);
    [by apply starts_ok_replicate|].
  induction n as [|n IH]; [done|]. simpl. rewrite <- IH.
  clear IH. induction n as [|n IH]; [done|]. simpl. by rewrite <- IH.
Qed.

Lemma forallb_replicate (p : ascii -> bool) (n : nat) (c : ascii) :
  p c = true → forallb p (replicate n c) = true.
Proof. intros Hc. induction n; simpl; [done|]. by rewrite Hc. Qed.

(** ** Values of a tuple line *)

(** C9 as stated fails: all the layers of quotes are removed. *)
Lemma convert_value_counterexample :
  convert_value ([dquote; dquote] ++ lit "x" ++ [dquote; dquote])
  = Text (lit "x")
  ∧ ¬ keeps_inner_layer (lit "x").
Proof. split; [by vm_compute|]. intros H. vm_compute in H. discriminate H. Qed.

(** ** The invariant of the data model *)

Lemma filterM_ret_Forall {A} (f : A -> outcome bool) (P : A -> Prop)
    (l l' : list A) :
  filterM f l = Ret l' → Forall P l → Forall P l'.
Proof.
  revert l'. induction l as [|x l IH]; intros l'; simpl.
  - by intros [= <-].
  - intros (b & _ & H)%bind_ret_inv.
    apply bind_ret_inv in H as (ys & Hys & [= <-]).
    intros [Hx Hl]%Forall_cons. specialize (IH _ Hys Hl).
    destruct b; [by constructor|done].
Qed.

Lemma select_operation_well_formed (relations : store) (n condition : str)
    (rel rel' : relation) :
  relations !! n = Some rel →
  well_formed rel →
  select_operation relations n condition = Ret (Some rel') →
  well_formed rel'.
Proof.
  intros Hn Hwf. unfold select_operation. rewrite Hn.
  intros (ts & Hts & [= <-])%bind_ret_inv.
  unfold well_formed in *. simpl. by eapply filterM_ret_Forall.
Qed.

Lemma project_operation_lengths (relations : store) (n : str)
    (attrs : list str) (rel rel' : relation) :
  relations !! n = Some rel →
  project_operation relations n attrs = Ret (Some rel') →
  attributes rel' = attrs
  ∧ Forall (fun t => length t
                     = length (project_indices attrs (attributes rel)))
      (tuples rel').
Proof.
  intros Hn. rewrite (project_operation_ret _ _ _ _ Hn).
  intros (ps & Hps & [= <-])%bind_ret_inv. split; [done|]. simpl.
  apply Forall_forall. intros t Ht. rewrite dedup_first_elem_of in Ht.
  apply mapM_ret_Forall2 in Hps.
  apply list_elem_of_lookup in Ht as (k & Hk).
  eapply Forall2_lookup_r in Hps as (t0 & _ & Ht0); [|exact Hk].
  apply mapM_getitem_ret, Forall2_length in Ht0. done.
Qed.

Lemma project_operation_well_formed (relations : store) (n : str)
    (attrs : list str) (rel rel' : relation) :
  relations !! n = Some rel →
  (∀ a, a ∈ attrs → a ∈ attributes rel) →
  project_operation relations n attrs = Ret (Some rel') →
  well_formed rel'.
Proof.
  intros Hn Hall H.
  destruct (project_operation_lengths _ _ _ _ _ Hn H) as [Ha Hl].
  unfold well_formed. rewrite Ha.
  rewrite project_indices_all, length_map in Hl by done. done.
Qed.

Lemma set_loop_subset (keep : list value -> bool) (ts : list (list value))
    (t : list value) :
  t ∈ set_loop keep ts ∅ [] → t ∈ ts.
Proof.
  rewrite set_loop_spec. simpl.
  rewrite dedup_first_elem_of, list_elem_of_filter. naive_solver.
Qed.

Lemma set_operations_well_formed (relations : store) (n1 n2 : str)
    (rel1 rel2 rel' : relation) :
  relations !! n1 = Some rel1 →
  relations !! n2 = Some rel2 →
  well_formed rel1 →
  well_formed rel2 →
  union_operation relations n1 n2 = Some rel'
  ∨ intersection_operation relations n1 n2 = Some rel'
  ∨ difference_operation relations n1 n2 = Some rel' →
  well_formed rel'.
Proof.
  intros H1 H2 Hwf1 Hwf2.
  unfold union_operation, intersection_operation, difference_operation.
  rewrite H1, H2.
  destruct (decide (attributes rel1 ≠ attributes rel2)) as [|Heq];
    [naive_solver|].
  apply dec_stable in Heq.
  unfold well_formed in *. rewrite <- Heq in Hwf2.
  intros [[= <-]|[[= <-]|[= <-]]]; simpl;
    apply Forall_forall; intros t Ht%set_loop_subset.
  - apply elem_of_app in Ht as [Ht|Ht];
      [eapply Forall_forall in Hwf1|eapply Forall_forall in Hwf2]; done.
  - eapply Forall_forall in Hwf1; done.
  - eapply Forall_forall in Hwf1; done.
Qed.

Lemma join_extra_length (attrs1 attrs2 : list str) (i : nat)
    (tuple2 extra : list value) :
  join_extra attrs1 attrs2 i tuple2 = Ret extra →
  length extra = length (filter (fun a => a ∉ attrs1) attrs2).
Proof.
  revert i extra. induction attrs2 as [|a attrs2 IH]; intros i extra; simpl.
  - by intros [= <-].
  - rewrite filter_cons. destruct (decide (a ∉ attrs1)).
    + intros (x & _ & H)%bind_ret_inv.
      apply bind_ret_inv in H as (xs & Hxs & [= <-]).
      simpl. f_equal. by eapply IH.
    + apply IH.
Qed.

Lemma join_attrs_length (result_attrs attrs2 : list str) :
  NoDup attrs2 →
  length (join_attrs result_attrs attrs2)
  = length result_attrs
    + length (filter (fun a => a ∉ result_attrs) attrs2).
Proof.
  intros Hnd. revert result_attrs.
  induction Hnd as [|a attrs2 Ha _ IH]; intros result_attrs; simpl.
  - lia.
  - rewrite filter_cons. destruct (decide (a ∉ result_attrs)) as [Hno|Hin].
    + rewrite IH, length_app. simpl.
      replace (filter (fun b => b ∉ result_attrs ++ [a]) attrs2)
        with (filter (fun b => b ∉ result_attrs) attrs2); [lia|].
      clear IH. induction attrs2 as [|b attrs2 IHb]; [done|].
      apply not_elem_of_cons in Ha as [Hab Ha].
      rewrite !filter_cons, IHb by done.
      destruct (decide (b ∉ result_attrs)) as [Hb|Hb].
      * rewrite decide_True; [done|].
        rewrite elem_of_app, list_elem_of_singleton. naive_solver.
      * rewrite decide_False; [done|].
        rewrite elem_of_app. naive_solver.
    + apply IH.
Qed.

Lemma join_inner_lengths (attrs1 attrs2 common : list str)
    (tuple1 : list value) (tuples2 out : list (list value)) :
  join_inner attrs1 attrs2 common tuple1 tuples2 = Ret out →
  Forall (fun t => length t
                   = length tuple1
                     + length (filter (fun a => a ∉ attrs1) attrs2)) out.
Proof.
  revert out. induction tuples2 as [|tuple2 tuples2 IH]; intros out; simpl.
  - by intros [= <-].
  - intros (valid & _ & H)%bind_ret_inv.
    apply bind_ret_inv in H as (here & Hhere & H).
    apply bind_ret_inv in H as (rest & Hrest & [= <-]).
    apply Forall_app. split; [|by apply IH].
    destruct valid; [|injection Hhere as <-; constructor].
    apply bind_ret_inv in Hhere as (extra & Hextra & [= <-]).
    apply join_extra_length in Hextra.
    repeat constructor. rewrite length_app. lia.
Qed.

Lemma join_outer_lengths (attrs1 attrs2 common : list str)
    (tuples1 tuples2 out : list (list value)) (n : nat) :
  Forall (fun t => length t = n) tuples1 →
  join_outer attrs1 attrs2 common tuples1 tuples2 = Ret out →
  Forall (fun t => length t
                   = n + length (filter (fun a => a ∉ attrs1) attrs2)) out.
Proof.
  intros Hall. revert out.
  induction Hall as [|tuple1 tuples1 H1 _ IH]; intros out; simpl.
  - by intros [= <-].
  - intros (here & Hhere & H)%bind_ret_inv.
    apply bind_ret_inv in H as (rest & Hrest & [= <-]).
    apply Forall_app. split; [|by apply IH].
    apply join_inner_lengths in Hhere. by rewrite H1 in Hhere.
Qed.

(** [parse_lines] stores one value for each comma-separated value. *)
Lemma parse_lines_lengths (lines : list str) :
  map length (parse_lines lines) = map field_count (tuple_lines lines).
Proof.
  unfold tuple_lines.
  induction lines as [|l lines IH]; [done|]. simpl.
  rewrite filter_cons. destruct (is_tuple_line (strip l)); simpl.
  - rewrite length_map. by f_equal.
  - done.
Qed.

Lemma parse_lines_well_formed (attrs : list str) (lines : list str) :
  well_formed (Relation attrs (parse_lines lines))
  ↔ Forall (fun l => field_count l = length attrs) (tuple_lines lines).
Proof.
  unfold well_formed, tuple_lines. simpl.
  induction lines as [|l lines IH]; [done|]. simpl.
  rewrite filter_cons. destruct (is_tuple_line (strip l)); simpl; [|done].
  rewrite !Forall_cons, IH, length_map. done.
Qed.

Section ProcessorProperties.

Variable set_iter : gset str -> list str.

Lemma join_operation_well_formed (relations : store) (n1 n2 : str)
    (condition : option str) (rel1 rel2 rel' : relation) :
  relations !! n1 = Some rel1 →
  relations !! n2 = Some rel2 →
  well_formed rel1 →
  NoDup (attributes rel2) →
  join_operation set_iter relations n1 n2 condition = Ret (Some rel') →
  well_formed rel'.
Proof.
  intros H1 H2 Hwf Hnd. unfold join_operation. rewrite H1, H2.
  intros (ts & Hts & [= <-])%bind_ret_inv.
  unfold well_formed in *. simpl.
  rewrite join_attrs_length by done.
  by eapply join_outer_lengths.
Qed.

(** C1, amended: a relation returned by select, join, union, intersection
    or difference has tuples of the length of its schema when the operand
    relations have (for join, when also the second schema has no repeated
    name); one returned by project has when every requested attribute is
    in the source schema, and in general its tuples have one value for
    each requested attribute that is found; the relation stored by the
    definition parser has one value for each comma-separated value of a
    tuple line, so it satisfies the invariant exactly when every tuple line
    has as many values as the header has attributes. *)
Theorem operations_well_formed (relations : store) :
  (∀ n condition rel rel',
     relations !! n = Some rel → well_formed rel →
     select_operation relations n condition = Ret (Some rel') →
     well_formed rel')
  ∧ (∀ n attrs rel rel',
       relations !! n = Some rel →
       project_operation relations n attrs = Ret (Some rel') →
       attributes rel' = attrs
       ∧ Forall (fun t => length t
                   = length (project_indices attrs (attributes rel)))
           (tuples rel')
       ∧ ((∀ a, a ∈ attrs → a ∈ attributes rel) → well_formed rel'))
  ∧ (∀ n1 n2 condition rel1 rel2 rel',
       relations !! n1 = Some rel1 → relations !! n2 = Some rel2 →
       well_formed rel1 → NoDup (attributes rel2) →
       join_operation set_iter relations n1 n2 condition = Ret (Some rel') →
       well_formed rel')
  ∧ (∀ n1 n2 rel1 rel2 rel',
       relations !! n1 = Some rel1 → relations !! n2 = Some rel2 →
       well_formed rel1 → well_formed rel2 →
       union_operation relations n1 n2 = Some rel'
       ∨ intersection_operation relations n1 n2 = Some rel'
       ∨ difference_operation relations n1 n2 = Some rel' →
       well_formed rel')
  ∧ (∀ text header_match start end_,
       re_match header_re text = Some header_match →
       find "{" text = Some start → rfind "}" text = Some end_ →
       ∃ rel,
         parse_relation relations text !! group header_match 1 = Some rel
         ∧ attributes rel
           = map strip (split (lit ",") (group header_match 2))
         ∧ map length (tuples rel)
           = map field_count (tuple_lines (body_lines text start end_))
         ∧ (well_formed rel
            ↔ Forall (fun l => field_count l = length (attributes rel))
                (tuple_lines (body_lines text start end_)))).
Proof.
  split_and!.
  - intros. by eapply select_operation_well_formed.
  - intros n attrs rel rel' Hn H.
    destruct (project_operation_lengths _ _ _ _ _ Hn H) as [Ha Hl].
    split_and!; [done|done|].
    intros Hall. by eapply project_operation_well_formed.
  - intros n1 n2 condition rel1 rel2 rel' H1 H2 Hwf Hnd H.
    exact (join_operation_well_formed _ _ _ _ _ _ _ H1 H2 Hwf Hnd H).
  - intros n1 n2 rel1 rel2 rel' H1 H2 Hwf1 Hwf2 H.
    exact (set_operations_well_formed _ _ _ _ _ _ H1 H2 Hwf1 Hwf2 H).
  - intros text header_match start end_ Hm Hs He.
    unfold parse_relation. rewrite Hm, Hs, He.
    eexists. split; [apply lookup_insert_eq|]. simpl.
    split_and!; [done|apply parse_lines_lengths|].
    apply parse_lines_well_formed.
Qed.

End ProcessorProperties.

(** C1 as stated fails: projecting onto a name that is not in the schema
    gives a schema of two names over tuples of one value, and a tuple line
    of three values is stored under a header of two attributes. *)
Lemma operations_well_formed_counterexample :
  (∃ rel',
     project_operation
       (<[lit "R" := Relation [lit "a"] [[Integer 1]]]> ∅)
       (lit "R") [lit "a"; lit "z"] = Ret (Some rel')
     ∧ ¬ well_formed rel')
  ∧ (∃ rel',
       parse_relation ∅ (lit "R (a, b) = { 1, 2, 3 }") !! lit "R"
       = Some rel'
       ∧ ¬ well_formed rel').
Proof.
  split.
  - exists (Relation [lit "a"; lit "z"] [[Integer 1]]).
    split; [by vm_compute|].
    intros H. apply Forall_cons in H as [H _]. discriminate H.
  - exists (Relation [lit "a"; lit "b"] [[Integer 1; Integer 2; Integer 3]]).
    split; [by vm_compute|].
    intros H. apply Forall_cons in H as [H _]. discriminate H.
Qed.

(** ** The matcher *)

Lemma or_else_Some {R} (a b : option R) (x : R) :
  or_else a b = Some x → a = Some x ∨ b = Some x.
Proof. destruct a; naive_solver. Qed.

Lemma min_ok_Some {R} (min : nat) (now : option R) (x : R) :
  min_ok min now = Some x → min = 0 ∧ now = Some x.
Proof. by destruct min. Qed.

(** A successful repetition consumed at least [min] characters of the
    class and the rest of the pattern matched what follows. *)
Lemma rep_greedy_inv {R} (p : ascii -> bool) (min : nat) (s : str)
    (k : str -> option R) (x : R) :
  rep_greedy p min s k = Some x →
  ∃ pre s', s = pre ++ s' ∧ min ≤ length pre ∧ forallb p pre = true
            ∧ k s' = Some x.
Proof.
  revert min. induction s as [|c s IH]; intros min; simpl.
  - intros [-> H]%min_ok_Some. by exists [], [].
  - destruct (p c) eqn:Hc.
    + intros [H|[-> H]%min_ok_Some]%or_else_Some.
      * apply IH in H as (pre & s' & -> & Hmin & Hpre & H).
        exists (c :: pre), s'. simpl. rewrite Hc.
        split_and!; [done|lia|done|done].
      * by exists [], (c :: s).
    + intros [-> H]%min_ok_Some. by exists [], (c :: s).
Qed.

Lemma rep_lazy_inv {R} (p : ascii -> bool) (min : nat) (s : str)
    (k : str -> option R) (x : R) :
  rep_lazy p min s k = Some x →
  ∃ pre s', s = pre ++ s' ∧ min ≤ length pre ∧ forallb p pre = true
            ∧ k s' = Some x.
Proof.
  revert min. induction s as [|c s IH]; intros min; simpl.
  - intros [-> H]%min_ok_Some. by exists [], [].
  - destruct (p c) eqn:Hc.
    + intros [[-> H]%min_ok_Some|H]%or_else_Some.
      * by exists [], (c :: s).
      * apply IH in H as (pre & s' & -> & Hmin & Hpre & H).
        exists (c :: pre), s'. simpl. rewrite Hc.
        split_and!; [done|lia|done|done].
    + intros [-> H]%min_ok_Some. by exists [], (c :: s).
Qed.

(** A successful match of [r] consumed a prefix [pre] of the input,
    captured groups within it, and the continuation matched the rest. *)
Lemma rmatch_inv (whole : str) (r : regex) (s : str) (c : caps)
    (k : str -> caps -> option caps) (c' : caps) :
  rmatch whole r s c k = Some c' →
  ∃ pre s' new, s = pre ++ s' ∧ within (length pre) new
                ∧ k s' (new ++ c) = Some c'.
Proof.
  revert s c k. induction r as [|p|greedy min p|r1 IH1 r2 IH2|i r IH| |];
    intros s c k; simpl.
  - intros H. exists [], s, []. by split_and!; [|constructor|].
  - destruct s as [|a s]; [done|]. destruct (p a); [|done].
    intros H. exists [a], s, []. by split_and!; [|constructor|].
  - destruct greedy.
    + intros (pre & s' & -> & _ & _ & H)%rep_greedy_inv.
      exists pre, s', []. by split_and!; [|constructor|].
    + intros (pre & s' & -> & _ & _ & H)%rep_lazy_inv.
      exists pre, s', []. by split_and!; [|constructor|].
  - intros (pre1 & s1 & new1 & -> & Hw1 & H)%IH1.
    apply IH2 in H as (pre2 & s2 & new2 & -> & Hw2 & H).
    exists (pre1 ++ pre2), s2, (new2 ++ new1).
    split_and!; [by rewrite app_assoc| |by rewrite <- app_assoc].
    unfold within in *. rewrite length_app. apply Forall_app. split.
    + eapply Forall_impl; [exact Hw2|]. intros [j t] Ht. simpl in *. lia.
    + eapply Forall_impl; [exact Hw1|]. intros [j t] Ht. simpl in *. lia.
  - intros (pre & s' & new & -> & Hw & H)%IH.
    exists pre, s', ((i, take (length (pre ++ s') - length s') (pre ++ s'))
                     :: new).
    split_and!; [done| |done].
    constructor; [|done]. simpl. rewrite length_take, length_app. lia.
  - destruct (length s =? length whole)%nat; [|done].
    intros H. exists [], s, []. by split_and!; [|constructor|].
  - destruct s as [|a [|b s]]; [| |done].
    + intros H. exists [], [], []. by split_and!; [|constructor|].
    + destruct (ascii_eqb a newline); [|done].
      intros H. exists [], [a], []. by split_and!; [|constructor|].
Qed.

Lemma group_within (n : nat) (m : caps) (i : nat) :
  within n m → length (group m i) ≤ n.
Proof.
  induction 1 as [|[j t] m Ht _ IH]; simpl; [lia|].
  by destruct (j =? i)%nat.
Qed.

Lemma seqs_cons (r : regex) (rs : list regex) :
  seqs (r :: rs) = Seq r (seqs rs).
Proof. done. Qed.

Lemma rmatch_seq (whole : str) (r1 r2 : regex) (s : str) (c : caps)
    (k : str -> caps -> option caps) :
  rmatch whole (Seq r1 r2) s c k
  = rmatch whole r1 s c (fun s' c' => rmatch whole r2 s' c' k).
Proof. done. Qed.

Lemma rmatch_rep_inv (whole : str) (greedy : bool) (min : nat)
    (p : ascii -> bool) (s : str) (c : caps)
    (k : str -> caps -> option caps) (c' : caps) :
  rmatch whole (Rep greedy min p) s c k = Some c' →
  ∃ pre s', s = pre ++ s' ∧ min ≤ length pre ∧ forallb p pre = true
            ∧ k s' c = Some c'.
Proof.
  cbn [rmatch]. destruct greedy; [apply rep_greedy_inv|apply rep_lazy_inv].
Qed.

Lemma rmatch_chr_inv (whole : str) (p : ascii -> bool) (s : str) (c : caps)
    (k : str -> caps -> option caps) (c' : caps) :
  rmatch whole (Chr p) s c k = Some c' →
  ∃ a s', s = a :: s' ∧ p a = true ∧ k s' c = Some c'.
Proof.
  cbn [rmatch]. destruct s as [|a s]; [done|].
  destruct (p a) eqn:Ha; [|done]. intros H. by exists a, s.
Qed.

(** The groups of a match of [keyword\s+(.+?)\s*\(\s*(.+)\s*\)] are
    shorter than the text, and the text has an opening parenthesis. *)
Lemma nested_re_match (keyword s : str) (m : caps) :
  re_match (nested_re keyword) s = Some m →
  (∀ i, length (group m i) < length s) ∧ "("%char ∈ s.
Proof.
  unfold re_match, nested_re. rewrite !seqs_cons.
  generalize (seqs []). intros tail.
  rewrite rmatch_seq.
  intros (pre0 & s0 & new0 & -> & Hw0 & H)%rmatch_inv.
  rewrite rmatch_seq in H.
  apply rmatch_rep_inv in H as (pre1 & s1 & -> & Hmin & _ & H).
  rewrite rmatch_seq in H.
  apply rmatch_inv in H as (pre2 & s2 & new2 & -> & Hw2 & H).
  rewrite rmatch_seq in H.
  apply rmatch_rep_inv in H as (pre3 & s3 & -> & _ & _ & H).
  rewrite rmatch_seq in H.
  apply rmatch_chr_inv in H as (a & s4 & -> & Ha & H).
  apply ascii_eqb_eq in Ha as ->.
  split.
  2:{ rewrite !elem_of_app. do 4 right. left. }
  apply rmatch_inv in H as (pre5 & s5 & new5 & -> & Hw5 & [= <-]).
  intros i. rewrite !length_app. simpl. rewrite !length_app.
  apply Nat.le_lt_trans with
    (length pre0 + length pre2 + length pre5); [|lia].
  apply group_within. unfold within in *.
  rewrite app_nil_r.
  repeat (apply Forall_app; split);
    (eapply Forall_impl; [eassumption|intros [j t] Ht; simpl in *; lia]).
Qed.

Lemma lstrip_length (p : ascii -> bool) (s : str) :
  length (lstrip p s) ≤ length s.
Proof.
  induction s as [|c s IH]; simpl; [done|]. destruct (p c); simpl; lia.
Qed.

Lemma rstrip_length (p : ascii -> bool) (s : str) :
  length (rstrip p s) ≤ length s.
Proof.
  induction s as [|c s IH]; simpl; [done|].
  destruct (rstrip p s); [destruct (p c)|]; simpl in *; lia.
Qed.

Lemma strip_length (s : str) : length (strip s) ≤ length s.
Proof.
  unfold strip, strip_by.
  etrans; [apply rstrip_length|apply lstrip_length].
Qed.

(** ** The query parser and the executor *)

Section QueryProperties.

Variable set_iter : gset str -> list str.

(** [nested_rule] yields an answer when the nested evaluation and the
    rest of the parser do. *)
Lemma nested_rule_is_Some (recurse : store -> str -> option answer)
    (keyword : str)
    (operation : str -> store -> str -> outcome (option relation))
    (otherwise : store -> option answer) (relations : store) (query : str) :
  (∀ m rels, re_match (nested_re keyword) query = Some m →
             is_Some (recurse rels (strip (group m 2)))) →
  (∀ rels, is_Some (otherwise rels)) →
  is_Some (nested_rule recurse keyword operation otherwise relations query).
Proof.
  intros Hrec Hoth. unfold nested_rule.
  destruct (re_match (nested_re keyword) query) as [m|] eqn:Hm; [|done].
  case_bool_decide; [done|].
  by destruct (Hrec m relations eq_refl) as [[rels' [[r|]|e]] ->].
Qed.

(** The recursion of [parse_query] ends: with more fuel than the query has
    characters, the bound is not reached. *)
Lemma parse_query_fuel_enough (fuel : nat) (relations : store)
    (query : str) :
  length query < fuel →
  is_Some (parse_query_fuel set_iter fuel relations query).
Proof.
  revert relations query.
  induction fuel as [|fuel IH]; intros relations query Hlen; [lia|].
  cbn [parse_query_fuel].
  assert (∀ keyword m rels,
            re_match (nested_re keyword) (strip query) = Some m →
            is_Some (parse_query_fuel set_iter fuel rels
                       (strip (group m 2)))) as Hrec.
  { intros keyword m rels Hm. apply IH.
    apply nested_re_match in Hm as [Hm _]. specialize (Hm 2).
    pose proof (strip_length (group m 2)).
    pose proof (strip_length query). lia. }
  apply nested_rule_is_Some; [by eauto|].
  intros rels. apply nested_rule_is_Some; [by eauto|done].
Qed.

Lemma parse_query_total (relations : store) (query : str) :
  is_Some (parse_query set_iter relations query).
Proof. apply parse_query_fuel_enough. lia. Qed.

(** Without a prior entry under the reserved name, [execute_on_result]
    restores the store when the operation returns. *)
Lemma execute_on_result_store (relations relations' : store)
    (operation_result : option relation)
    (operation_func : store -> str -> outcome (option relation))
    (result : option relation) :
  relations !! temp_name = None →
  execute_on_result relations operation_result operation_func
  = (relations', Ret result) →
  relations' = relations.
Proof.
  intros Hfree. unfold execute_on_result.
  destruct operation_result as [staged|]; [|by intros [= <-]].
  destruct (operation_func _ _); [|done].
  intros [= <- _]. by apply delete_insert_id.
Qed.

Lemma nested_rule_store (recurse : store -> str -> option answer)
    (keyword : str)
    (operation : str -> store -> str -> outcome (option relation))
    (otherwise : store -> option answer) (relations relations' : store)
    (query : str) (result : option relation) :
  (∀ rels q rels' r, rels !! temp_name = None →
     recurse rels q = Some (rels', Ret r) → rels' = rels) →
  (∀ rels rels' r, rels !! temp_name = None →
     otherwise rels = Some (rels', Ret r) → rels' = rels) →
  relations !! temp_name = None →
  nested_rule recurse keyword operation otherwise relations query
  = Some (relations', Ret result) →
  relations' = relations.
Proof.
  intros Hrec Hoth Hfree. unfold nested_rule.
  destruct (re_match (nested_re keyword) query) as [m|]; [|by eauto].
  case_bool_decide; [by intros [= <- _]|].
  destruct (recurse relations _) as [[rels1 [[r|]|e]]|] eqn:Hr; [| | |done].
  - apply Hrec in Hr as ->; [|done].
    intros [= Hexec].
    exact (execute_on_result_store relations relations' (Some r)
             (operation (strip (group m 1))) result Hfree Hexec).
  - apply Hrec in Hr as ->; [|done]. by eauto.
  - done.
Qed.

Lemma parse_query_fuel_store (fuel : nat) (relations relations' : store)
    (query : str) (result : option relation) :
  relations !! temp_name = None →
  parse_query_fuel set_iter fuel relations query
  = Some (relations', Ret result) →
  relations' = relations.
Proof.
  revert relations relations' query result.
  induction fuel as [|fuel IH]; intros relations relations' query result;
    [done|].
  cbn [parse_query_fuel]. intros Hfree.
  apply nested_rule_store; [by eauto| |done].
  intros rels rels' r Hrels.
  apply nested_rule_store; [by eauto| |done].
  by intros rels1 rels1' r1 _ [= <- _].
Qed.

(** C4, amended: when the store has no entry under the reserved name
    [temp_result], every query is evaluated to an answer, and if the
    evaluation does not raise, whether it yields a relation or the failure
    value, the store after the call is the store before it.  In any store,
    a call of [execute_on_result] that returns leaves the store without an
    entry under the reserved name and otherwise as it was. *)
Theorem parse_query_store_unchanged (relations : store) (query : str) :
  (relations !! temp_name = None →
   ∃ relations' outcome,
     parse_query set_iter relations query = Some (relations', outcome)
     ∧ (∀ result, outcome = Ret result → relations' = relations))
  ∧ (∀ staged operation_func relations' result,
       execute_on_result relations (Some staged) operation_func
       = (relations', Ret result) →
       relations' = delete temp_name relations).
Proof.
  split.
  - intros Hfree.
    destruct (parse_query_total relations query)
      as [[relations' outcome] H].
    exists relations', outcome. split; [done|].
    intros result ->. by eapply parse_query_fuel_store.
  - intros staged operation_func relations' result.
    unfold execute_on_result. destruct (operation_func _ _); [|done].
    intros [= <- _]. apply delete_insert_eq.
Qed.

Lemma lstrip_subseteq (p : ascii -> bool) (s : str) (c : ascii) :
  c ∈ lstrip p s → c ∈ s.
Proof.
  induction s as [|d s IH]; [done|]. simpl.
  destruct (p d); [|done]. intros H. right. by apply IH.
Qed.

Lemma rstrip_subseteq (p : ascii -> bool) (s : str) (c : ascii) :
  c ∈ rstrip p s → c ∈ s.
Proof.
  induction s as [|d s IH]; [done|]. simpl.
  destruct (rstrip p s) as [|e r].
  - destruct (p d); [by inversion 1|].
    intros ->%list_elem_of_singleton. left.
  - intros [->|H]%elem_of_cons; [left|right; by apply IH].
Qed.

Lemma strip_subseteq (s : str) (c : ascii) : c ∈ strip s → c ∈ s.
Proof. intros H%rstrip_subseteq. by apply lstrip_subseteq in H. Qed.

(** A text without an opening parenthesis matches neither of the two
    nested rules. *)
Lemma nested_re_no_paren (keyword s : str) :
  "("%char ∉ s → re_match (nested_re keyword) s = None.
Proof.
  intros Hno. destruct (re_match (nested_re keyword) s) as [m|] eqn:Hm;
    [|done].
  by apply nested_re_match in Hm as [_ ?].
Qed.

Lemma nested_rule_no_match (recurse : store -> str -> option answer)
    (keyword : str)
    (operation : str -> store -> str -> outcome (option relation))
    (otherwise : store -> option answer) (relations : store) (query : str) :
  re_match (nested_re keyword) query = None →
  nested_rule recurse keyword operation otherwise relations query
  = otherwise relations.
Proof. intros H. unfold nested_rule. by rewrite H. Qed.

(** The stripped text of a query that begins with a character that is not
    whitespace begins with that character. *)
Lemma strip_cons_keep (c : ascii) (s : str) :
  is_space c = false → strip (c :: s) = c :: rstrip is_space s.
Proof.
  intros Hc. unfold strip, strip_by. simpl. rewrite Hc.
  by apply rstrip_cons_keep.
Qed.

(** A query without an opening parenthesis that begins with [s] or [p]
    matches no rule. *)
Lemma parse_query_no_paren (relations : store) (c : ascii) (rest : str) :
  c = "s"%char ∨ c = "p"%char →
  "("%char ∉ c :: rest →
  parse_query set_iter relations (c :: rest) = Some (relations, Ret None).
Proof.
  intros Hc Hno. unfold parse_query. cbn [parse_query_fuel].
  assert ("("%char ∉ strip (c :: rest)) as Hno'.
  { intros H. by apply strip_subseteq in H. }
  rewrite !nested_rule_no_match by (by apply nested_re_no_paren).
  rewrite strip_cons_keep by (by destruct Hc as [->| ->]).
  by destruct Hc as [->| ->].
Qed.

End QueryProperties.

(** ** Matching the parenthesized forms *)

Lemma rmatch_Str (whole keyword rest : str) (c : caps)
    (k : str -> caps -> option caps) :
  rmatch whole (Str keyword) (keyword ++ rest) c k = k rest c.
Proof.
  induction keyword as [|a keyword IH]; [done|].
  cbn [Str app]. rewrite rmatch_seq. cbn [rmatch].
  replace (ascii_eqb a a) with true by (symmetry; by apply ascii_eqb_eq).
  apply IH.
Qed.

Lemma rep_lazy_now {R} (p : ascii -> bool) (s : str)
    (k : str -> option R) (x : R) :
  k s = Some x → rep_lazy p 0 s k = Some x.
Proof. intros H. destruct s as [|c s]; simpl; [|destruct (p c)]; by rewrite H. Qed.

(** A lazy repetition stops at the first place where the rest matches. *)
Lemma rep_lazy_first {R} (p : ascii -> bool) (pre s' : str)
    (k : str -> option R) (x : R) :
  forallb p pre = true →
  pre ≠ [] →
  (∀ u1 u2, pre = u1 ++ u2 → u1 ≠ [] → u2 ≠ [] → k (u2 ++ s') = None) →
  k s' = Some x →
  rep_lazy p 1 (pre ++ s') k = Some x.
Proof.
  intros Hp Hne Hfail Hk. destruct pre as [|c pre]; [done|].
  simpl in Hp. apply andb_true_iff in Hp as [Hc Hp].
  simpl. rewrite Hc. simpl.
  assert (∀ u2, (∃ u1, c :: pre = (c :: u1) ++ u2) → u2 ≠ [] →
                k (u2 ++ s') = None) as Hfail'.
  { intros u2 [u1 Hu] Hu2. by eapply (Hfail (c :: u1) u2). }
  clear Hfail Hne Hc.
  assert (∀ done_, c :: pre = (c :: done_) ++ pre →
                   rep_lazy p 0 (pre ++ s') k = Some x) as Hgo;
    [|by apply (Hgo [])].
  revert Hp Hfail'. generalize (c :: pre) as all. intros all.
  induction pre as [|d pre IH]; intros Hp Hfail' done_ Hall.
  - by apply rep_lazy_now.
  - simpl in Hp. apply andb_true_iff in Hp as [Hd Hp].
    assert (k ((d :: pre) ++ s') = None) as Hnone.
    { apply Hfail'; [by exists done_|done]. }
    simpl in Hnone |- *. rewrite Hd, Hnone. simpl.
    apply (IH Hp Hfail' (done_ ++ [d])).
    rewrite Hall. simpl. by rewrite <- app_assoc.
Qed.

(** A greedy repetition takes the whole run when the rest matches after
    it. *)
Lemma rep_greedy_max {R} (p : ascii -> bool) (min : nat) (pre s' : str)
    (k : str -> option R) (x : R) :
  forallb p pre = true →
  starts_ok p s' = true →
  min ≤ length pre →
  k s' = Some x →
  rep_greedy p min (pre ++ s') k = Some x.
Proof.
  intros Hp Hs Hmin Hk. revert min Hmin.
  induction pre as [|c pre IH]; intros min Hmin.
  - simpl in Hmin. assert (min = 0) as -> by lia. simpl.
    destruct s' as [|c s']; simpl; [done|].
    simpl in Hs. apply negb_true_iff in Hs. by rewrite Hs.
  - simpl in Hp. apply andb_true_iff in Hp as [Hc Hp].
    simpl. rewrite Hc. rewrite IH; [done|done|simpl in Hmin; lia].
Qed.

(** A greedy repetition over the whole text gives back its last
    character when the rest needs it. *)
Lemma rep_greedy_back {R} (p : ascii -> bool) (min : nat) (pre : str)
    (c : ascii) (k : str -> option R) (x : R) :
  forallb p pre = true →
  p c = true →
  min ≤ length pre →
  k [] = None →
  k [c] = Some x →
  rep_greedy p min (pre ++ [c]) k = Some x.
Proof.
  intros Hp Hc Hmin Hnil Hk. revert min Hmin.
  induction pre as [|d pre IH]; intros min Hmin.
  - simpl in Hmin. assert (min = 0) as -> by lia.
    simpl. by rewrite Hc, Hnil.
  - simpl in Hp. apply andb_true_iff in Hp as [Hd Hp].
    simpl. rewrite Hd. rewrite IH; [done|done|simpl in Hmin; lia].
Qed.

Lemma ends_ok_all (p : ascii -> bool) (u : str) :
  forallb p u = true → ends_ok p u = true → u = [].
Proof.
  unfold ends_ok. intros Hall He.
  destruct u as [|c u _] using rev_ind; [done|].
  rewrite rev_unit in He. simpl in He.
  rewrite forallb_app in Hall. simpl in Hall.
  apply andb_true_iff in Hall as [_ Hc]. rewrite andb_true_r in Hc.
  by rewrite Hc in He.
Qed.

Lemma ends_ok_suffix (p : ascii -> bool) (u1 u2 : str) :
  ends_ok p (u1 ++ u2) = true → u2 ≠ [] → ends_ok p u2 = true.
Proof.
  unfold ends_ok. rewrite rev_app_distr. intros H Hne.
  destruct u2 as [|c u2 _] using rev_ind; [done|].
  rewrite rev_unit in *. done.
Qed.

(** Whitespace and then an opening parenthesis cannot start inside a text
    that has no parenthesis and does not end in whitespace. *)
Lemma no_paren_after_spaces (u rest pre t : str) :
  u ≠ [] → ends_ok is_space u = true → "("%char ∉ u →
  forallb is_space pre = true →
  u ++ rest = pre ++ "("%char :: t → False.
Proof.
  intros Hne He Hno Hpre Heq.
  apply app_eq_inv in Heq as [(k & -> & Hk)|(k & -> & Hk)].
  - destruct k as [|c k].
    + rewrite app_nil_r in *. by apply Hne, (ends_ok_all is_space).
    + injection Hk as <- _. apply Hno. apply elem_of_app. right. left.
  - rewrite forallb_app in Hpre. apply andb_true_iff in Hpre as [Hu _].
    by apply Hne, (ends_ok_all is_space).
Qed.

Lemma is_word_not_space (c : ascii) : is_word c = true → is_space c = false.
Proof. destruct c as [[] [] [] [] [] [] [] []]; by vm_compute. Qed.

Lemma is_word_dot (c : ascii) : is_word c = true → dot c = true.
Proof. destruct c as [[] [] [] [] [] [] [] []]; by vm_compute. Qed.

Lemma forallb_impl (p q : ascii -> bool) (s : str) :
  (∀ c, p c = true → q c = true) →
  forallb p s = true → forallb q s = true.
Proof.
  intros Hpq. rewrite !forallb_forall. intros H c Hc. by apply Hpq, H.
Qed.

Lemma take_prefix (a b : str) : take (length (a ++ b) - length b) (a ++ b) = a.
Proof.
  rewrite length_app, Nat.add_sub. by rewrite take_app_length.
Qed.

Lemma starts_ok_word (name rest : str) :
  name ≠ [] → forallb is_word name = true →
  starts_ok is_space (name ++ rest) = true.
Proof.
  destruct name as [|c name]; [done|]. simpl.
  intros _ [Hc _]%andb_true_iff. by rewrite is_word_not_space.
Qed.

(** The text [keyword args (name)] matches the nested rule with [args] as
    group 1 and [name] as group 2. *)
Lemma nested_re_parenthesized (keyword args name : str) :
  args ≠ [] → forallb dot args = true → "("%char ∉ args →
  starts_ok is_space args = true → ends_ok is_space args = true →
  name ≠ [] → forallb is_word name = true →
  re_match (nested_re keyword)
    (keyword ++ lit " " ++ args ++ lit " (" ++ name ++ lit ")")
  = Some [(2, name); (1, args)].
Proof.
  intros Hargs Hdot Hno Hs He Hname Hword.
  unfold re_match, nested_re. rewrite !seqs_cons.
  generalize (keyword ++ lit " " ++ args ++ lit " (" ++ name ++ lit ")")
    at 1. intros whole.
  rewrite rmatch_seq, rmatch_Str. cbn [rmatch seqs foldr].
  apply (rep_greedy_max is_space 1 (lit " ")); [done| |done|].
  { destruct args; [done|]. done. }
  apply (rep_lazy_first dot args); [done|done| |].
  - intros u1 u2 -> Hu1 Hu2.
    match goal with |- ?lhs = None => destruct lhs as [m|] eqn:Hm end;
      [|done].
    exfalso.
    apply rep_greedy_inv in Hm as (pre & t & Heq & _ & Hpre & Hm).
    destruct t as [|a t]; [done|].
    destruct (is_char "(" a) eqn:Ha; [|done].
    apply ascii_eqb_eq in Ha as ->.
    apply (no_paren_after_spaces u2 (lit " (" ++ name ++ lit ")") pre t);
      try done.
    + by eapply ends_ok_suffix.
    + intros H. apply Hno. apply elem_of_app. by right.
  - apply (rep_greedy_max is_space 0 (lit " ")); [done|done|simpl; lia|].
    cbn [is_char]. replace (ascii_eqb "(" "(") with true by done.
    apply (rep_greedy_max is_space 0 []);
      [done|by apply starts_ok_word|simpl; lia|].
    apply (rep_greedy_back dot 1 name ")");
      [by eapply forallb_impl; [apply is_word_dot|]|done
      |destruct name; [done|simpl; lia]|done|].
    change (Some [(2, take (length (name ++ lit ")") - length (lit ")"))
                        (name ++ lit ")"));
                  (1, take (length (args ++ lit " (" ++ name ++ lit ")")
                            - length (lit " (" ++ name ++ lit ")"))
                        (args ++ lit " (" ++ name ++ lit ")"))]
            = Some [(2, name); (1, args)]).
    by rewrite !take_prefix.
Qed.

Lemma rep_greedy_all {R} (p : ascii -> bool) (min : nat) (s : str)
    (k : str -> option R) (x : R) :
  forallb p s = true → min ≤ length s → k [] = Some x →
  rep_greedy p min s k = Some x.
Proof.
  intros Hp Hmin Hk. rewrite <- (app_nil_r s).
  by apply rep_greedy_max.
Qed.

(** A non-empty text of word characters matches [^\w+$]. *)
Lemma name_re_word (name : str) :
  name ≠ [] → forallb is_word name = true →
  is_Some (re_match name_re name).
Proof.
  intros Hne Hword. unfold re_match, name_re. cbn [rmatch seqs foldr].
  rewrite Nat.eqb_refl.
  erewrite rep_greedy_all; [done|done| |done].
  destruct name; [done|simpl; lia].
Qed.

Lemma strip_id (s : str) :
  starts_ok is_space s = true → ends_ok is_space s = true → strip s = s.
Proof.
  intros Hs He. unfold strip.
  rewrite <- (app_nil_r s) at 1. by apply (strip_by_pad is_space []).
Qed.

Lemma ends_ok_snoc (p : ascii -> bool) (s : str) (c : ascii) :
  ends_ok p (s ++ [c]) = negb (p c).
Proof. unfold ends_ok. by rewrite rev_unit. Qed.

Lemma strip_word (name : str) :
  forallb is_word name = true → strip name = name.
Proof.
  intros Hword. apply strip_id.
  - destruct name as [|c name]; [done|]. simpl in *.
    apply andb_true_iff in Hword as [Hc _]. by rewrite is_word_not_space.
  - destruct name as [|c name _] using rev_ind; [done|].
    rewrite ends_ok_snoc. rewrite forallb_app in Hword.
    apply andb_true_iff in Hword as [_ Hc]. simpl in Hc.
    rewrite andb_true_r in Hc. by rewrite is_word_not_space.
Qed.

Section QueryForms.

Variable set_iter : gset str -> list str.

(** A parenthesized query [keyword args (name)] is answered by the
    operation of its rule when no earlier rule matches its text. *)
Lemma nested_rule_parenthesized (recurse : store -> str -> option answer)
    (keyword : str)
    (operation : str -> store -> str -> outcome (option relation))
    (otherwise : store -> option answer) (relations : store)
    (args name : str) :
  args ≠ [] → forallb dot args = true → "("%char ∉ args →
  starts_ok is_space args = true → ends_ok is_space args = true →
  name ≠ [] → forallb is_word name = true →
  nested_rule recurse keyword operation otherwise relations
    (keyword ++ lit " " ++ args ++ lit " (" ++ name ++ lit ")")
  = Some (relations, operation args relations name).
Proof.
  intros Hargs Hdot Hno Hs He Hname Hword. unfold nested_rule.
  rewrite nested_re_parenthesized by done.
  cbn [group Nat.eqb].
  rewrite (strip_id args), (strip_word name) by done.
  by rewrite bool_decide_eq_true_2 by (by apply name_re_word).
Qed.

Lemma parenthesized_strip (keyword args name : str) :
  starts_ok is_space keyword = true → keyword ≠ [] →
  strip (keyword ++ lit " " ++ args ++ lit " (" ++ name ++ lit ")")
  = keyword ++ lit " " ++ args ++ lit " (" ++ name ++ lit ")".
Proof.
  intros Hk Hne. apply strip_id.
  - by destruct keyword.
  - rewrite !app_assoc. apply ends_ok_snoc.
Qed.

(** C2, amended: the bare forms [select condition name] and
    [project attr_list name] are not accepted, a query of either form
    without an opening parenthesis yields the failure value; the
    parenthesized forms [select condition (name)] and
    [project attr_list (name)] evaluate to the selection and to the
    projection on the named relation, for arguments on one line without
    parenthesis or surrounding whitespace and a name of word characters. *)
Theorem parse_query_forms (relations : store) (args name : str) :
  "("%char ∉ args → "("%char ∉ name →
  parse_query set_iter relations (lit "select " ++ args ++ lit " " ++ name)
  = Some (relations, Ret None)
  ∧ parse_query set_iter relations
      (lit "project " ++ args ++ lit " " ++ name)
    = Some (relations, Ret None)
  ∧ (args ≠ [] → forallb dot args = true →
     starts_ok is_space args = true → ends_ok is_space args = true →
     name ≠ [] → forallb is_word name = true →
     parse_query set_iter relations
       (lit "select " ++ args ++ lit " (" ++ name ++ lit ")")
     = Some (relations, select_operation relations name args)
     ∧ parse_query set_iter relations
         (lit "project " ++ args ++ lit " (" ++ name ++ lit ")")
       = Some (relations,
               project_operation relations name
                 (map strip (split (lit ",") args)))).
Proof.
  intros Hargs Hname.
  assert ("("%char ∉ args ++ lit " " ++ name) as Hno.
  { rewrite !elem_of_app. intros [?|[H|?]]; [done| |done].
    by apply list_elem_of_singleton in H. }
  split_and!.
  - apply parse_query_no_paren; [by left|].
    cbn [lit list_ascii_of_string app].
    rewrite !not_elem_of_cons. by split_and!.
  - apply parse_query_no_paren; [by right|].
    cbn [lit list_ascii_of_string app].
    rewrite !not_elem_of_cons. by split_and!.
  - intros Hne Hdot Hs He Hnm Hword. split.
    + unfold parse_query. cbn [parse_query_fuel].
      change (lit "select " ++ args ++ lit " (" ++ name ++ lit ")")
        with (lit "select" ++ lit " " ++ args ++ lit " (" ++ name ++ lit ")").
      rewrite parenthesized_strip by done.
      rewrite nested_rule_no_match by done.
      by rewrite nested_rule_parenthesized.
    + unfold parse_query. cbn [parse_query_fuel].
      change (lit "project " ++ args ++ lit " (" ++ name ++ lit ")")
        with (lit "project" ++ lit " " ++ args ++ lit " (" ++ name
              ++ lit ")").
      rewrite parenthesized_strip by done.
      by rewrite nested_rule_parenthesized.
Qed.

End QueryForms.

(** ** Failures *)

Section Failures.

Variable set_iter : gset str -> list str.

(** C6, amended: the failures are not typed.  An operator on a name that
    is absent from the store, a set operator on two relations whose
    attribute lists differ, and a query that matches none of the six rules
    all yield the same failure value [None]. *)
Theorem failures_undifferentiated (relations : store) :
  (∀ n1 n2 condition,
     relations !! n1 = None ∨ relations !! n2 = None →
     join_operation set_iter relations n1 n2 condition = Ret None
     ∧ union_operation relations n1 n2 = None
     ∧ intersection_operation relations n1 n2 = None
     ∧ difference_operation relations n1 n2 = None)
  ∧ (∀ n condition attrs,
       relations !! n = None →
       select_operation relations n condition = Ret None
       ∧ project_operation relations n attrs = Ret None)
  ∧ (∀ n1 n2 rel1 rel2,
       relations !! n1 = Some rel1 → relations !! n2 = Some rel2 →
       attributes rel1 ≠ attributes rel2 →
       union_operation relations n1 n2 = None
       ∧ intersection_operation relations n1 n2 = None
       ∧ difference_operation relations n1 n2 = None)
  ∧ (∀ query,
       (∀ keyword, keyword ∈ [lit "project"; lit "select"] →
          re_match (nested_re keyword) (strip query) = None) →
       (∀ keyword,
          keyword ∈ [lit "join"; lit "union"; lit "intersection";
                     lit "difference"] →
          re_match (binary_re keyword) (strip query) = None) →
       parse_query set_iter relations query = Some (relations, Ret None)).
Proof.
  split_and!.
  - intros n1 n2 condition Hno.
    unfold join_operation, union_operation, intersection_operation,
      difference_operation.
    destruct Hno as [-> | ->]; [done|]. by destruct (relations !! n1).
  - intros n condition attrs Hno.
    unfold select_operation, project_operation. by rewrite Hno.
  - intros n1 n2 rel1 rel2 H1 H2 Hne.
    unfold union_operation, intersection_operation, difference_operation.
    rewrite H1, H2.
    by destruct (decide (attributes rel1 ≠ attributes rel2)).
  - intros query Hnested Hbinary.
    unfold parse_query. cbn [parse_query_fuel].
    rewrite !nested_rule_no_match by (apply Hnested; set_solver).
    unfold binary_rules. by rewrite !Hbinary by set_solver.
Qed.

(** C3: a query that compares a Text value with an Integer literal under
    an ordering operator raises [TypeError], and a projection or a
    selection on a relation with a tuple shorter than its schema raises
    [IndexError]; the exception is not turned into a failure value, and in
    the loop of [main] it ends the run before the next query is
    evaluated. *)
Theorem failing_query_raises :
  parse_query set_iter store_R (lit "select a>1 (R)")
  = Some (store_R, Raise TypeError)
  ∧ parse_query set_iter store_S (lit "project b (S)")
    = Some (store_S, Raise IndexError)
  ∧ parse_query set_iter store_S (lit "select b=1 (S)")
    = Some (store_S, Raise IndexError)
  ∧ parse_query set_iter store_R (lit "select a=x (R)")
    = Some (store_R, Ret (Some (Relation [lit "a"] [[Text (lit "x")]])))
  ∧ main_loop set_iter store_R [lit "select a>1 (R)"; lit "select a=x (R)"]
    = Some ([], Some TypeError).
Proof. split_and!; compute_done. Qed.

End Failures.

(** C6 as stated fails: a missing relation, a schema mismatch and an
    unrecognized query give the same answer, so no reading of the answer
    tells them apart. *)
Lemma failures_distinguishable_counterexample :
  ¬ failures_distinguishable elements store_AB
      (lit "join A Nope") (lit "union A B") (lit "frobnicate").
Proof.
  intros (kind_of & H1 & H2 & _).
  assert (parse_query elements store_AB (lit "join A Nope")
          = parse_query elements store_AB (lit "union A B")) as Heq
    by compute_done.
  rewrite Heq in H1. congruence.
Qed.

(** C2 as stated fails: the bare form is not accepted. *)
Lemma bare_select_counterexample :
  ¬ bare_select_accepted elements store_R (lit "a=x") (lit "R").
Proof. unfold bare_select_accepted. compute_done. Qed.

(** C4 as stated fails: a relation defined under the name [temp_result]
    is overwritten by the staged result and then removed. *)
Lemma store_restored_counterexample :
  store_temp !! temp_name = Some (Relation [lit "a"] [[Integer 1]])
  ∧ ¬ store_restored elements store_temp
        (lit "project a (select a=1 (temp_result))").
Proof.
  split; [compute_done|].
  intros H.
  specialize (H ∅ (Ret (Some (Relation [lit "a"] [[Integer 1]])))).
  assert (∅ = store_temp) as Heq by (apply H; compute_done).
  revert Heq. compute_done.
Qed.

(** When the operation on the staged result raises, the statement that
    removes the staged entry is not reached. *)
Lemma staged_entry_left_on_raise :
  parse_query elements store_R (lit "select a>1 (select a=x (R))")
  = Some (<[temp_name := Relation [lit "a"] [[Text (lit "x")]]]> store_R,
          Raise TypeError)
  ∧ store_R !! temp_name = None.
Proof. split; compute_done. Qed.

(** ** The theorems at concrete inputs *)

(** The union of [P] and [Q], which have the same schema. *)
Lemma union_operation_spec_witness :
  store_PQ !! lit "P" = Some rel_P
  ∧ store_PQ !! lit "Q" = Some rel_Q
  ∧ (union_operation store_PQ (lit "P") (lit "Q") = None
       ↔ attributes rel_P ≠ attributes rel_Q)
  ∧ (attributes rel_P = attributes rel_Q →
     ∃ result_tuples,
       union_operation store_PQ (lit "P") (lit "Q")
         = Some (Relation (attributes rel_P) result_tuples)
       ∧ result_tuples = dedup_first (tuples rel_P ++ tuples rel_Q)
       ∧ NoDup result_tuples
       ∧ (∀ t, t ∈ result_tuples ↔ t ∈ tuples rel_P ++ tuples rel_Q)
       ∧ result_tuples `sublist_of` tuples rel_P ++ tuples rel_Q).
Proof.
  assert (store_PQ !! lit "P" = Some rel_P) as H1 by compute_done.
  assert (store_PQ !! lit "Q" = Some rel_Q) as H2 by compute_done.
  split; [exact H1|]. split; [exact H2|].
  exact (union_operation_spec store_PQ (lit "P") (lit "Q") rel_P rel_Q H1 H2).
Defined.

(** The projection of [P] onto [b], staged under the reserved name and
    projected again. *)
Lemma project_operation_idempotent_witness :
  store_PQ !! lit "P" = Some rel_P
  ∧ (∀ a, a ∈ [lit "b"] → a ∈ attributes rel_P)
  ∧ (∀ rel',
       project_operation store_PQ (lit "P") [lit "b"] = Ret (Some rel') →
       (<[temp_name := rel_P_b]> store_PQ) !! temp_name = Some rel' →
       project_operation (<[temp_name := rel_P_b]> store_PQ) temp_name
         [lit "b"] = Ret (Some rel'))
  ∧ (well_formed rel_P →
     ∃ rel', project_operation store_PQ (lit "P") [lit "b"]
             = Ret (Some rel')).
Proof.
  assert (store_PQ !! lit "P" = Some rel_P) as H1 by compute_done.
  assert (∀ a, a ∈ [lit "b"] → a ∈ attributes rel_P) as H2.
  { apply Forall_forall. compute_done. }
  split; [exact H1|]. split; [exact H2|].
  exact (project_operation_idempotent store_PQ
           (<[temp_name := rel_P_b]> store_PQ) (lit "P") temp_name
           rel_P [lit "b"] H1 H2).
Defined.

(** The join of [P] and [Q] and the projection of [P] onto [b]. *)
Lemma operations_well_formed_witness :
  store_PQ !! lit "P" = Some rel_P
  ∧ store_PQ !! lit "Q" = Some rel_Q
  ∧ well_formed rel_P
  ∧ NoDup (attributes rel_Q)
  ∧ (∀ rel',
       join_operation elements store_PQ (lit "P") (lit "Q") None
       = Ret (Some rel') →
       well_formed rel')
  ∧ (∀ rel',
       project_operation store_PQ (lit "P") [lit "b"] = Ret (Some rel') →
       ((∀ a, a ∈ [lit "b"] → a ∈ attributes rel_P) → well_formed rel')).
Proof.
  assert (store_PQ !! lit "P" = Some rel_P) as H1 by compute_done.
  assert (store_PQ !! lit "Q" = Some rel_Q) as H2 by compute_done.
  assert (well_formed rel_P) as H3 by compute_done.
  assert (NoDup (attributes rel_Q)) as H4 by compute_done.
  split; [exact H1|]. split; [exact H2|]. split; [exact H3|].
  split; [exact H4|].
  destruct (operations_well_formed elements store_PQ)
    as (_ & Hproject & Hjoin & _).
  split.
  - intros rel' H.
    exact (Hjoin (lit "P") (lit "Q") None rel_P rel_Q rel' H1 H2 H3 H4 H).
  - intros rel' H.
    exact (proj2 (proj2 (Hproject (lit "P") [lit "b"] rel_P rel' H1 H))).
Defined.

(** A nested query on a store without an entry under the reserved name. *)
Lemma parse_query_store_unchanged_witness :
  store_R !! temp_name = None
  ∧ ∃ relations' outcome,
      parse_query elements store_R (lit "project a (select a=x (R))")
      = Some (relations', outcome)
      ∧ (∀ result, outcome = Ret result → relations' = store_R).
Proof.
  assert (store_R !! temp_name = None) as H1 by compute_done.
  split; [exact H1|].
  exact (proj1 (parse_query_store_unchanged elements store_R
                  (lit "project a (select a=x (R))")) H1).
Defined.

(** The bare and the parenthesized forms for the condition [a=x] on [R]. *)
Lemma parse_query_forms_witness :
  ("("%char ∉ lit "a=x")
  ∧ ("("%char ∉ lit "R")
  ∧ parse_query elements store_R (lit "select " ++ lit "a=x" ++ lit " "
                                  ++ lit "R")
    = Some (store_R, Ret None)
  ∧ parse_query elements store_R (lit "project " ++ lit "a=x" ++ lit " "
                                  ++ lit "R")
    = Some (store_R, Ret None)
  ∧ (lit "a=x" ≠ [] → forallb dot (lit "a=x") = true →
     starts_ok is_space (lit "a=x") = true →
     ends_ok is_space (lit "a=x") = true →
     lit "R" ≠ [] → forallb is_word (lit "R") = true →
     parse_query elements store_R
       (lit "select " ++ lit "a=x" ++ lit " (" ++ lit "R" ++ lit ")")
     = Some (store_R, select_operation store_R (lit "R") (lit "a=x"))
     ∧ parse_query elements store_R
         (lit "project " ++ lit "a=x" ++ lit " (" ++ lit "R" ++ lit ")")
       = Some (store_R,
               project_operation store_R (lit "R")
                 (map strip (split (lit ",") (lit "a=x"))))).
Proof.
  assert ("("%char ∉ lit "a=x") as H1 by compute_done.
  assert ("("%char ∉ lit "R") as H2 by compute_done.
  split; [exact H1|]. split; [exact H2|].
  exact (parse_query_forms elements store_R (lit "a=x") (lit "R") H1 H2).
Defined.

(** A union on differing schemas and a union with a missing relation. *)
Lemma failures_undifferentiated_witness :
  store_AB !! lit "A" = Some (Relation [lit "a"] [[Integer 1]])
  ∧ store_AB !! lit "B" = Some (Relation [lit "b"] [[Integer 1]])
  ∧ store_AB !! lit "Nope" = None
  ∧ [lit "a"] ≠ [lit "b"]
  ∧ union_operation store_AB (lit "A") (lit "B") = None
  ∧ union_operation store_AB (lit "A") (lit "Nope") = None.
Proof.
  assert (store_AB !! lit "A" = Some (Relation [lit "a"] [[Integer 1]]))
    as H1 by compute_done.
  assert (store_AB !! lit "B" = Some (Relation [lit "b"] [[Integer 1]]))
    as H2 by compute_done.
  assert (store_AB !! lit "Nope" = None) as H3 by compute_done.
  assert ([lit "a"] ≠ [lit "b"]) as H4 by compute_done.
  split; [exact H1|]. split; [exact H2|]. split; [exact H3|].
  split; [exact H4|].
  destruct (failures_undifferentiated elements store_AB)
    as (Hmissing & _ & Hmismatch & _).
  split.
  - exact (proj1 (Hmismatch (lit "A") (lit "B") _ _ H1 H2 H4)).
  - exact (proj1 (proj2 (Hmissing (lit "A") (lit "Nope") None
                           (or_intror H3)))).
Defined.

(** ** Scenarios *)

Example employees_parsed :
  store_employees !! lit "Employees"
  = Some (Relation [lit "name"; lit "dept"; lit "salary"]
            [[Text (lit "Alice"); Text (lit "Eng"); Integer 100];
             [Text (lit "Bob"); Text (lit "Eng"); Integer 90];
             [Text (lit "Carol"); Text (lit "Sales"); Integer 80]]).
Proof. compute_done. Qed.

Example select_salary :
  parse_query elements store_employees (lit "select salary>85 (Employees)")
  = Some (store_employees,
          Ret (Some (Relation [lit "name"; lit "dept"; lit "salary"]
                       [[Text (lit "Alice"); Text (lit "Eng"); Integer 100];
                        [Text (lit "Bob"); Text (lit "Eng"); Integer 90]]))).
Proof. compute_done. Qed.

Example project_name_dept :
  parse_query elements store_employees (lit "project name,dept (Employees)")
  = Some (store_employees,
          Ret (Some (Relation [lit "name"; lit "dept"]
                       [[Text (lit "Alice"); Text (lit "Eng")];
                        [Text (lit "Bob"); Text (lit "Eng")];
                        [Text (lit "Carol"); Text (lit "Sales")]]))).
Proof. compute_done. Qed.

Example join_missing :
  parse_query elements store_employees (lit "join Employees Nope")
  = Some (store_employees, Ret None).
Proof. compute_done. Qed.

Example project_of_select :
  parse_query elements store_employees
    (lit "project name (select salary>85 (Employees))")
  = Some (store_employees,
          Ret (Some (Relation [lit "name"]
                       [[Text (lit "Alice")]; [Text (lit "Bob")]]))).
Proof. compute_done. Qed.

(** * Further properties *)

(** ** The set operators *)

Lemma filter_true_id (P : list value -> Prop) `{!∀ x, Decision (P x)}
    (l : list (list value)) :
  (∀ t, t ∈ l → P t) → filter P l = l.
Proof.
  induction l as [|x l IH]; intros Hall; [done|].
  rewrite filter_cons_True by (apply Hall; left).
  f_equal. apply IH. intros t Ht. apply Hall. by right.
Qed.

Lemma filter_false_nil (P : list value -> Prop) `{!∀ x, Decision (P x)}
    (l : list (list value)) :
  (∀ t, t ∈ l → ¬ P t) → filter P l = [].
Proof.
  induction l as [|x l IH]; intros Hall; [done|].
  rewrite filter_cons_False by (apply Hall; left).
  apply IH. intros t Ht. apply Hall. by right.
Qed.

Lemma dedup_first_app (l1 l2 : list (list value)) :
  dedup_first (l1 ++ l2)
  = dedup_first l1 ++ filter (fun t => t ∉ l1) (dedup_first l2).
Proof.
  induction l1 as [|x l1 IH]; simpl.
  - symmetry. apply filter_true_id. intros t _. by inversion 1.
  - f_equal. rewrite IH, filter_app. f_equal.
    rewrite list_filter_filter. apply list_filter_iff.
    intros t. rewrite not_elem_of_cons. naive_solver.
Qed.

(** The tuples kept by the loop of intersection and of difference. *)
Lemma set_loop_member (l2 : list (list value)) (ts : list (list value)) :
  set_loop (fun t => bool_decide (t ∈ (list_to_set l2 : gset (list value))))
    ts ∅ []
  = dedup_first (filter (fun t => t ∈ l2) ts).
Proof.
  rewrite set_loop_spec. simpl. f_equal. apply list_filter_iff.
  intros t. rewrite bool_decide_eq_true, elem_of_list_to_set. set_solver.
Qed.

Lemma set_loop_not_member (l2 : list (list value))
    (ts : list (list value)) :
  set_loop (fun t => bool_decide (t ∉ (list_to_set l2 : gset (list value))))
    ts ∅ []
  = dedup_first (filter (fun t => t ∉ l2) ts).
Proof.
  rewrite set_loop_spec. simpl. f_equal. apply list_filter_iff.
  intros t. rewrite bool_decide_eq_true, elem_of_list_to_set. set_solver.
Qed.

Lemma intersection_operation_eq (relations : store) (n1 n2 : str)
    (rel1 rel2 : relation) :
  relations !! n1 = Some rel1 → relations !! n2 = Some rel2 →
  attributes rel1 = attributes rel2 →
  intersection_operation relations n1 n2
  = Some (Relation (attributes rel1)
            (dedup_first (filter (fun t => t ∈ tuples rel2) (tuples rel1)))).
Proof.
  intros H1 H2 Heq. unfold intersection_operation. rewrite H1, H2.
  rewrite decide_False by naive_solver. by rewrite set_loop_member.
Qed.

Lemma difference_operation_eq (relations : store) (n1 n2 : str)
    (rel1 rel2 : relation) :
  relations !! n1 = Some rel1 → relations !! n2 = Some rel2 →
  attributes rel1 = attributes rel2 →
  difference_operation relations n1 n2
  = Some (Relation (attributes rel1)
            (dedup_first (filter (fun t => t ∉ tuples rel2) (tuples rel1)))).
Proof.
  intros H1 H2 Heq. unfold difference_operation. rewrite H1, H2.
  rewrite decide_False by naive_solver. by rewrite set_loop_not_member.
Qed.

Lemma union_operation_eq (relations : store) (n1 n2 : str)
    (rel1 rel2 : relation) :
  relations !! n1 = Some rel1 → relations !! n2 = Some rel2 →
  attributes rel1 = attributes rel2 →
  union_operation relations n1 n2
  = Some (Relation (attributes rel1)
            (dedup_first (tuples rel1 ++ tuples rel2))).
Proof.
  intros H1 H2 Heq. unfold union_operation. rewrite H1, H2.
  rewrite decide_False by naive_solver. by rewrite set_loop_all.
Qed.

(** X1: for two relations present in the store, [intersection_operation]
    fails exactly when their attribute lists differ; otherwise it returns
    the schema of the first with the tuples of the first that occur in the
    second, in the order of the first and without duplicates. *)
Theorem intersection_operation_spec (relations : store) (n1 n2 : str)
    (rel1 rel2 : relation) :
  relations !! n1 = Some rel1 →
  relations !! n2 = Some rel2 →
  (intersection_operation relations n1 n2 = None
     ↔ attributes rel1 ≠ attributes rel2)
  ∧ (attributes rel1 = attributes rel2 →
     ∃ result_tuples,
       intersection_operation relations n1 n2
         = Some (Relation (attributes rel1) result_tuples)
       ∧ NoDup result_tuples
       ∧ (∀ t, t ∈ result_tuples ↔ t ∈ tuples rel1 ∧ t ∈ tuples rel2)
       ∧ result_tuples `sublist_of` tuples rel1).
Proof.
  intros H1 H2. split.
  - unfold intersection_operation. rewrite H1, H2.
    destruct (decide (attributes rel1 ≠ attributes rel2)); naive_solver.
  - intros Heq. eexists. split; [by apply intersection_operation_eq|].
    split_and!.
    + apply dedup_first_NoDup.
    + intros t. rewrite dedup_first_elem_of, list_elem_of_filter.
      naive_solver.
    + trans (filter (fun t => t ∈ tuples rel2) (tuples rel1));
        [apply dedup_first_sublist|exact (sublist_filter _ _)].
Qed.

(** X2: for two relations present in the store, [difference_operation]
    fails exactly when their attribute lists differ; otherwise it returns
    the schema of the first with the tuples of the first that do not occur
    in the second, in the order of the first and without duplicates. *)
Theorem difference_operation_spec (relations : store) (n1 n2 : str)
    (rel1 rel2 : relation) :
  relations !! n1 = Some rel1 →
  relations !! n2 = Some rel2 →
  (difference_operation relations n1 n2 = None
     ↔ attributes rel1 ≠ attributes rel2)
  ∧ (attributes rel1 = attributes rel2 →
     ∃ result_tuples,
       difference_operation relations n1 n2
         = Some (Relation (attributes rel1) result_tuples)
       ∧ NoDup result_tuples
       ∧ (∀ t, t ∈ result_tuples ↔ t ∈ tuples rel1 ∧ t ∉ tuples rel2)
       ∧ result_tuples `sublist_of` tuples rel1).
Proof.
  intros H1 H2. split.
  - unfold difference_operation. rewrite H1, H2.
    destruct (decide (attributes rel1 ≠ attributes rel2)); naive_solver.
  - intros Heq. eexists. split; [by apply difference_operation_eq|].
    split_and!.
    + apply dedup_first_NoDup.
    + intros t. rewrite dedup_first_elem_of, list_elem_of_filter.
      naive_solver.
    + trans (filter (fun t => t ∉ tuples rel2) (tuples rel1));
        [apply dedup_first_sublist|exact (sublist_filter _ _)].
Qed.

(** X3: a relation with itself.  The union and the intersection of a
    relation with itself are the relation without its duplicate tuples,
    and its difference with itself has no tuples. *)
Theorem set_operations_self (relations : store) (n : str) (rel : relation) :
  relations !! n = Some rel →
  union_operation relations n n
  = Some (Relation (attributes rel) (dedup_first (tuples rel)))
  ∧ intersection_operation relations n n
    = Some (Relation (attributes rel) (dedup_first (tuples rel)))
  ∧ difference_operation relations n n
    = Some (Relation (attributes rel) []).
Proof.
  intros Hn. split_and!.
  - rewrite (union_operation_eq _ _ _ rel rel) by done. do 2 f_equal.
    rewrite dedup_first_app.
    rewrite filter_false_nil; [by rewrite app_nil_r|].
    intros t Ht. rewrite dedup_first_elem_of in Ht. naive_solver.
  - rewrite (intersection_operation_eq _ _ _ rel rel) by done.
    do 3 f_equal. by apply filter_true_id.
  - rewrite (difference_operation_eq _ _ _ rel rel) by done.
    do 2 f_equal. rewrite filter_false_nil; [done|]. naive_solver.
Qed.

(** X4: union and intersection do not depend on the order of the operands
    up to the order of the tuples: with the operands exchanged they fail
    together, and otherwise return the same schema and a permutation of
    the same tuples. *)
Theorem union_intersection_commute (relations : store) (n1 n2 : str)
    (rel1 rel2 : relation) :
  relations !! n1 = Some rel1 →
  relations !! n2 = Some rel2 →
  (union_operation relations n1 n2 = None
     ↔ union_operation relations n2 n1 = None)
  ∧ (intersection_operation relations n1 n2 = None
     ↔ intersection_operation relations n2 n1 = None)
  ∧ (∀ r r',
       union_operation relations n1 n2 = Some r →
       union_operation relations n2 n1 = Some r' →
       attributes r = attributes r' ∧ tuples r ≡ₚ tuples r')
  ∧ (∀ r r',
       intersection_operation relations n1 n2 = Some r →
       intersection_operation relations n2 n1 = Some r' →
       attributes r = attributes r' ∧ tuples r ≡ₚ tuples r').
Proof.
  intros H1 H2.
  destruct (decide (attributes rel1 = attributes rel2)) as [Heq|Hne].
  - rewrite (union_operation_eq _ _ _ _ _ H1 H2 Heq).
    rewrite (union_operation_eq _ _ _ _ _ H2 H1 (eq_sym Heq)).
    rewrite (intersection_operation_eq _ _ _ _ _ H1 H2 Heq).
    rewrite (intersection_operation_eq _ _ _ _ _ H2 H1 (eq_sym Heq)).
    split_and!; [done|done| |].
    + intros r r' [= <-] [= <-]. split; [done|]. simpl.
      apply NoDup_Permutation; [apply dedup_first_NoDup..|].
      intros t. rewrite !dedup_first_elem_of, !elem_of_app. naive_solver.
    + intros r r' [= <-] [= <-]. split; [done|]. simpl.
      apply NoDup_Permutation; [apply dedup_first_NoDup..|].
      intros t. rewrite !dedup_first_elem_of, !list_elem_of_filter.
      naive_solver.
  - unfold union_operation, intersection_operation. rewrite H1, H2.
    rewrite !(decide_True (P := attributes rel1 ≠ attributes rel2)) by done.
    rewrite !(decide_True (P := attributes rel2 ≠ attributes rel1))
      by congruence.
    done.
Qed.

(** X5: for operands with the same schema, the tuples of the intersection
    and those of the difference share no tuple, and together they are the
    tuples of the first operand without its duplicates. *)
Theorem intersection_difference_partition (relations : store) (n1 n2 : str)
    (rel1 rel2 : relation) :
  relations !! n1 = Some rel1 →
  relations !! n2 = Some rel2 →
  attributes rel1 = attributes rel2 →
  ∃ common rest,
    intersection_operation relations n1 n2
    = Some (Relation (attributes rel1) common)
    ∧ difference_operation relations n1 n2
      = Some (Relation (attributes rel1) rest)
    ∧ (∀ t, t ∈ common → t ∉ rest)
    ∧ common ++ rest ≡ₚ dedup_first (tuples rel1).
Proof.
  intros H1 H2 Heq. eexists _, _.
  split; [by apply intersection_operation_eq|].
  split; [by apply difference_operation_eq|].
  split.
  - intros t. rewrite !dedup_first_elem_of, !list_elem_of_filter.
    naive_solver.
  - rewrite !dedup_first_filter. apply filter_app_complement.
Qed.

(** ** Selection *)

(** [filterM] returns exactly when the test returns on every element, and
    then keeps the elements on which it is true. *)
Lemma filterM_ret {A} (f : A -> outcome bool)
    `{!∀ x, Decision (f x = Ret true)} (l l' : list A) :
  filterM f l = Ret l'
  ↔ Forall (fun x => ∃ b, f x = Ret b) l
    ∧ l' = filter (fun x => f x = Ret true) l.
Proof.
  revert l'. induction l as [|x l IH]; intros l'; simpl.
  - split; [intros [= <-]; by split|by intros [_ ->]].
  - rewrite filter_cons. split.
    + intros (b & Hb & Hrest)%bind_ret_inv.
      apply bind_ret_inv in Hrest as (ys & Hys & [= <-]).
      apply IH in Hys as [Hall ->]. split; [constructor; eauto|].
      destruct b, (decide (f x = Ret true)); congruence.
    + intros [[[b Hb] Hall]%Forall_cons ->].
      rewrite (proj2 (IH _) (conj Hall eq_refl)).
      destruct (decide (f x = Ret true)) as [Hd|Hd]; rewrite Hb in *;
        simpl; destruct b; congruence.
Qed.

(** X6: [select_operation] on a relation of the store returns exactly
    when the condition evaluates without an exception on every tuple, the
    rejected ones included; it then returns the schema unchanged and the
    tuples on which the condition is true, in their order and with their
    repetitions. *)
Theorem select_operation_spec (relations : store) (n condition : str)
    (rel rel' : relation) :
  relations !! n = Some rel →
  (select_operation relations n condition = Ret (Some rel')
   ↔ Forall (fun t => ∃ b, evaluate_condition condition (attributes rel) t
                           = Ret b) (tuples rel)
     ∧ rel' = Relation (attributes rel)
                (filter (fun t => evaluate_condition condition
                                    (attributes rel) t = Ret true)
                   (tuples rel)))
  ∧ (select_operation relations n condition = Ret (Some rel') →
     tuples rel' `sublist_of` tuples rel).
Proof.
  intros Hn. unfold select_operation. rewrite Hn.
  assert (∀ ts, filterM (evaluate_condition condition (attributes rel))
                  (tuples rel) = Ret ts
                ↔ Forall (fun t => ∃ b, evaluate_condition condition
                                          (attributes rel) t = Ret b)
                    (tuples rel)
                  ∧ ts = filter (fun t => evaluate_condition condition
                                            (attributes rel) t = Ret true)
                           (tuples rel)) as Hf.
  { intros ts. apply filterM_ret. }
  split.
  - split.
    + intros (ts & Hts & [= <-])%bind_ret_inv.
      apply Hf in Hts as [Hall ->]. done.
    + intros [Hall ->].
      by rewrite (proj2 (Hf _) (conj Hall eq_refl)).
  - intros (ts & Hts & [= <-])%bind_ret_inv.
    apply Hf in Hts as [_ ->]. simpl. exact (sublist_filter _ _).
Qed.

Lemma select_operation_ret (relations : store) (n condition : str)
    (rel rel' : relation) :
  relations !! n = Some rel →
  select_operation relations n condition = Ret (Some rel') →
  Forall (fun t => ∃ b, evaluate_condition condition (attributes rel) t
                        = Ret b) (tuples rel)
  ∧ rel' = Relation (attributes rel)
             (filter (fun t => evaluate_condition condition
                                 (attributes rel) t = Ret true)
                (tuples rel)).
Proof.
  intros Hn. unfold select_operation. rewrite Hn.
  intros (ts & Hts & [= <-])%bind_ret_inv.
  apply (proj1 (filterM_ret _ _ _)) in Hts as [Hall ->]. done.
Qed.

Lemma select_operation_filter (relations : store) (n condition : str)
    (rel : relation) :
  relations !! n = Some rel →
  Forall (fun t => ∃ b, evaluate_condition condition (attributes rel) t
                        = Ret b) (tuples rel) →
  select_operation relations n condition
  = Ret (Some (Relation (attributes rel)
                 (filter (fun t => evaluate_condition condition
                                     (attributes rel) t = Ret true)
                    (tuples rel)))).
Proof.
  intros Hn Hall. unfold select_operation. rewrite Hn.
  by rewrite (proj2 (filterM_ret _ _ _) (conj Hall eq_refl)).
Qed.

Lemma Forall_filter_sub {A} (P Q : A -> Prop) `{!∀ x, Decision (Q x)}
    (l : list A) :
  Forall P l → Forall P (filter Q l).
Proof.
  rewrite !Forall_forall. intros Hall x Hx.
  apply list_elem_of_filter in Hx as [_ Hx]. by apply Hall.
Qed.

(** X7: selections compose.  A relation returned by a selection is
    returned unchanged when the same condition is applied to it again;
    and when two conditions both return on a relation, applying the
    second to the result of the first and the first to the result of the
    second give the same relation. *)
Theorem select_operation_compose (relations s1 s2 : store)
    (n n1 n2 c1 c2 : str) (rel rel1 rel2 : relation) :
  relations !! n = Some rel →
  select_operation relations n c1 = Ret (Some rel1) →
  select_operation relations n c2 = Ret (Some rel2) →
  s1 !! n1 = Some rel1 →
  s2 !! n2 = Some rel2 →
  select_operation s1 n1 c1 = Ret (Some rel1)
  ∧ select_operation s1 n1 c2 = select_operation s2 n2 c1
  ∧ ∃ both,
      select_operation s1 n1 c2 = Ret (Some both)
      ∧ ∀ t, t ∈ tuples both ↔ t ∈ tuples rel1 ∧ t ∈ tuples rel2.
Proof.
  intros Hn H1 H2 Hs1 Hs2.
  apply (select_operation_ret _ _ _ _ _ Hn) in H1 as [Hall1 ->].
  apply (select_operation_ret _ _ _ _ _ Hn) in H2 as [Hall2 ->].
  rewrite !(select_operation_filter s1 n1 _ _ Hs1)
    by (by apply Forall_filter_sub).
  rewrite !(select_operation_filter s2 n2 _ _ Hs2)
    by (by apply Forall_filter_sub).
  simpl. split_and!.
  - do 3 f_equal. rewrite list_filter_filter.
    apply list_filter_iff. naive_solver.
  - do 3 f_equal. rewrite !list_filter_filter.
    apply list_filter_iff. naive_solver.
  - eexists. split; [done|]. simpl. intros t.
    rewrite !list_elem_of_filter. naive_solver.
Qed.

(** ** Conditions that select nothing *)

Lemma evaluate_condition_loop_false (ops : list str) (condition : str)
    (schema : list str) (tuple_data : list value) :
  (∀ op part0 part1, op ∈ ops → split op condition = [part0; part1] →
                     strip part0 ∉ schema) →
  evaluate_condition_loop ops condition schema tuple_data = Ret false.
Proof.
  induction ops as [|op ops IH]; intros Hno; [done|].
  cbn [evaluate_condition_loop].
  rewrite IH by (intros op' p0 p1 Hop; apply Hno; by right).
  destruct (contains op condition); [|done].
  destruct (split op condition) as [|p0 [|p1 [|]]] eqn:Hs; try done.
  rewrite decide_False; [done|]. by apply (Hno op p0 p1); [left|].
Qed.

Lemma startswith_inv (sep s : str) :
  startswith sep s = true → s = sep ++ drop (length sep) s.
Proof.
  revert s. induction sep as [|c sep IH]; intros s; [done|].
  destruct s as [|d s]; [done|]. simpl.
  intros [->%ascii_eqb_eq Hs]%andb_true_iff. f_equal. by apply IH.
Qed.

Lemma split_go_nonempty (sep : str) (skip : nat) (acc s : str) :
  split_go sep skip acc s ≠ [].
Proof.
  revert skip acc. induction s as [|c s IH]; intros skip acc; [done|].
  simpl. destruct skip; [|apply IH]. destruct (startswith sep (c :: s));
    [done|apply IH].
Qed.

(** Joining the pieces of a split with the separator gives the text
    back. *)
Lemma join_split_go (sep : str) (n : nat) :
  ∀ (s acc : str), length s = n → sep ≠ [] →
    join_with sep (split_go sep 0 acc s) = rev acc ++ s.
Proof.
  induction n as [n IH] using lt_wf_ind. intros s acc Hlen Hsep.
  destruct s as [|c s]; [simpl; by rewrite app_nil_r|].
  cbn [split_go]. destruct (startswith sep (c :: s)) eqn:Hs.
  - apply startswith_inv in Hs.
    destruct sep as [|d sep]; [done|].
    simpl in Hs. injection Hs as <- Hs.
    rewrite Hs at 1. cbn [length]. rewrite Nat.sub_succ, Nat.sub_0_r.
    rewrite split_go_skip.
    pose proof (split_go_nonempty (c :: sep) 0 [] (drop (length sep) s))
      as Hne.
    destruct (split_go (c :: sep) 0 [] (drop (length sep) s))
      as [|p ps] eqn:Hsplit; [done|].
    change (join_with (c :: sep) (rev acc :: p :: ps))
      with (rev acc ++ (c :: sep) ++ join_with (c :: sep) (p :: ps)).
    rewrite <- Hsplit.
    rewrite (IH (length (drop (length sep) s))); [| |done|done].
    + simpl. rewrite Hs at 2. done.
    + simpl in Hlen. rewrite length_drop. lia.
  - rewrite (IH (length s)); [| |done|done].
    + simpl. by rewrite <- app_assoc.
    + simpl in Hlen. lia.
Qed.

Lemma split_two_inv (sep s part0 part1 : str) :
  sep ≠ [] → split sep s = [part0; part1] → s = part0 ++ sep ++ part1.
Proof.
  intros Hsep Hs.
  pose proof (join_split_go sep (length s) s [] eq_refl Hsep) as Hj.
  unfold split in Hs. rewrite Hs in Hj. simpl in Hj. done.
Qed.

Lemma op_char_not_space (c : ascii) : op_char c = true → is_space c = false.
Proof.
  unfold op_char, in_chars. simpl. rewrite !orb_true_iff.
  intros [H|[H|[H|[H|H]]]]; try done;
    apply ascii_eqb_eq in H as ->; reflexivity.
Qed.

Lemma operators_head (op : str) :
  op ∈ operators → ∃ c rest, op = c :: rest ∧ op_char c = true.
Proof.
  unfold operators. rewrite !elem_of_cons, elem_of_nil.
  intros [->|[->|[->|[->|[->|[->|[]]]]]]]; by eexists _, _.
Qed.

(** The part before the first operator character decides whether a
    condition can hold. *)
Lemma evaluate_condition_unknown (schema : list str)
    (tuple_data : list value) (lhs rest : str) (c0 : ascii) :
  forallb attr_name schema = true →
  plain lhs = true →
  op_char c0 = true →
  strip lhs ∉ schema →
  evaluate_condition (lhs ++ c0 :: rest) schema tuple_data = Ret false.
Proof.
  intros Hs Hl Hc0 Hno. apply evaluate_condition_loop_false.
  intros op p0 p1 Hop Hsplit.
  destruct (operators_head op Hop) as (o & op' & -> & Ho).
  apply split_two_inv in Hsplit; [|done].
  assert (∀ x, x ≠ [] → starts_ok (fun c => negb (op_char c)) x = true →
               strip (lhs ++ x) ∉ schema) as Hbad.
  { intros [|x0 x] Hx Hx0; [done|]. simpl in Hx0.
    apply negb_true_iff, negb_false_iff in Hx0.
    intros [Hp _]%(attr_name_spec schema _ Hs).
    rewrite plain_spec in Hp.
    assert (x0 ∈ strip (lhs ++ x0 :: x)) as Hin.
    { apply strip_elem_of; [|by apply op_char_not_space].
      apply elem_of_app. right. left. }
    specialize (Hp _ Hin). congruence. }
  apply app_eq_inv in Hsplit as [(k & Hlhs & Hk)|(k & -> & Hk)].
  - destruct k as [|k0 k].
    + rewrite app_nil_r in Hlhs. by subst.
    + exfalso. injection Hk as <- _.
      rewrite plain_spec in Hl. specialize (Hl o).
      rewrite Ho in Hl. discriminate Hl.
      rewrite Hlhs. apply elem_of_app. right. left.
  - destruct k as [|k0 k].
    + by rewrite app_nil_r.
    + injection Hk as <- _. apply Hbad; [done|].
      simpl. by rewrite Hc0.
Qed.

Lemma starts_ok_lstrip (p : ascii -> bool) (s : str) :
  starts_ok p (lstrip p s) = true.
Proof.
  induction s as [|c s IH]; [done|]. simpl.
  destruct (p c) eqn:Hc; [done|]. simpl. by rewrite Hc.
Qed.

Lemma ends_ok_cons (p : ascii -> bool) (c : ascii) (r : str) :
  r ≠ [] → ends_ok p (c :: r) = ends_ok p r.
Proof.
  intros Hr. unfold ends_ok. simpl.
  destruct r as [|d r _] using rev_ind; [done|].
  by rewrite rev_unit.
Qed.

Lemma ends_ok_rstrip (p : ascii -> bool) (s : str) :
  ends_ok p (rstrip p s) = true.
Proof.
  induction s as [|c s IH]; [done|]. simpl.
  destruct (rstrip p s) as [|d r] eqn:Hr.
  - destruct (p c) eqn:Hc; [done|]. unfold ends_ok. simpl. by rewrite Hc.
  - by rewrite ends_ok_cons.
Qed.

Lemma starts_ok_rstrip (p : ascii -> bool) (s : str) :
  starts_ok p s = true → starts_ok p (rstrip p s) = true.
Proof.
  destruct s as [|c s]; [done|]. simpl. intros Hc.
  destruct (rstrip p s); [|done].
  apply negb_true_iff in Hc. rewrite Hc. simpl. by rewrite Hc.
Qed.

Lemma strip_by_id (p : ascii -> bool) (s : str) :
  starts_ok p s = true → ends_ok p s = true → strip_by p s = s.
Proof.
  intros Hs He. rewrite <- (app_nil_r s) at 1.
  by apply (strip_by_pad p []).
Qed.

(** Stripping twice is stripping once. *)
Lemma strip_by_idempotent (p : ascii -> bool) (s : str) :
  strip_by p (strip_by p s) = strip_by p s.
Proof.
  apply strip_by_id; unfold strip_by.
  - apply starts_ok_rstrip, starts_ok_lstrip.
  - apply ends_ok_rstrip.
Qed.

Lemma plain_strip (s : str) : plain s = true → plain (strip s) = true.
Proof.
  rewrite !plain_spec. intros H c Hc. by apply H, strip_subseteq.
Qed.

(** X8: a condition that contains none of the characters [<], [>] and [=]
    is false on every tuple of every schema, without an exception even on
    a tuple shorter than the schema; a selection with such a condition
    returns the schema of the relation with no tuples. *)
Theorem evaluate_condition_no_operator (condition : str) :
  "<"%char ∉ condition → ">"%char ∉ condition → "="%char ∉ condition →
  (∀ schema tuple_data,
     evaluate_condition condition schema tuple_data = Ret false)
  ∧ (∀ (relations : store) n rel,
       relations !! n = Some rel →
       select_operation relations n condition
       = Ret (Some (Relation (attributes rel) []))).
Proof.
  intros Hlt Hgt Heq.
  assert (∀ schema tuple_data,
            evaluate_condition condition schema tuple_data = Ret false)
    as Hfalse.
  { intros schema tuple_data. unfold evaluate_condition, operators.
    rewrite !evaluate_condition_loop_skip;
      [done|by apply contains_absent2|by apply contains_absent..]. }
  split; [done|].
  intros relations n rel Hn.
  rewrite (select_operation_filter _ _ _ _ Hn).
  - do 3 f_equal. apply filter_false_nil. intros t _.
    by rewrite Hfalse.
  - apply Forall_forall. intros t _. exists false. apply Hfalse.
Qed.

(** X9: for a schema whose attribute names have no whitespace around
    them and no operator character, a condition whose text before its
    first operator character holds no operator character and, stripped,
    is not an attribute of the schema is false on every tuple, without an
    exception; a selection with such a condition on a relation of that
    schema returns the schema with no tuples. *)
Theorem evaluate_condition_unknown_attribute (schema : list str)
    (lhs rest : str) (c0 : ascii) :
  forallb attr_name schema = true →
  plain lhs = true →
  op_char c0 = true →
  strip lhs ∉ schema →
  (∀ tuple_data,
     evaluate_condition (lhs ++ c0 :: rest) schema tuple_data = Ret false)
  ∧ (∀ (relations : store) n rel,
       relations !! n = Some rel → attributes rel = schema →
       select_operation relations n (lhs ++ c0 :: rest)
       = Ret (Some (Relation schema []))).
Proof.
  intros Hs Hl Hc0 Hno.
  assert (∀ tuple_data,
            evaluate_condition (lhs ++ c0 :: rest) schema tuple_data
            = Ret false) as Hfalse.
  { intros tuple_data. by apply evaluate_condition_unknown. }
  split; [done|].
  intros relations n rel Hn <-.
  rewrite (select_operation_filter _ _ _ _ Hn).
  - do 3 f_equal. apply filter_false_nil. intros t _.
    by rewrite Hfalse.
  - apply Forall_forall. intros t _. exists false. apply Hfalse.
Qed.

(** X11: for a schema whose attribute names have no whitespace around
    them and no operator character, a text [lhs] without operator
    character that, stripped, is an attribute of the schema, and a
    literal [v] without operator character: the whitespace around [lhs]
    and around [v] does not change the evaluation of the condition
    [lhs op v], for each of the six operators. *)
Theorem evaluate_condition_blanks (schema : list str)
    (tuple_data : list value) (lhs v op : str) :
  forallb attr_name schema = true →
  plain lhs = true →
  strip lhs ∈ schema →
  plain v = true →
  op ∈ operators →
  evaluate_condition (lhs ++ op ++ v) schema tuple_data
  = evaluate_condition (strip lhs ++ op ++ strip v) schema tuple_data.
Proof.
  intros Hs Hl Ha Hv Hop.
  destruct (attr_name_spec schema (strip lhs) Hs Ha) as [_ Hstrip].
  rewrite (evaluate_condition_plain schema tuple_data lhs v Hs Hl Ha Hv)
    by done.
  rewrite (evaluate_condition_plain schema tuple_data (strip lhs) (strip v))
    ; [|done|by apply plain_strip|by rewrite Hstrip|by apply plain_strip
       |done].
  rewrite Hstrip. unfold strip at 4. by rewrite strip_by_idempotent.
Qed.

(** ** Projection, further *)

Lemma project_indices_filter (attrs schema : list str) :
  project_indices attrs schema
  = map (fun a => index a schema) (filter (fun a => a ∈ schema) attrs).
Proof.
  induction attrs as [|a attrs IH]; [done|]. simpl.
  rewrite filter_cons. destruct (decide (a ∈ schema)); simpl; by rewrite IH.
Qed.

Lemma mapM_getitem_projection (attrs schema : list str)
    (t t' : list value) :
  mapM (getitem t) (project_indices attrs schema) = Ret t'
  ↔ projection_of attrs schema t t'.
Proof.
  rewrite mapM_getitem_ret, project_indices_filter.
  unfold projection_of. by rewrite Forall2_fmap_l.
Qed.

Lemma projection_of_unique (attrs schema : list str)
    (t t1 t2 : list value) :
  projection_of attrs schema t t1 → projection_of attrs schema t t2 →
  t1 = t2.
Proof.
  unfold projection_of. generalize (filter (fun a => a ∈ schema) attrs).
  intros l H1. revert t2.
  induction H1 as [|a x l t1 Hx _ IH]; intros t2 H2.
  - by inversion H2.
  - inversion H2 as [|? y ? t2' Hy Hl2]; subst.
    f_equal; [congruence|by apply IH].
Qed.

(** X12: a relation returned by [project_operation] has the requested
    names as schema and, as tuples, the projections of the source tuples
    in their order with only the first occurrence of each kept: its tuples
    are pairwise different and no more than those of the source. *)
Theorem project_operation_spec (relations : store) (n : str)
    (attrs : list str) (rel rel' : relation) :
  relations !! n = Some rel →
  project_operation relations n attrs = Ret (Some rel') →
  attributes rel' = attrs
  ∧ (∃ ps, Forall2 (projection_of attrs (attributes rel)) (tuples rel) ps
           ∧ tuples rel' = dedup_first ps)
  ∧ NoDup (tuples rel')
  ∧ (∀ t', t' ∈ tuples rel'
           ↔ ∃ t, t ∈ tuples rel
                  ∧ projection_of attrs (attributes rel) t t')
  ∧ length (tuples rel') ≤ length (tuples rel).
Proof.
  intros Hn. rewrite (project_operation_ret _ _ _ _ Hn).
  intros (ps & Hps & [= <-])%bind_ret_inv. simpl.
  apply mapM_ret_Forall2 in Hps.
  assert (Forall2 (projection_of attrs (attributes rel)) (tuples rel) ps)
    as Hproj.
  { eapply Forall2_impl; [exact Hps|]. intros t t' Ht.
    by apply mapM_getitem_projection. }
  split_and!; [done|by exists ps|apply dedup_first_NoDup| |].
  - intros t'. rewrite dedup_first_elem_of. split.
    + intros (k & Hk)%list_elem_of_lookup.
      eapply Forall2_lookup_r in Hproj as (t & Ht & Htt'); [|exact Hk].
      exists t. split; [by eapply list_elem_of_lookup_2|done].
    + intros (t & (k & Hk)%list_elem_of_lookup & Ht).
      eapply Forall2_lookup_l in Hproj as (t'' & Ht'' & Htt''); [|exact Hk].
      rewrite <- (projection_of_unique _ _ _ _ _ Htt'' Ht).
      by eapply list_elem_of_lookup_2.
  - apply Forall2_length in Hps. rewrite Hps.
    apply sublist_length, dedup_first_sublist.
Qed.

Lemma index_NoDup (l : list str) (j : nat) (a : str) :
  NoDup l → l !! j = Some a → index a l = j.
Proof.
  intros Hnd. revert j. induction Hnd as [|b l Hb _ IH]; intros j; [done|].
  destruct j as [|j]; simpl.
  - intros [= ->]. by rewrite decide_True.
  - intros Hj. rewrite decide_False.
    + f_equal. by apply IH.
    + intros ->. apply Hb. by eapply list_elem_of_lookup_2.
Qed.

Lemma mapM_getitem_all (t : list value) (idx : list nat) :
  Forall2 (fun i x => t !! i = Some x) idx t → mapM (getitem t) idx = Ret t.
Proof. apply mapM_getitem_ret. Qed.

(** X13: projecting a relation onto its own schema, when the schema has
    no repeated name and every tuple has the length of the schema, returns
    the relation without its duplicate tuples. *)
Theorem project_operation_full_schema (relations : store) (n : str)
    (rel : relation) :
  relations !! n = Some rel →
  NoDup (attributes rel) →
  well_formed rel →
  project_operation relations n (attributes rel)
  = Ret (Some (Relation (attributes rel) (dedup_first (tuples rel)))).
Proof.
  intros Hn Hnd Hwf. rewrite (project_operation_ret _ _ _ _ Hn).
  assert (mapM (fun t => mapM (getitem t)
                 (project_indices (attributes rel) (attributes rel)))
            (tuples rel) = Ret (tuples rel)) as ->; [|done].
  apply mapM_ret_Forall2, Forall2_same_length_lookup. split; [done|].
  intros k t t2 Ht Ht2. assert (t2 = t) as -> by congruence.
  unfold well_formed in Hwf.
  eapply Forall_lookup in Hwf; [|exact Ht]. simpl in Hwf.
  apply mapM_getitem_all.
  rewrite project_indices_all by done.
  apply Forall2_same_length_lookup. split.
  { by rewrite length_map. }
  intros j i x Hi Hx. rewrite list_lookup_fmap in Hi.
  destruct (attributes rel !! j) as [a|] eqn:Ha; [|done].
  injection Hi as <-. by rewrite (index_NoDup _ j a).
Qed.

(** ** Natural join *)

Lemma join_valid_ret (attrs1 attrs2 : list str) (t1 t2 : list value)
    (common : list str) :
  Forall (fun a => a ∈ attrs1 ∧ a ∈ attrs2) common →
  length t1 = length attrs1 → length t2 = length attrs2 →
  join_valid attrs1 attrs2 t1 t2 common
  = Ret (bool_decide
           (Forall (fun a => t1 !! index a attrs1 = t2 !! index a attrs2)
              common)).
Proof.
  intros Hc H1 H2. induction Hc as [|a common [Ha1 Ha2] _ IH]; [done|].
  cbn [join_valid].
  pose proof (index_lt a attrs1 Ha1) as Hi1.
  pose proof (index_lt a attrs2 Ha2) as Hi2.
  rewrite <- H1 in Hi1. rewrite <- H2 in Hi2.
  apply lookup_lt_is_Some_2 in Hi1 as [v1 Hv1].
  apply lookup_lt_is_Some_2 in Hi2 as [v2 Hv2].
  unfold getitem. rewrite Hv1, Hv2. cbn [bind].
  unfold py_ne, py_eq. destruct (decide (v1 = v2)) as [->|Hne].
  - rewrite bool_decide_eq_true_2 by done. simpl. rewrite IH.
    f_equal. apply bool_decide_ext. rewrite Forall_cons.
    rewrite Hv1, Hv2. naive_solver.
  - rewrite bool_decide_eq_false_2 by done. simpl. f_equal. symmetry.
    apply bool_decide_eq_false_2. rewrite Forall_cons, Hv1, Hv2.
    naive_solver.
Qed.

Lemma join_extra_ret (attrs1 attrs2 : list str) (i : nat)
    (t2 : list value) :
  length t2 = i + length attrs2 →
  join_extra attrs1 attrs2 i t2
  = Ret (extra_values attrs1 attrs2 (drop i t2)).
Proof.
  revert i. induction attrs2 as [|a attrs2 IH]; intros i Hlen.
  - simpl. by destruct (drop i t2).
  - simpl in Hlen.
    assert (i < length t2) as Hi by lia.
    apply lookup_lt_is_Some_2 in Hi as [x Hx].
    rewrite (drop_S _ _ _ Hx). cbn [join_extra extra_values].
    destruct (decide (a ∉ attrs1)).
    + unfold getitem. rewrite Hx. cbn [bind].
      rewrite IH by lia. done.
    + rewrite IH by lia. done.
Qed.

Section NaturalJoin.

Variable set_iter : gset str -> list str.
Hypothesis set_iter_spec : ∀ X x, x ∈ set_iter X ↔ x ∈ X.

Lemma common_attrs_agree (attrs1 attrs2 : list str) (t1 t2 : list value) :
  Forall (fun a => t1 !! index a attrs1 = t2 !! index a attrs2)
    (set_iter (list_to_set attrs1 ∩ list_to_set attrs2))
  ↔ agree attrs1 attrs2 t1 t2.
Proof using set_iter_spec.
  unfold agree. rewrite !Forall_forall. split.
  - intros H a Ha1 Ha2. apply H, set_iter_spec.
    rewrite elem_of_intersection, !elem_of_list_to_set. done.
  - intros H a Ha. apply set_iter_spec in Ha.
    rewrite elem_of_intersection, !elem_of_list_to_set in Ha.
    destruct Ha as [Ha1 Ha2]. by apply H.
Qed.

Lemma join_inner_ret (attrs1 attrs2 : list str) (t1 : list value)
    (tuples2 : list (list value)) :
  length t1 = length attrs1 →
  Forall (fun t => length t = length attrs2) tuples2 →
  join_inner attrs1 attrs2
    (set_iter (list_to_set attrs1 ∩ list_to_set attrs2)) t1 tuples2
  = Ret (flat_map (fun t2 =>
           if decide (agree attrs1 attrs2 t1 t2)
           then [t1 ++ extra_values attrs1 attrs2 t2]
           else []) tuples2).
Proof using set_iter_spec.
  intros H1 H2. induction H2 as [|t2 tuples2 Ht2 _ IH]; [done|].
  cbn [join_inner flat_map].
  rewrite join_valid_ret; [|  |done|done].
  2:{ apply Forall_forall. intros a Ha%set_iter_spec.
      by rewrite elem_of_intersection, !elem_of_list_to_set in Ha. }
  cbn [bind]. rewrite IH.
  destruct (decide (agree attrs1 attrs2 t1 t2)) as [Hag|Hag].
  - rewrite bool_decide_eq_true_2 by (by apply common_attrs_agree).
    rewrite join_extra_ret by (by rewrite Ht2). done.
  - rewrite bool_decide_eq_false_2; [done|].
    by rewrite common_attrs_agree.
Qed.

Lemma join_outer_ret (attrs1 attrs2 : list str)
    (tuples1 tuples2 : list (list value)) :
  Forall (fun t => length t = length attrs1) tuples1 →
  Forall (fun t => length t = length attrs2) tuples2 →
  join_outer attrs1 attrs2
    (set_iter (list_to_set attrs1 ∩ list_to_set attrs2)) tuples1 tuples2
  = Ret (natural_join attrs1 attrs2 tuples1 tuples2).
Proof using set_iter_spec.
  intros H1 H2. induction H1 as [|t1 tuples1 Ht1 _ IH]; [done|].
  cbn [join_outer]. rewrite join_inner_ret by done. cbn [bind].
  by rewrite IH.
Qed.

(** The join of two relations whose tuples have the length of their
    schema. *)
Lemma join_operation_natural (relations : store) (n1 n2 : str)
    (condition : option str) (rel1 rel2 : relation) :
  relations !! n1 = Some rel1 → relations !! n2 = Some rel2 →
  well_formed rel1 → well_formed rel2 →
  join_operation set_iter relations n1 n2 condition
  = Ret (Some (Relation (join_attrs (attributes rel1) (attributes rel2))
                 (natural_join (attributes rel1) (attributes rel2)
                    (tuples rel1) (tuples rel2)))).
Proof using set_iter_spec.
  intros H1 H2 Hwf1 Hwf2. unfold join_operation. rewrite H1, H2.
  by rewrite join_outer_ret.
Qed.

End NaturalJoin.

Lemma elem_of_natural_join (attrs1 attrs2 : list str)
    (tuples1 tuples2 : list (list value)) (t : list value) :
  t ∈ natural_join attrs1 attrs2 tuples1 tuples2
  ↔ ∃ t1 t2, t1 ∈ tuples1 ∧ t2 ∈ tuples2 ∧ agree attrs1 attrs2 t1 t2
             ∧ t = t1 ++ extra_values attrs1 attrs2 t2.
Proof.
  unfold natural_join. rewrite list_elem_of_In, in_flat_map. split.
  - intros (t1 & Ht1 & Ht). apply in_flat_map in Ht as (t2 & Ht2 & Ht).
    destruct (decide (agree attrs1 attrs2 t1 t2)); [|done].
    destruct Ht as [<-|[]]. exists t1, t2.
    by rewrite !list_elem_of_In.
  - intros (t1 & t2 & Ht1 & Ht2 & Hag & ->).
    exists t1. split; [by apply list_elem_of_In|].
    apply in_flat_map. exists t2. split; [by apply list_elem_of_In|].
    rewrite decide_True by done. by left.
Qed.

Lemma join_attrs_spec (result_attrs attrs2 : list str) :
  result_attrs `prefix_of` join_attrs result_attrs attrs2
  ∧ (∀ a, a ∈ join_attrs result_attrs attrs2
          ↔ a ∈ result_attrs ∨ a ∈ attrs2)
  ∧ (NoDup result_attrs → NoDup (join_attrs result_attrs attrs2)).
Proof.
  revert result_attrs.
  induction attrs2 as [|b attrs2 IH]; intros result_attrs; simpl.
  - split_and!; [done|set_solver|done].
  - destruct (decide (b ∉ result_attrs)) as [Hb|Hb].
    + destruct (IH (result_attrs ++ [b])) as (Hp & Hm & Hnd).
      split_and!.
      * etrans; [|exact Hp]. by apply prefix_app_r.
      * intros a. rewrite Hm. set_solver.
      * intros H. apply Hnd. apply NoDup_app. split_and!; [done| |].
        -- intros x Hx ->%list_elem_of_singleton. done.
        -- apply NoDup_singleton.
    + apply dec_stable in Hb.
      destruct (IH result_attrs) as (Hp & Hm & Hnd).
      split_and!; [done| |done]. intros a. rewrite Hm. set_solver.
Qed.

Lemma join_inner_prefix (attrs1 attrs2 common : list str)
    (t1 : list value) (tuples2 out : list (list value)) :
  join_inner attrs1 attrs2 common t1 tuples2 = Ret out →
  Forall (fun t => t1 `prefix_of` t) out.
Proof.
  revert out. induction tuples2 as [|t2 tuples2 IH]; intros out; simpl.
  - by intros [= <-].
  - intros (valid & _ & H)%bind_ret_inv.
    apply bind_ret_inv in H as (here & Hhere & H).
    apply bind_ret_inv in H as (rest & Hrest & [= <-]).
    apply Forall_app. split; [|by apply IH].
    destruct valid; [|injection Hhere as <-; constructor].
    apply bind_ret_inv in Hhere as (extra & _ & [= <-]).
    repeat constructor. by apply prefix_app_r.
Qed.

Lemma join_outer_prefix (attrs1 attrs2 common : list str)
    (tuples1 tuples2 out : list (list value)) :
  join_outer attrs1 attrs2 common tuples1 tuples2 = Ret out →
  Forall (fun t => ∃ t1, t1 ∈ tuples1 ∧ t1 `prefix_of` t) out.
Proof.
  revert out. induction tuples1 as [|t1 tuples1 IH]; intros out; simpl.
  - by intros [= <-].
  - intros (here & Hhere & H)%bind_ret_inv.
    apply bind_ret_inv in H as (rest & Hrest & [= <-]).
    apply Forall_app. split.
    + apply join_inner_prefix in Hhere.
      eapply Forall_impl; [exact Hhere|]. intros t Ht. exists t1.
      split; [left|done].
    + eapply Forall_impl; [by apply IH|]. intros t (t0 & Ht0 & Hp).
      exists t0. split; [by right|done].
Qed.

Lemma flat_map_ext_elem {A B} (f g : A -> list B) (l : list A) :
  (∀ x, x ∈ l → f x = g x) → flat_map f l = flat_map g l.
Proof.
  induction l as [|x l IH]; intros H; [done|]. simpl.
  rewrite (H x) by left. f_equal. apply IH. intros y Hy. apply H. by right.
Qed.

Lemma flat_map_singleton {A B} (f : A -> B) (l : list A) :
  flat_map (fun x => [f x]) l = map f l.
Proof. induction l as [|x l IH]; [done|]. simpl. by rewrite IH. Qed.

Lemma extra_values_disjoint (attrs1 attrs2 : list str) (t2 : list value) :
  (∀ a, a ∈ attrs2 → a ∉ attrs1) → length t2 = length attrs2 →
  extra_values attrs1 attrs2 t2 = t2.
Proof.
  revert t2. induction attrs2 as [|a attrs2 IH]; intros t2 Hd Hlen.
  - by destruct t2.
  - destruct t2 as [|x t2]; [done|]. simpl.
    rewrite decide_True by (apply Hd; left). f_equal.
    apply IH; [|by injection Hlen]. intros b Hb. apply Hd. by right.
Qed.

Lemma extra_values_covered (attrs1 attrs2 : list str) (t2 : list value) :
  (∀ a, a ∈ attrs2 → a ∈ attrs1) → extra_values attrs1 attrs2 t2 = [].
Proof.
  revert t2. induction attrs2 as [|a attrs2 IH]; intros t2 Hc.
  - by destruct t2.
  - destruct t2 as [|x t2]; [done|]. simpl.
    rewrite decide_False by (intros Hno; apply Hno, Hc; left).
    apply IH. intros b Hb. apply Hc. by right.
Qed.

Lemma join_attrs_disjoint (attrs1 attrs2 : list str) :
  (∀ a, a ∈ attrs2 → a ∉ attrs1) → NoDup attrs2 →
  join_attrs attrs1 attrs2 = attrs1 ++ attrs2.
Proof.
  intros Hd Hnd. revert attrs1 Hd.
  induction Hnd as [|b attrs2 Hb _ IH]; intros attrs1 Hd; simpl.
  - by rewrite app_nil_r.
  - rewrite decide_True by (apply Hd; left).
    rewrite IH; [by rewrite <- app_assoc|].
    intros a Ha. rewrite elem_of_app, list_elem_of_singleton.
    intros [H| ->]; [|done]. by apply (Hd a); [right|].
Qed.

Lemma join_attrs_covered (attrs1 attrs2 : list str) :
  (∀ a, a ∈ attrs2 → a ∈ attrs1) → join_attrs attrs1 attrs2 = attrs1.
Proof.
  induction attrs2 as [|b attrs2 IH]; intros Hc; [done|]. simpl.
  rewrite decide_False by (intros Hno; apply Hno, Hc; left).
  apply IH. intros a Ha. apply Hc. by right.
Qed.

(** On tuples of the length of a schema without repeated names, agreeing
    on every attribute is being equal. *)
Lemma agree_self (attrs : list str) (t1 t2 : list value) :
  NoDup attrs → length t1 = length attrs → length t2 = length attrs →
  agree attrs attrs t1 t2 ↔ t1 = t2.
Proof.
  intros Hnd H1 H2. unfold agree. rewrite Forall_forall. split.
  - intros H. apply list_eq. intros j.
    destruct (attrs !! j) as [a|] eqn:Ha.
    + rewrite <- (index_NoDup attrs j a Hnd Ha).
      apply H; by eapply list_elem_of_lookup_2.
    + apply lookup_ge_None in Ha.
      rewrite !lookup_ge_None_2 by lia. done.
  - by intros -> a _ _.
Qed.

Lemma flat_map_self (attrs : list str) (ts : list (list value))
    (t1 : list value) :
  NoDup attrs → Forall (fun t => length t = length attrs) ts →
  length t1 = length attrs →
  flat_map (fun t2 =>
    if decide (agree attrs attrs t1 t2)
    then [t1 ++ extra_values attrs attrs t2] else []) ts
  = filter (fun t2 => t2 = t1) ts.
Proof.
  intros Hnd Hall H1. induction Hall as [|t2 ts Ht2 _ IH]; [done|].
  simpl. rewrite filter_cons, IH.
  rewrite extra_values_covered by done. rewrite app_nil_r.
  destruct (decide (agree attrs attrs t1 t2)) as [Hag|Hag].
  - apply agree_self in Hag as <-; [|done..]. by rewrite decide_True.
  - rewrite decide_False; [done|]. intros ->. apply Hag.
    by apply agree_self.
Qed.

Lemma filter_eq_NoDup (ts : list (list value)) (t1 : list value) :
  NoDup ts → t1 ∈ ts → filter (fun t2 => t2 = t1) ts = [t1].
Proof.
  induction 1 as [|t ts Ht _ IH]; [by inversion 1|].
  rewrite filter_cons. intros [->|Hin]%elem_of_cons.
  - rewrite decide_True by done. f_equal.
    apply filter_false_nil. intros t0 Hin ->. done.
  - rewrite decide_False by (intros ->; done). by apply IH.
Qed.

Section JoinProperties.

Variable set_iter : gset str -> list str.

(** X14: the attributes and tuples of a join.  The schema of a relation
    returned by [join_operation] begins with the schema of the first
    operand and holds exactly the names of the two schemas, without
    repetition when the first schema has none; and every tuple of the
    result begins with a tuple of the first operand. *)
Theorem join_operation_shape (relations : store) (n1 n2 : str)
    (condition : option str) (rel1 rel2 rel' : relation) :
  relations !! n1 = Some rel1 →
  relations !! n2 = Some rel2 →
  join_operation set_iter relations n1 n2 condition = Ret (Some rel') →
  attributes rel1 `prefix_of` attributes rel'
  ∧ (∀ a, a ∈ attributes rel'
          ↔ a ∈ attributes rel1 ∨ a ∈ attributes rel2)
  ∧ (NoDup (attributes rel1) → NoDup (attributes rel'))
  ∧ Forall (fun t => ∃ t1, t1 ∈ tuples rel1 ∧ t1 `prefix_of` t)
      (tuples rel').
Proof.
  intros H1 H2. unfold join_operation. rewrite H1, H2.
  intros (ts & Hts & [= <-])%bind_ret_inv. simpl.
  destruct (join_attrs_spec (attributes rel1) (attributes rel2))
    as (Hp & Hm & Hnd).
  split_and!; [done|done|done|]. by eapply join_outer_prefix.
Qed.

Hypothesis set_iter_spec : ∀ X x, x ∈ set_iter X ↔ x ∈ X.

(** X15: the natural join.  When the tuples of both relations have the
    length of their schema, [join_operation] returns, and its tuples are
    the combinations, in the order of the nested loop, of a tuple of the
    first relation with the extra values of a tuple of the second that
    agrees with it on every attribute the two schemas share. *)
Theorem join_operation_spec (relations : store) (n1 n2 : str)
    (condition : option str) (rel1 rel2 : relation) :
  relations !! n1 = Some rel1 →
  relations !! n2 = Some rel2 →
  well_formed rel1 →
  well_formed rel2 →
  ∃ result_tuples,
    join_operation set_iter relations n1 n2 condition
    = Ret (Some (Relation (join_attrs (attributes rel1) (attributes rel2))
                   result_tuples))
    ∧ result_tuples
      = natural_join (attributes rel1) (attributes rel2)
          (tuples rel1) (tuples rel2)
    ∧ ∀ t, t ∈ result_tuples
           ↔ ∃ t1 t2, t1 ∈ tuples rel1 ∧ t2 ∈ tuples rel2
                      ∧ agree (attributes rel1) (attributes rel2) t1 t2
                      ∧ t = t1 ++ extra_values (attributes rel1)
                                    (attributes rel2) t2.
Proof using set_iter_spec.
  intros H1 H2 Hwf1 Hwf2. eexists.
  split; [by apply join_operation_natural|]. split; [done|].
  apply elem_of_natural_join.
Qed.

(** X16: when the tuples of both relations have the length of their
    schema, the second schema has no repeated name and the two schemas
    have no name in common, the join is the product: it returns every
    tuple of the first relation followed by every tuple of the second, as
    many tuples as the product of the two counts, under the first schema
    followed by the second. *)
Theorem join_operation_product (relations : store) (n1 n2 : str)
    (condition : option str) (rel1 rel2 : relation) :
  relations !! n1 = Some rel1 →
  relations !! n2 = Some rel2 →
  well_formed rel1 →
  well_formed rel2 →
  NoDup (attributes rel2) →
  (∀ a, a ∈ attributes rel2 → a ∉ attributes rel1) →
  ∃ result_tuples,
    join_operation set_iter relations n1 n2 condition
    = Ret (Some (Relation (attributes rel1 ++ attributes rel2)
                   result_tuples))
    ∧ result_tuples
      = flat_map (fun t1 => map (fun t2 => t1 ++ t2) (tuples rel2))
          (tuples rel1)
    ∧ length result_tuples = length (tuples rel1) * length (tuples rel2).
Proof using set_iter_spec.
  intros H1 H2 Hwf1 Hwf2 Hnd Hd.
  assert (natural_join (attributes rel1) (attributes rel2)
            (tuples rel1) (tuples rel2)
          = flat_map (fun t1 => map (fun t2 => t1 ++ t2) (tuples rel2))
              (tuples rel1)) as Hnj.
  { unfold natural_join. apply flat_map_ext_elem. intros t1 Ht1.
    rewrite <- flat_map_singleton. apply flat_map_ext_elem.
    intros t2 Ht2. unfold well_formed in Hwf2.
    eapply Forall_forall in Hwf2; [|exact Ht2].
    rewrite extra_values_disjoint by done.
    rewrite decide_True; [done|].
    apply Forall_forall. intros a Ha1 Ha2. by apply Hd in Ha2. }
  eexists. split_and!.
  - rewrite (join_operation_natural set_iter set_iter_spec _ _ _ _ _ _
               H1 H2 Hwf1 Hwf2).
    by rewrite join_attrs_disjoint, Hnj.
  - done.
  - apply flat_map_constant_length. intros t1 _. apply length_map.
Qed.

(** X17: the join of a relation with itself.  When the schema has no
    repeated name, the tuples have the length of the schema and no tuple
    occurs twice, the join of the relation with itself is the relation. *)
Theorem join_operation_self (relations : store) (n : str)
    (condition : option str) (rel : relation) :
  relations !! n = Some rel →
  well_formed rel →
  NoDup (attributes rel) →
  NoDup (tuples rel) →
  join_operation set_iter relations n n condition = Ret (Some rel).
Proof using set_iter_spec.
  intros Hn Hwf Hnd Hts.
  rewrite (join_operation_natural set_iter set_iter_spec _ _ _ _ _ _
             Hn Hn Hwf Hwf).
  rewrite join_attrs_covered by done.
  destruct rel as [attrs ts]. simpl in *. do 3 f_equal.
  unfold natural_join, well_formed in *. simpl in *.
  rewrite (flat_map_ext_elem _ (fun t1 => [t1])).
  - rewrite flat_map_singleton. apply map_id.
  - intros t1 Ht1.
    rewrite flat_map_self; [|done|done|].
    + by apply filter_eq_NoDup.
    + by eapply Forall_forall in Hwf; [|exact Ht1].
Qed.

End JoinProperties.

(** ** Nested queries *)

Lemma lstrip_decomp (p : ascii -> bool) (s : str) :
  ∃ ws, forallb p ws = true ∧ s = ws ++ lstrip p s.
Proof.
  induction s as [|c s (ws & Hws & IH)]; [by exists []|]. simpl.
  destruct (p c) eqn:Hc; [|by exists []].
  exists (c :: ws). simpl. rewrite Hc, Hws. split; [done|]. by f_equal.
Qed.

Lemma rstrip_decomp (p : ascii -> bool) (s : str) :
  ∃ ws, forallb p ws = true ∧ s = rstrip p s ++ ws.
Proof.
  induction s as [|c s (ws & Hws & IH)]; [by exists []|]. simpl.
  destruct (rstrip p s) as [|d r] eqn:Hr.
  - destruct (p c) eqn:Hc.
    + exists (c :: ws). simpl. rewrite Hc, Hws. split; [done|].
      by rewrite IH at 1.
    + exists ws. split; [done|]. simpl. by rewrite IH at 1.
  - exists ws. split; [done|]. simpl. by rewrite IH at 1.
Qed.

Lemma forallb_app_true (p : ascii -> bool) (s1 s2 : str) :
  forallb p s1 = true → forallb p s2 = true → forallb p (s1 ++ s2) = true.
Proof. intros H1 H2. rewrite forallb_app. by rewrite H1, H2. Qed.

(** Whitespace around a string does not change what [strip] gives. *)
Lemma strip_by_around (p : ascii -> bool) (pre s suf : str) :
  forallb p pre = true → forallb p suf = true →
  strip_by p (pre ++ s ++ suf) = strip_by p s.
Proof.
  intros Hpre Hsuf.
  destruct (lstrip_decomp p s) as (ws1 & Hws1 & H1).
  destruct (rstrip_decomp p (lstrip p s)) as (ws2 & Hws2 & H2).
  fold (strip_by p s) in H2.
  rewrite H1 at 1. rewrite H2 at 1.
  replace (pre ++ (ws1 ++ strip_by p s ++ ws2) ++ suf)
    with ((pre ++ ws1) ++ strip_by p s ++ (ws2 ++ suf))
    by (by rewrite <- !app_assoc).
  apply strip_by_pad.
  - by apply forallb_app_true.
  - by apply forallb_app_true.
  - apply starts_ok_rstrip, starts_ok_lstrip.
  - apply ends_ok_rstrip.
Qed.

(** The pattern of a nested rule on [keyword args (inner)], whatever
    the text [inner] between the first opening parenthesis and the last
    closing one. *)
Lemma nested_re_nested (keyword args inner : str) :
  args ≠ [] → forallb dot args = true → "("%char ∉ args →
  starts_ok is_space args = true → ends_ok is_space args = true →
  inner ≠ [] → forallb dot inner = true →
  starts_ok is_space inner = true →
  re_match (nested_re keyword)
    (keyword ++ lit " " ++ args ++ lit " (" ++ inner ++ lit ")")
  = Some [(2, inner); (1, args)].
Proof.
  intros Hargs Hdot Hno Hs He Hinner Hidot His.
  unfold re_match, nested_re. rewrite !seqs_cons.
  generalize (keyword ++ lit " " ++ args ++ lit " (" ++ inner ++ lit ")")
    at 1. intros whole.
  rewrite rmatch_seq, rmatch_Str. cbn [rmatch seqs foldr].
  apply (rep_greedy_max is_space 1 (lit " ")); [done| |done|].
  { destruct args; [done|]. done. }
  apply (rep_lazy_first dot args); [done|done| |].
  - intros u1 u2 -> Hu1 Hu2.
    match goal with |- ?lhs = None => destruct lhs as [m|] eqn:Hm end;
      [|done].
    exfalso.
    apply rep_greedy_inv in Hm as (pre & t & Heq & _ & Hpre & Hm).
    destruct t as [|a t]; [done|].
    destruct (is_char "(" a) eqn:Ha; [|done].
    apply ascii_eqb_eq in Ha as ->.
    apply (no_paren_after_spaces u2 (lit " (" ++ inner ++ lit ")") pre t);
      try done.
    + by eapply ends_ok_suffix.
    + intros H. apply Hno. apply elem_of_app. by right.
  - apply (rep_greedy_max is_space 0 (lit " ")); [done|done|simpl; lia|].
    cbn [is_char]. replace (ascii_eqb "(" "(") with true by done.
    apply (rep_greedy_max is_space 0 []);
      [done|by destruct inner|simpl; lia|].
    apply (rep_greedy_back dot 1 inner ")");
      [done|done|destruct inner; [done|simpl; lia]|done|].
    change (Some [(2, take (length (inner ++ lit ")") - length (lit ")"))
                        (inner ++ lit ")"));
                  (1, take (length (args ++ lit " (" ++ inner ++ lit ")")
                            - length (lit " (" ++ inner ++ lit ")"))
                        (args ++ lit " (" ++ inner ++ lit ")"))]
            = Some [(2, inner); (1, args)]).
    by rewrite !take_prefix.
Qed.

(** [^\w+$] accepts no text that has a character outside the word
    characters and no line end. *)
Lemma name_re_not_word (s : str) :
  forallb dot s = true → forallb is_word s = false →
  re_match name_re s = None.
Proof.
  intros Hdot Hw. destruct (re_match name_re s) as [m|] eqn:Hm; [|done].
  exfalso. unfold re_match, name_re in Hm. rewrite !seqs_cons in Hm.
  rewrite rmatch_seq in Hm. cbn [rmatch] in Hm.
  rewrite Nat.eqb_refl in Hm.
  apply rep_greedy_inv in Hm as (pre & rest & -> & _ & Hpre & Hm).
  rewrite forallb_app in Hdot, Hw.
  rewrite Hpre in Hw. simpl in Hw.
  destruct rest as [|a [|b rest]]; [done| |done].
  simpl in Hdot. unfold dot in Hdot.
  destruct (ascii_eqb a newline); [|done].
  by rewrite andb_false_r in Hdot.
Qed.

Lemma nested_rule_mono (recurse recurse' : store -> str -> option answer)
    (keyword : str)
    (operation : str -> store -> str -> outcome (option relation))
    (otherwise otherwise' : store -> option answer) (relations : store)
    (query : str) (a : answer) :
  (∀ rels q b, recurse rels q = Some b → recurse' rels q = Some b) →
  (∀ rels b, otherwise rels = Some b → otherwise' rels = Some b) →
  nested_rule recurse keyword operation otherwise relations query = Some a →
  nested_rule recurse' keyword operation otherwise' relations query = Some a.
Proof.
  intros Hrec Hoth. unfold nested_rule.
  destruct (re_match (nested_re keyword) query) as [m|]; [|by apply Hoth].
  case_bool_decide; [done|].
  destruct (recurse relations (strip (group m 2))) as [[rels' o]|] eqn:Hr;
    [|done].
  rewrite (Hrec _ _ _ Hr).
  destruct o as [[r|]|e]; [done| |done]. by apply Hoth.
Qed.

Section NestedQueries.

Variable set_iter : gset str -> list str.

(** More fuel does not change an answer. *)
Lemma parse_query_fuel_mono (fuel fuel' : nat) (relations : store)
    (query : str) (a : answer) :
  fuel ≤ fuel' →
  parse_query_fuel set_iter fuel relations query = Some a →
  parse_query_fuel set_iter fuel' relations query = Some a.
Proof.
  revert fuel' relations query a.
  induction fuel as [|fuel IH]; intros fuel' relations query a Hle;
    [done|].
  destruct fuel' as [|fuel']; [lia|]. cbn [parse_query_fuel].
  apply nested_rule_mono.
  - intros rels q b. apply IH. lia.
  - intros rels b. apply nested_rule_mono; [|done].
    intros rels0 q b0. apply IH. lia.
Qed.

Lemma parse_query_fuel_strip (fuel : nat) (relations : store)
    (query : str) :
  parse_query_fuel set_iter fuel relations (strip query)
  = parse_query_fuel set_iter fuel relations query.
Proof.
  destruct fuel as [|fuel]; [done|]. cbn [parse_query_fuel].
  unfold strip. by rewrite strip_by_idempotent.
Qed.

(** Any fuel above the length of the stripped query gives the answer of
    [parse_query]. *)
Lemma parse_query_fuel_parse_query (fuel : nat) (relations : store)
    (query : str) :
  length (strip query) < fuel →
  parse_query_fuel set_iter fuel relations query
  = parse_query set_iter relations query.
Proof.
  intros Hlen.
  destruct (parse_query_fuel_enough set_iter (S (length (strip query)))
              relations (strip query)) as [a Ha]; [lia|].
  pose proof (strip_length query) as Hsl.
  unfold parse_query.
  rewrite <- (parse_query_fuel_strip fuel).
  rewrite <- (parse_query_fuel_strip (S (length query))).
  rewrite (parse_query_fuel_mono _ fuel _ _ _ Hlen Ha).
  assert (S (length (strip query)) ≤ S (length query)) as Hle by lia.
  by rewrite (parse_query_fuel_mono _ _ _ _ _ Hle Ha).
Qed.

Lemma binary_rules_other (relations : store) (c : ascii) (rest : str) :
  c = "s"%char ∨ c = "p"%char →
  binary_rules set_iter relations (c :: rest) = Ret None.
Proof. by intros [-> | ->]. Qed.

(** A nested rule on [keyword args (inner)] where [inner] is not a bare
    name: the nested query is evaluated, and the operation of the rule is
    applied to its result by [execute_on_result]. *)
Lemma nested_rule_nested (fuel : nat) (keyword : str)
    (operation : str -> store -> str -> outcome (option relation))
    (otherwise : store -> option answer) (relations : store)
    (args inner : str) :
  args ≠ [] → forallb dot args = true → "("%char ∉ args →
  starts_ok is_space args = true → ends_ok is_space args = true →
  forallb dot inner = true → forallb is_word inner = false →
  starts_ok is_space inner = true → ends_ok is_space inner = true →
  length inner < fuel →
  nested_rule (parse_query_fuel set_iter fuel) keyword operation otherwise
    relations (keyword ++ lit " " ++ args ++ lit " (" ++ inner ++ lit ")")
  = match parse_query set_iter relations inner with
    | Some (relations', Ret (Some inner_result)) =>
        Some (execute_on_result relations' (Some inner_result)
                (operation args))
    | Some (relations', Ret None) => otherwise relations'
    | Some (relations', Raise e) => Some (relations', Raise e)
    | None => None
    end.
Proof.
  intros Hargs Hdot Hno Hs He Hidot Hiw His Hie Hlen.
  assert (inner ≠ []) as Hinner by (by intros ->).
  unfold nested_rule. rewrite nested_re_nested by done.
  cbn [group Nat.eqb]. rewrite (strip_id inner), (strip_id args) by done.
  rewrite name_re_not_word by done.
  rewrite bool_decide_eq_false_2 by (by intros [? ?]).
  rewrite parse_query_fuel_parse_query; [done|].
  by rewrite strip_id.
Qed.

(** X18: a nested query is the composition of its parts.  For a
    condition or attribute list [args] that is not empty, holds no
    opening parenthesis and no line end and has no whitespace at its
    ends, and an inner query [inner] that holds no line end, has no
    whitespace at its ends and has a character that is not a word
    character (so it is not a bare name), [select args (inner)] and
    [project args (inner)] evaluate [inner] first; when it yields a
    relation the operator is applied to that relation, staged by
    [execute_on_result]; when it yields nothing or raises, so does the
    whole query. *)
Theorem nested_query_composes (relations : store) (args inner : str) :
  args ≠ [] → forallb dot args = true → "("%char ∉ args →
  starts_ok is_space args = true → ends_ok is_space args = true →
  forallb dot inner = true → forallb is_word inner = false →
  starts_ok is_space inner = true → ends_ok is_space inner = true →
  parse_query set_iter relations
    (lit "select " ++ args ++ lit " (" ++ inner ++ lit ")")
  = match parse_query set_iter relations inner with
    | Some (relations', Ret (Some inner_result)) =>
        Some (execute_on_result relations' (Some inner_result)
                (fun rels n => select_operation rels n args))
    | other => other
    end
  ∧ parse_query set_iter relations
      (lit "project " ++ args ++ lit " (" ++ inner ++ lit ")")
    = match parse_query set_iter relations inner with
      | Some (relations', Ret (Some inner_result)) =>
          Some (execute_on_result relations' (Some inner_result)
                  (fun rels n =>
                     project_operation rels n
                       (map strip (split (lit ",") args))))
      | other => other
      end.
Proof.
  intros Hargs Hdot Hno Hs He Hidot Hiw His Hie. split.
  - unfold parse_query at 1. cbn [parse_query_fuel].
    change (lit "select " ++ args ++ lit " (" ++ inner ++ lit ")")
      with (lit "select" ++ lit " " ++ args ++ lit " (" ++ inner
            ++ lit ")").
    rewrite parenthesized_strip by done.
    rewrite nested_rule_no_match by done.
    rewrite nested_rule_nested; [|done..|].
    + destruct (parse_query set_iter relations inner)
        as [[rels' [[r|]|e]]|]; done.
    + rewrite !length_app. simpl. lia.
  - unfold parse_query at 1. cbn [parse_query_fuel].
    change (lit "project " ++ args ++ lit " (" ++ inner ++ lit ")")
      with (lit "project" ++ lit " " ++ args ++ lit " (" ++ inner
            ++ lit ")").
    rewrite parenthesized_strip by done.
    rewrite nested_rule_nested; [|done..|].
    + destruct (parse_query set_iter relations inner)
        as [[rels' [[r|]|e]]|]; [done| |done|done].
      by rewrite nested_rule_no_match by done.
    + rewrite !length_app. simpl. lia.
Qed.

(** X19: whitespace around a query is ignored. *)
Theorem parse_query_whitespace (relations : store) (pre query post : str) :
  forallb is_space pre = true → forallb is_space post = true →
  parse_query set_iter relations (pre ++ query ++ post)
  = parse_query set_iter relations query.
Proof.
  intros Hpre Hpost.
  assert (∀ q, parse_query set_iter relations q
               = parse_query set_iter relations (strip q)) as Hstrip.
  { intros q. rewrite <- (parse_query_fuel_parse_query
                            (S (length (strip q))) relations q) by lia.
    rewrite <- parse_query_fuel_strip.
    apply parse_query_fuel_parse_query.
    unfold strip. rewrite strip_by_idempotent. lia. }
  rewrite (Hstrip (pre ++ query ++ post)), (Hstrip query).
  unfold strip. by rewrite strip_by_around.
Qed.

(** X20: the queries of a run do not affect one another.  When the
    store has no entry under the reserved name, [main_loop] writes a
    result for every query exactly when every query, evaluated on its own
    on the initial store, returns; the results written are those each
    query returns on its own, and each leaves the store as it was. *)
Theorem main_loop_independent (relations : store) (queries : list str)
    (written : list (option relation)) :
  relations !! temp_name = None →
  main_loop set_iter relations queries = Some (written, None)
  ↔ Forall2 (fun query result =>
       parse_query set_iter relations query
       = Some (relations, Ret result)) queries written.
Proof.
  intros Htemp. revert written.
  induction queries as [|query queries IH]; intros written; simpl.
  - split.
    + intros [= <-]. constructor.
    + by intros ->%Forall2_nil_inv_l.
  - split.
    + destruct (parse_query set_iter relations query)
        as [[rels' [result|e]]|] eqn:Hq; [|done..].
      assert (rels' = relations) as ->
        by (by eapply parse_query_fuel_store).
      destruct (main_loop set_iter relations queries)
        as [[written' e]|] eqn:Hm; [|done].
      intros [= <- ->]. constructor; [done|]. by apply IH.
    + intros (result & written' & Hq & Hrest & ->)%Forall2_cons_inv_l.
      rewrite Hq. apply IH in Hrest. by rewrite Hrest.
Qed.

End NestedQueries.

(** ** Definitions of relations *)

(** What a match of the header pattern says about the text. *)
Lemma header_re_inv (text : str) (m : caps) :
  re_match header_re text = Some m →
  ∃ name ws1 attrs ws2 ws3 rest,
    text = name ++ ws1 ++ "("%char :: attrs ++ ")"%char :: ws2
           ++ "="%char :: ws3 ++ "{"%char :: rest
    ∧ m = [(2, attrs); (1, name)]
    ∧ name ≠ [] ∧ forallb is_word name = true
    ∧ forallb is_space ws1 = true
    ∧ attrs ≠ [] ∧ forallb (not_char ")") attrs = true
    ∧ forallb is_space ws2 = true ∧ forallb is_space ws3 = true.
Proof.
  unfold re_match, header_re. rewrite !seqs_cons.
  generalize text at 1. intros whole Hm.
  rewrite rmatch_seq in Hm. cbn [rmatch] in Hm.
  apply rep_greedy_inv in Hm as (name & s1 & -> & Hname & Hword & Hm).
  rewrite take_prefix in Hm.
  apply rep_greedy_inv in Hm as (ws1 & s2 & -> & _ & Hws1 & Hm).
  destruct s2 as [|a s2]; [done|].
  destruct (is_char "(" a) eqn:Ha; [|done].
  apply ascii_eqb_eq in Ha as ->.
  apply rep_greedy_inv in Hm as (attrs & s3 & -> & Hattrs & Hnot & Hm).
  rewrite take_prefix in Hm.
  destruct s3 as [|b s3]; [done|].
  destruct (is_char ")" b) eqn:Hb; [|done].
  apply ascii_eqb_eq in Hb as ->.
  apply rep_greedy_inv in Hm as (ws2 & s4 & -> & _ & Hws2 & Hm).
  destruct s4 as [|c s4]; [done|].
  destruct (is_char "=" c) eqn:Hc; [|done].
  apply ascii_eqb_eq in Hc as ->.
  apply rep_greedy_inv in Hm as (ws3 & s5 & -> & _ & Hws3 & Hm).
  destruct s5 as [|d s5]; [done|].
  destruct (is_char "{" d) eqn:Hd; [|done].
  apply ascii_eqb_eq in Hd as ->.
  injection Hm as <-.
  exists name, ws1, attrs, ws2, ws3, s5.
  split_and!; try done.
  - intros ->. simpl in Hname. lia.
  - intros ->. simpl in Hattrs. lia.
Qed.

Lemma rfind_None (c : ascii) (s : str) : c ∉ s → rfind c s = None.
Proof.
  induction s as [|a s IH]; [done|].
  intros [Hne Hs]%not_elem_of_cons. simpl. rewrite IH by done.
  destruct (ascii_eqb a c) eqn:Hac; [|done].
  by apply ascii_eqb_eq in Hac.
Qed.

(** The pieces of a string split at commas and stripped are stripped. *)
Lemma strip_strip (s : str) : strip (strip s) = strip s.
Proof. apply strip_by_idempotent. Qed.

(** X21: what a definition does to the store.  [parse_relation] either
    leaves the store as it is, or binds one name and changes no other
    entry.  The name bound is a non-empty run of word characters with
    which the text begins, so that a query can name the relation; the
    schema bound has at least one attribute name and none of the names
    has whitespace around it. *)
Theorem parse_relation_defines (relations : store) (text : str) :
  parse_relation relations text = relations
  ∨ ∃ name rel,
      parse_relation relations text = <[name := rel]> relations
      ∧ name ≠ [] ∧ forallb is_word name = true
      ∧ name `prefix_of` text
      ∧ is_Some (re_match name_re name)
      ∧ attributes rel ≠ []
      ∧ Forall (fun attr => strip attr = attr) (attributes rel).
Proof.
  unfold parse_relation.
  destruct (re_match header_re text) as [m|] eqn:Hm; [|by left].
  destruct (find "{" text) as [start|]; [|by left].
  destruct (rfind "}" text) as [end_|]; [|by left].
  right.
  apply header_re_inv in Hm
    as (name & ws1 & attrs & ws2 & ws3 & rest & -> & -> & Hname & Hword
        & _).
  eexists name, _. split; [done|]. simpl.
  split_and!; try done.
  - by apply prefix_app_r.
  - by apply name_re_word.
  - intros Hnil%fmap_nil_inv. by eapply split_go_nonempty.
  - apply Forall_forall. intros a (x & -> & _)%list_elem_of_fmap.
    apply strip_strip.
Qed.

(** A text that lacks one of the characters of a definition defines
    nothing. *)
Lemma parse_relation_lacking (relations : store) (text : str) (c : ascii) :
  c ∈ lit "()={}" → c ∉ text →
  parse_relation relations text = relations.
Proof.
  intros Hc Hno. unfold parse_relation.
  destruct (re_match header_re text) as [m|] eqn:Hm; [|done].
  apply header_re_inv in Hm
    as (name & ws1 & attrs & ws2 & ws3 & rest & -> & -> & _).
  destruct (find "{" _) as [start|]; [|done].
  destruct (decide (c = "}"%char)) as [->|Hne].
  { by rewrite rfind_None. }
  exfalso. apply Hno.
  cbn [lit list_ascii_of_string] in Hc.
  rewrite !elem_of_cons in Hc.
  destruct Hc as [->|[->|[->|[->|[->|Hc]]]]];
    [set_solver..|done|].
  by apply elem_of_nil in Hc.
Qed.

(** X22: a text that lacks one of the characters [( ) = { }] defines
    nothing. *)
Theorem parse_relation_incomplete (relations : store) (text : str)
    (c : ascii) :
  c ∈ lit "()={}" → c ∉ text →
  parse_relation relations text = relations.
Proof. by apply parse_relation_lacking. Qed.

(** ** Writing results *)

Lemma int_digits_acc (d : Decimal.uint) :
  ∀ (p : positive) (b : bool), b = true ∨ d ≠ Decimal.Nil →
    int_digits (Z.pos p) b (lit (DecimalString.NilEmpty.string_of_uint d))
    = Some (Z.pos (Pos.of_uint_acc d p)).
Proof.
  induction d as [|d IH|d IH|d IH|d IH|d IH|d IH|d IH|d IH|d IH|d IH];
    intros p b Hb;
    [by destruct Hb as [->|Hb]|..];
    cbn [DecimalString.NilEmpty.string_of_uint lit list_ascii_of_string
         int_digits Pos.of_uint_acc];
    match goal with
    | |- context [is_digit ?c] =>
        replace (is_digit c) with true by reflexivity
    end;
    rewrite <- (IH _ true) by (by left); f_equal;
    unfold digit_val, code;
    match goal with
    | |- context [Z.of_nat (nat_of_ascii ?c)] =>
        let v := eval vm_compute in (Z.of_nat (nat_of_ascii c)) in
        change (Z.of_nat (nat_of_ascii c)) with v
    end; lia.
Qed.

Lemma int_digits_zero (d : Decimal.uint) :
  ∀ (b : bool), b = true ∨ d ≠ Decimal.Nil →
    int_digits 0 b (lit (DecimalString.NilEmpty.string_of_uint d))
    = Some (Z.of_N (Pos.of_uint d)).
Proof.
  induction d as [|d IH|d IH|d IH|d IH|d IH|d IH|d IH|d IH|d IH|d IH];
    intros b Hb;
    [by destruct Hb as [->|Hb]|..];
    cbn [DecimalString.NilEmpty.string_of_uint lit list_ascii_of_string
         int_digits Pos.of_uint];
    match goal with
    | |- context [is_digit ?c] =>
        replace (is_digit c) with true by reflexivity
    end;
    [by apply IH; left|..];
    cbn [Z.of_N]; rewrite <- (int_digits_acc d _ true) by (by left);
    f_equal.
Qed.

Lemma strip_by_none (p : ascii -> bool) (s : str) :
  forallb (fun c => negb (p c)) s = true → strip_by p s = s.
Proof.
  intros H. apply strip_by_id.
  - destruct s as [|c s]; [done|]. simpl in *.
    by apply andb_true_iff in H as [-> _].
  - unfold ends_ok. rewrite forallb_forall in H.
    destruct (rev s) as [|c r] eqn:Hr; [done|]. simpl. apply H.
    apply in_rev. rewrite Hr. by left.
Qed.

Lemma int_char_plain (c : ascii) :
  int_char c = true →
  is_space c = false ∧ is_int_space c = false
  ∧ in_chars [dquote] c = false
  ∧ c ≠ ","%char ∧ c ≠ newline ∧ c ≠ "#"%char.
Proof.
  intros H.
  assert (negb (is_space c) && negb (is_int_space c)
          && negb (in_chars [dquote] c) && negb (ascii_eqb c ",")
          && negb (ascii_eqb c newline) && negb (ascii_eqb c "#") = true)
    as Hb.
  { revert H. destruct c as [[] [] [] [] [] [] [] []]; by vm_compute. }
  rewrite !andb_true_iff, !negb_true_iff, !ascii_eqb_neq in Hb. tauto.
Qed.

Lemma is_digit_int_char (c : ascii) : is_digit c = true → int_char c = true.
Proof. unfold int_char. by intros ->. Qed.

Lemma is_digit_not_sign (c : ascii) :
  is_digit c = true →
  ascii_eqb c "-" = false ∧ ascii_eqb c "+" = false.
Proof.
  intros H.
  assert (negb (ascii_eqb c "-") && negb (ascii_eqb c "+") = true) as Hb.
  { revert H. destruct c as [[] [] [] [] [] [] [] []]; by vm_compute. }
  rewrite !andb_true_iff, !negb_true_iff in Hb. tauto.
Qed.

Lemma digits_all (d : Decimal.uint) :
  forallb is_digit (lit (DecimalString.NilEmpty.string_of_uint d)) = true.
Proof. induction d; simpl; try done. Qed.

Lemma digits_nonempty (d : Decimal.uint) :
  d ≠ Decimal.Nil → lit (DecimalString.NilEmpty.string_of_uint d) ≠ [].
Proof. by destruct d. Qed.

Lemma nilzero_nonnil (d : Decimal.uint) :
  d ≠ Decimal.Nil →
  DecimalString.NilZero.string_of_uint d
  = DecimalString.NilEmpty.string_of_uint d.
Proof. by destruct d. Qed.

(** The digits written for an integer, without its sign. *)
Lemma str_of_int_cases (z : Z) :
  ∃ ds, ds ≠ [] ∧ forallb is_digit ds = true
        ∧ int_digits 0 false ds = Some (Z.abs z)
        ∧ str_of_int z = if (z <? 0)%Z then "-"%char :: ds else ds.
Proof.
  destruct z as [|p|p].
  - exists (lit "0"). by split_and!.
  - exists (lit (DecimalString.NilEmpty.string_of_uint (Pos.to_uint p))).
    pose proof (DecimalPos.Unsigned.to_uint_nonnil p) as Hnn.
    split_and!.
    + by apply digits_nonempty.
    + apply digits_all.
    + rewrite int_digits_zero by (by right).
      by rewrite DecimalPos.Unsigned.of_to.
    + unfold str_of_int. simpl. by rewrite nilzero_nonnil.
  - exists (lit (DecimalString.NilEmpty.string_of_uint (Pos.to_uint p))).
    pose proof (DecimalPos.Unsigned.to_uint_nonnil p) as Hnn.
    split_and!.
    + by apply digits_nonempty.
    + apply digits_all.
    + rewrite int_digits_zero by (by right).
      by rewrite DecimalPos.Unsigned.of_to.
    + unfold str_of_int. simpl. by rewrite nilzero_nonnil.
Qed.

Lemma str_of_int_chars (z : Z) :
  str_of_int z ≠ [] ∧ forallb int_char (str_of_int z) = true.
Proof.
  destruct (str_of_int_cases z) as (ds & Hne & Hd & _ & ->).
  assert (forallb int_char ds = true) as Hds
    by (eapply forallb_impl; [apply is_digit_int_char|done]).
  destruct (z <? 0)%Z; [|done]. split; [done|]. simpl. by rewrite Hds.
Qed.

(** [int] reads back what [str] writes for an integer. *)
Lemma py_int_str_of_int (z : Z) : py_int (str_of_int z) = Some z.
Proof.
  unfold py_int.
  rewrite strip_by_none.
  2:{ destruct (str_of_int_chars z) as [_ H].
      eapply forallb_impl; [|exact H]. intros c Hc.
      apply int_char_plain in Hc as (_ & -> & _). done. }
  destruct (str_of_int_cases z) as (ds & Hne & Hd & Hz & ->).
  destruct (z <? 0)%Z eqn:Hneg.
  - replace (ascii_eqb "-" "-") with true by done.
    rewrite Hz. simpl. f_equal. lia.
  - destruct ds as [|c ds]; [done|].
    simpl in Hd. apply andb_true_iff in Hd as [Hc _].
    apply is_digit_not_sign in Hc as [-> ->].
    rewrite Hz. f_equal. lia.
Qed.

Lemma forallb_elem (p : ascii -> bool) (s : str) (c : ascii) :
  forallb p s = true → c ∈ s → p c = true.
Proof.
  rewrite forallb_forall. intros H Hc. apply H. by apply list_elem_of_In.
Qed.

Lemma ends_ok_last (p : ascii -> bool) (s : str) (c : ascii) :
  p c = false → ends_ok p (s ++ [c]) = true.
Proof. intros Hc. by rewrite ends_ok_snoc, Hc. Qed.

Lemma forallb_ends_ok (p : ascii -> bool) (s : str) :
  forallb (fun c => negb (p c)) s = true → ends_ok p s = true.
Proof.
  intros H. unfold ends_ok. rewrite forallb_forall in H.
  destruct (rev s) as [|c r] eqn:Hr; [done|]. simpl. apply H.
  apply in_rev. rewrite Hr. by left.
Qed.

(** What [format_value] writes for a writable value: a non-empty text
    without comma or line end, that neither begins nor ends with
    whitespace, does not begin with [#], and that [convert_value] reads
    back as the value. *)
Lemma format_value_written (val : value) :
  writable val →
  format_value val ≠ []
  ∧ starts_ok is_space (format_value val) = true
  ∧ ends_ok is_space (format_value val) = true
  ∧ (","%char ∉ format_value val)
  ∧ (newline ∉ format_value val)
  ∧ startswith (lit "#") (format_value val) = false
  ∧ convert_value (format_value val) = val.
Proof.
  destruct val as [z|s]; simpl.
  - intros _. destruct (str_of_int_chars z) as [Hne Hall].
    assert (∀ c, c ∈ str_of_int z →
              is_space c = false ∧ is_int_space c = false
              ∧ in_chars [dquote] c = false
              ∧ c ≠ ","%char ∧ c ≠ newline ∧ c ≠ "#"%char) as Hc.
    { intros c Hc. apply int_char_plain. by eapply forallb_elem. }
    assert (forallb (fun c => negb (is_space c)) (str_of_int z) = true)
      as Hsp.
    { apply forallb_forall. intros c Hin%list_elem_of_In.
      by destruct (Hc c Hin) as (-> & _). }
    assert (forallb (fun c => negb (in_chars [dquote] c)) (str_of_int z)
            = true) as Hq.
    { apply forallb_forall. intros c Hin%list_elem_of_In.
      by destruct (Hc c Hin) as (_ & _ & -> & _). }
    split_and!.
    + done.
    + destruct (str_of_int z) as [|c r]; [done|]. simpl in *.
      by apply andb_true_iff in Hsp as [-> _].
    + by apply forallb_ends_ok.
    + intros Hin. by destruct (Hc _ Hin) as (_ & _ & _ & ? & _).
    + intros Hin. by destruct (Hc _ Hin) as (_ & _ & _ & _ & ? & _).
    + destruct (str_of_int z) as [|c r] eqn:Hs; [done|].
      cbn [lit list_ascii_of_string startswith]. rewrite andb_true_r.
      destruct (ascii_eqb "#" c) eqn:Heq; [|done].
      apply ascii_eqb_eq in Heq as <-.
      destruct (Hc "#"%char) as (_ & _ & _ & _ & _ & Hno); [|done].
      by left.
    + unfold convert_value, strip, strip_chars.
      rewrite (strip_by_none is_space) by done.
      rewrite strip_by_none by done.
      by rewrite py_int_str_of_int.
  - intros (Hcomma & Hnl & Hs & He & Hint).
    split_and!.
    + done.
    + done.
    + change (dquote :: s ++ [dquote]) with ((dquote :: s) ++ [dquote]).
      by apply ends_ok_last.
    + rewrite not_elem_of_cons, elem_of_app, list_elem_of_singleton.
      split; [done|]. by intros [?|?].
    + rewrite not_elem_of_cons, elem_of_app, list_elem_of_singleton.
      split; [done|]. by intros [?|?].
    + done.
    + unfold convert_value.
      rewrite strip_id.
      2:{ done. }
      2:{ change (dquote :: s ++ [dquote])
            with ((dquote :: s) ++ [dquote]). by apply ends_ok_last. }
      unfold strip_chars.
      change (dquote :: s ++ [dquote]) with ([dquote] ++ s ++ [dquote]).
      rewrite strip_by_pad by done. by rewrite Hint.
Qed.

Lemma join_with_cons (sep piece : str) (pieces : list str) :
  pieces ≠ [] →
  join_with sep (piece :: pieces) = piece ++ sep ++ join_with sep pieces.
Proof. by destruct pieces. Qed.

Lemma join_with_starts (p : ascii -> bool) (sep : str) (pieces : list str) :
  pieces ≠ [] →
  Forall (fun piece => piece ≠ [] ∧ starts_ok p piece = true) pieces →
  join_with sep pieces ≠ [] ∧ starts_ok p (join_with sep pieces) = true.
Proof.
  intros Hne Hall. destruct Hall as [|piece pieces [Hp Hs] _]; [done|].
  destruct piece as [|c piece]; [done|].
  destruct pieces; [done|]. by rewrite join_with_cons.
Qed.

Lemma ends_ok_app_r (p : ascii -> bool) (s1 s2 : str) :
  s2 ≠ [] → ends_ok p (s1 ++ s2) = ends_ok p s2.
Proof.
  intros Hne. unfold ends_ok. rewrite rev_app_distr.
  destruct (rev s2) as [|c r] eqn:Hr; [|done].
  apply (f_equal (@rev ascii)) in Hr. rewrite rev_involutive in Hr.
  done.
Qed.

Lemma join_with_ends (p : ascii -> bool) (sep : str) (pieces : list str) :
  pieces ≠ [] →
  Forall (fun piece => piece ≠ [] ∧ ends_ok p piece = true) pieces →
  ends_ok p (join_with sep pieces) = true.
Proof.
  intros Hne Hall. induction Hall as [|piece pieces [Hp He] Hall IH];
    [done|].
  destruct pieces as [|piece' pieces]; [done|].
  rewrite join_with_cons by done. rewrite app_assoc.
  rewrite ends_ok_app_r.
  - by apply IH.
  - inversion Hall as [|? ? [Hp' _] Hrest]; subst.
    destruct piece' as [|c r]; [done|]. by destruct pieces.
Qed.

Lemma join_with_absent (c : ascii) (sep : str) (pieces : list str) :
  c ∉ sep → Forall (fun piece => c ∉ piece) pieces →
  c ∉ join_with sep pieces.
Proof.
  intros Hsep Hall. induction Hall as [|piece pieces Hp Hall IH].
  - by apply not_elem_of_nil.
  - destruct pieces as [|piece' pieces]; [done|].
    rewrite join_with_cons by done. rewrite !elem_of_app.
    intros [?|[?|?]]; [done|done|]. by apply IH.
Qed.

Lemma split_go_sep (c : ascii) (acc a v : str) :
  c ∉ a →
  split_go [c] 0 acc (a ++ c :: v) = (rev acc ++ a) :: split_go [c] 0 [] v.
Proof.
  revert acc. induction a as [|d a IH]; intros acc Hc.
  - cbn [app split_go startswith].
    replace (ascii_eqb c c) with true by (symmetry; by apply ascii_eqb_eq).
    simpl. by rewrite app_nil_r.
  - apply not_elem_of_cons in Hc as [Hcd Hc].
    rewrite <- app_comm_cons. cbn [split_go startswith].
    replace (ascii_eqb c d) with false
      by (symmetry; by apply ascii_eqb_neq).
    simpl. rewrite IH by done. simpl. by rewrite <- app_assoc.
Qed.

(** Splitting at a character what was joined with a separator that
    begins with that character, when the character occurs nowhere else. *)
Lemma split_join_with (c : ascii) (sep : str) (pieces : list str) :
  c ∉ sep → Forall (fun piece => c ∉ piece) pieces →
  ∀ (piece pre : str), c ∉ pre → c ∉ piece →
    split [c] (pre ++ join_with (c :: sep) (piece :: pieces))
    = (pre ++ piece) :: map (fun piece' => sep ++ piece') pieces.
Proof.
  intros Hsep Hall. induction Hall as [|piece' pieces Hp Hall IH];
    intros piece pre Hpre Hpiece.
  - unfold split. simpl. rewrite split_go_absent; [done|].
    rewrite elem_of_app. by intros [?|?].
  - rewrite join_with_cons by done. unfold split.
    rewrite app_assoc.
    change ((c :: sep) ++ join_with (c :: sep) (piece' :: pieces))
      with (c :: (sep ++ join_with (c :: sep) (piece' :: pieces))).
    rewrite split_go_sep by (rewrite elem_of_app; by intros [?|?]).
    simpl. f_equal. by apply IH.
Qed.

Lemma strip_lead (pre s : str) :
  forallb is_space pre = true → strip (pre ++ s) = strip s.
Proof.
  intros Hpre. unfold strip.
  rewrite <- (app_nil_r s) at 1. by apply strip_by_around.
Qed.

Lemma convert_value_lead (pre val : str) :
  forallb is_space pre = true →
  convert_value (pre ++ val) = convert_value val.
Proof. intros Hpre. unfold convert_value. by rewrite strip_lead. Qed.

(** One written tuple line is read back as the tuple. *)
Lemma tuple_line_written (t : list value) :
  t ≠ [] → Forall writable t →
  join_with (lit ", ") (map format_value t) ≠ []
  ∧ starts_ok is_space (join_with (lit ", ") (map format_value t)) = true
  ∧ ends_ok is_space (join_with (lit ", ") (map format_value t)) = true
  ∧ (newline ∉ join_with (lit ", ") (map format_value t))
  ∧ is_tuple_line (join_with (lit ", ") (map format_value t)) = true
  ∧ map convert_value
      (split (lit ",") (join_with (lit ", ") (map format_value t)))
    = t.
Proof.
  intros Hne Hall.
  assert (Forall (fun val => format_value val ≠ []
            ∧ starts_ok is_space (format_value val) = true
            ∧ ends_ok is_space (format_value val) = true
            ∧ (","%char ∉ format_value val)
            ∧ (newline ∉ format_value val)
            ∧ startswith (lit "#") (format_value val) = false
            ∧ convert_value (format_value val) = val) t) as Hw.
  { eapply Forall_impl; [exact Hall|]. apply format_value_written. }
  assert (map format_value t ≠ []) as Hne' by (by destruct t).
  destruct (join_with_starts is_space (lit ", ") (map format_value t))
    as [Hj Hs]; [done| |].
  { apply Forall_fmap. eapply Forall_impl; [exact Hw|]. simpl. tauto. }
  split_and!; [done|done| | | |].
  - apply join_with_ends; [done|].
    apply Forall_fmap. eapply Forall_impl; [exact Hw|]. simpl. tauto.
  - apply join_with_absent.
    + cbn [lit list_ascii_of_string]. rewrite !not_elem_of_cons.
      split_and!; [done|done|apply not_elem_of_nil].
    + apply Forall_fmap. eapply Forall_impl; [exact Hw|]. simpl. tauto.
  - unfold is_tuple_line. rewrite bool_decide_eq_true_2 by done.
    destruct t as [|val t]; [done|].
    apply Forall_cons in Hw as [(Hv & _ & _ & _ & _ & Hhash & _) _].
    cbn [map]. destruct (format_value val) as [|c r] eqn:Hf; [done|].
    destruct (map format_value t);
      [cbn [join_with]; by rewrite Hhash|].
    rewrite join_with_cons by done.
    cbn [lit list_ascii_of_string startswith app] in *.
    rewrite andb_true_r in *. by rewrite Hhash.
  - destruct t as [|val t]; [done|].
    apply Forall_cons in Hw as [Hval Hw].
    cbn [map].
    change (lit ",") with [","%char].
    change (lit ", ") with (","%char :: lit " ").
    rewrite <- (app_nil_l (join_with _ _)).
    rewrite split_join_with.
    + cbn [app map]. f_equal; [apply Hval|].
      rewrite map_map. clear -Hw.
      induction Hw as [|val' t Hval' Hw IH]; [done|].
      cbn [map]. rewrite convert_value_lead by done. f_equal; [|done].
      apply Hval'.
    + cbn [lit list_ascii_of_string]. rewrite !not_elem_of_cons.
      split_and!; [done|apply not_elem_of_nil].
    + apply Forall_fmap. eapply Forall_impl; [exact Hw|]. simpl. tauto.
    + apply not_elem_of_nil.
    + apply Hval.
Qed.

Lemma parse_lines_written (lines : list str) (ts : list (list value)) :
  Forall2 (fun line t =>
    is_tuple_line (strip line) = true
    ∧ map convert_value (split (lit ",") (strip line)) = t) lines ts →
  parse_lines lines = ts.
Proof.
  induction 1 as [|line t lines ts [Hl Ht] _ IH]; [done|].
  cbn [parse_lines]. by rewrite Hl, Ht, IH.
Qed.

Lemma format_tuples_join (t : list value) (ts : list (list value)) :
  format_tuples (t :: ts)
  = lit "  "
    ++ join_with (newline :: lit "  ")
         (map (fun t => join_with (lit ", ") (map format_value t))
            (t :: ts))
    ++ [newline].
Proof.
  revert t. induction ts as [|t' ts IH]; intros t.
  - cbn [format_tuples map join_with]. by rewrite app_nil_r.
  - cbn [format_tuples]. cbn [format_tuples] in IH. rewrite IH.
    cbn [map].
    rewrite (join_with_cons _ (join_with (lit ", ") (map format_value t)))
      by done.
    cbn [lit list_ascii_of_string app].
    rewrite <- !app_assoc. done.
Qed.

(** The body that [format_tuples] writes is read back by the loop of
    [parse_relation] over the lines. *)
Lemma body_written (ts : list (list value)) (text : str)
    (start end_ : nat) :
  Forall (fun t => t ≠ [] ∧ Forall writable t) ts →
  slice (start + 1) end_ text = newline :: format_tuples ts →
  parse_lines (body_lines text start end_) = ts.
Proof.
  intros Hall Hslice. unfold body_lines. rewrite Hslice.
  destruct ts as [|t ts]; [done|].
  rewrite format_tuples_join.
  assert (Forall (fun t =>
            join_with (lit ", ") (map format_value t) ≠ []
            ∧ starts_ok is_space (join_with (lit ", ") (map format_value t))
              = true
            ∧ ends_ok is_space (join_with (lit ", ") (map format_value t))
              = true
            ∧ (newline ∉ join_with (lit ", ") (map format_value t))
            ∧ is_tuple_line (join_with (lit ", ") (map format_value t))
              = true
            ∧ map convert_value
                (split (lit ",")
                   (join_with (lit ", ") (map format_value t)))
              = t) (t :: ts)) as Hw.
  { eapply Forall_impl; [exact Hall|]. intros t0 [H1 H2].
    by apply tuple_line_written. }
  set (written := map (fun t => join_with (lit ", ") (map format_value t))
                    (t :: ts)) in *.
  assert (written ≠ []) as Hne by done.
  destruct (join_with_starts is_space (newline :: lit "  ") written)
    as [Hj Hs]; [done| |].
  { apply Forall_fmap. eapply Forall_impl; [exact Hw|]. simpl. tauto. }
  assert (ends_ok is_space (join_with (newline :: lit "  ") written) = true)
    as He.
  { apply join_with_ends; [done|].
    apply Forall_fmap. eapply Forall_impl; [exact Hw|]. simpl. tauto. }
  change (newline :: lit "  " ++ join_with (newline :: lit "  ") written
          ++ [newline])
    with ((newline :: lit "  ") ++ join_with (newline :: lit "  ") written
          ++ [newline]).
  unfold strip. rewrite strip_by_pad by done.
  destruct (join_with (newline :: lit "  ") written) as [|c r] eqn:Hjoin;
    [done|].
  rewrite <- Hjoin. clear Hjoin c r Hj Hs He Hne.
  subst written. cbn [map].
  apply Forall_cons in Hw as [Ht Hw].
  rewrite <- (app_nil_l (join_with _ _)).
  rewrite split_join_with.
  - apply parse_lines_written. cbn [app]. constructor.
    + destruct Ht as (_ & Hs & He & _ & Hl & Hc).
      by rewrite strip_id.
    + clear -Hw. induction Hw as [|t ts Ht Hw IH]; [constructor|].
      cbn [map]. constructor; [|done].
      destruct Ht as (_ & Hs & He & _ & Hl & Hc).
      rewrite strip_lead by done. by rewrite strip_id.
  - cbn [lit list_ascii_of_string]. rewrite !not_elem_of_cons.
    split_and!; [done|done|apply not_elem_of_nil].
  - apply Forall_fmap. eapply Forall_impl; [exact Hw|]. simpl. tauto.
  - apply not_elem_of_nil.
  - apply Ht.
Qed.

(** The header pattern on a header written with single spaces. *)
Lemma header_re_written (name attrs_text rest : str) :
  name ≠ [] → forallb is_word name = true →
  attrs_text ≠ [] → forallb (not_char ")") attrs_text = true →
  re_match header_re (name ++ lit " (" ++ attrs_text ++ lit ") = {" ++ rest)
  = Some [(2, attrs_text); (1, name)].
Proof.
  intros Hname Hword Hattrs Hnot.
  unfold re_match, header_re. rewrite !seqs_cons.
  generalize (name ++ lit " (" ++ attrs_text ++ lit ") = {" ++ rest) at 1.
  intros whole.
  rewrite rmatch_seq. cbn [rmatch seqs foldr].
  apply (rep_greedy_max is_word 1 name);
    [done|done|destruct name; [done|simpl; lia]|].
  apply (rep_greedy_max is_space 0 (lit " ")); [done|done|simpl; lia|].
  cbn [is_char]. replace (ascii_eqb "(" "(") with true by done.
  apply (rep_greedy_max (not_char ")") 1 attrs_text);
    [done|done|destruct attrs_text; [done|simpl; lia]|].
  cbn [lit list_ascii_of_string app].
  replace (ascii_eqb ")" ")") with true by done.
  apply (rep_greedy_max is_space 0 (lit " ")); [done|done|simpl; lia|].
  replace (ascii_eqb "=" "=") with true by done.
  apply (rep_greedy_max is_space 0 (lit " ")); [done|done|simpl; lia|].
  replace (ascii_eqb "{" "{") with true by done.
  change (Some [(2, take (length (attrs_text ++ lit ") = {" ++ rest)
                          - length (lit ") = {" ++ rest))
                      (attrs_text ++ lit ") = {" ++ rest));
                (1, take (length (name ++ lit " (" ++ attrs_text
                                  ++ lit ") = {" ++ rest)
                          - length (lit " (" ++ attrs_text
                                    ++ lit ") = {" ++ rest))
                      (name ++ lit " (" ++ attrs_text ++ lit ") = {"
                       ++ rest))]
          = Some [(2, attrs_text); (1, name)]).
  by rewrite !take_prefix.
Qed.

Lemma find_app (c : ascii) (pre rest : str) :
  c ∉ pre → find c (pre ++ c :: rest) = Some (length pre).
Proof.
  induction pre as [|a pre IH]; simpl.
  - intros _. by replace (ascii_eqb c c) with true
      by (symmetry; by apply ascii_eqb_eq).
  - intros [Hne Hpre]%not_elem_of_cons.
    replace (ascii_eqb a c) with false
      by (symmetry; apply ascii_eqb_neq; congruence).
    by rewrite IH.
Qed.

Lemma rfind_snoc (c : ascii) (s : str) :
  rfind c (s ++ [c]) = Some (length s).
Proof.
  induction s as [|a s IH]; simpl.
  - by replace (ascii_eqb c c) with true
      by (symmetry; by apply ascii_eqb_eq).
  - by rewrite IH.
Qed.

Lemma slice_middle (pre mid suf : str) :
  slice (length pre) (length (pre ++ mid)) (pre ++ mid ++ suf) = mid.
Proof.
  unfold slice. rewrite drop_app_length, length_app.
  replace (length pre + length mid - length pre) with (length mid) by lia.
  by rewrite take_app_length.
Qed.

Lemma not_elem_not_char (c : ascii) (s : str) :
  c ∉ s → forallb (not_char c) s = true.
Proof.
  intros Hc. apply forallb_forall. intros a Ha%list_elem_of_In.
  unfold not_char. apply negb_true_iff, ascii_eqb_neq. by intros ->.
Qed.

Lemma is_word_no_brace (name : str) :
  forallb is_word name = true → "{"%char ∉ name.
Proof. intros Hw Hin. by apply (forallb_elem _ _ _ Hw) in Hin. Qed.

(** The attribute names written with [", "] between them are read back
    by the split at commas and the strip of each piece. *)
Lemma attrs_written (attrs : list str) :
  attrs ≠ [] → Forall writable_attr attrs →
  map strip (split (lit ",") (join_with (lit ", ") attrs)) = attrs.
Proof.
  intros Hne Hall. destruct Hall as [|attr attrs Ha Hall]; [done|].
  change (lit ",") with [","%char].
  change (lit ", ") with (","%char :: lit " ").
  rewrite <- (app_nil_l (join_with _ _)).
  rewrite split_join_with.
  - cbn [app map]. f_equal; [apply Ha|].
    rewrite map_map. clear -Hall.
    induction Hall as [|attr attrs Ha Hall IH]; [done|].
    cbn [map]. rewrite strip_lead by done. f_equal; [apply Ha|done].
  - cbn [lit list_ascii_of_string]. rewrite !not_elem_of_cons.
    split_and!; [done|apply not_elem_of_nil].
  - eapply Forall_impl; [exact Hall|]. unfold writable_attr. tauto.
  - apply not_elem_of_nil.
  - apply Ha.
Qed.

(** X23: what is written is read back.  A definition with the header
    [name (a1, a2, ...) = {] followed by the tuple lines that
    [format_result] writes for a relation binds the name to that relation:
    the same attribute names and the same tuples, for tuples that are not
    empty and hold writable values. *)
Theorem written_relation_read_back (relations : store) (name : str)
    (rel : relation) (relation_name : str) :
  name ≠ [] → forallb is_word name = true →
  attributes rel ≠ [] → Forall writable_attr (attributes rel) →
  Forall (fun t => t ≠ [] ∧ Forall writable t) (tuples rel) →
  (tuples rel ≠ [] →
   format_result (Some rel) relation_name
   = relation_name ++ lit " = {"
     ++ join_with (lit ", ") (attributes rel) ++ [newline]
     ++ format_tuples (tuples rel) ++ lit "}" ++ [newline])
  ∧ parse_relation relations
      (name ++ lit " (" ++ join_with (lit ", ") (attributes rel)
       ++ lit ") = {" ++ [newline] ++ format_tuples (tuples rel) ++ lit "}")
    = <[name := rel]> relations.
Proof.
  intros Hname Hword Hne Hattrs Hts. split.
  { unfold format_result. by destruct (tuples rel). }
  destruct rel as [attrs ts]. cbn [attributes tuples] in *.
  assert (join_with (lit ", ") attrs ≠ []) as Hj.
  { apply (join_with_starts (fun _ => false)); [done|].
    eapply Forall_impl; [exact Hattrs|]. intros a [Ha _].
    split; [done|]. by destruct a. }
  assert (")"%char ∉ join_with (lit ", ") attrs) as Hparen.
  { apply join_with_absent.
    - cbn [lit list_ascii_of_string]. rewrite !not_elem_of_cons.
      split_and!; [done|done|apply not_elem_of_nil].
    - eapply Forall_impl; [exact Hattrs|]. unfold writable_attr. tauto. }
  assert ("{"%char ∉ join_with (lit ", ") attrs) as Hbrace.
  { apply join_with_absent.
    - cbn [lit list_ascii_of_string]. rewrite !not_elem_of_cons.
      split_and!; [done|done|apply not_elem_of_nil].
    - eapply Forall_impl; [exact Hattrs|]. unfold writable_attr. tauto. }
  unfold parse_relation.
  rewrite header_re_written by (by try apply not_elem_not_char).
  cbn [group Nat.eqb]. rewrite attrs_written by done.
  set (pre := name ++ lit " (" ++ join_with (lit ", ") attrs ++ lit ") = ").
  set (mid := newline :: format_tuples ts).
  assert (name ++ lit " (" ++ join_with (lit ", ") attrs ++ lit ") = {"
          ++ [newline] ++ format_tuples ts ++ lit "}"
          = pre ++ "{"%char :: mid ++ lit "}") as ->.
  { subst pre mid. rewrite <- !app_assoc. done. }
  rewrite find_app.
  2:{ subst pre. rewrite !elem_of_app.
      intros [Hin|[Hin|[Hin|Hin]]].
      - by apply is_word_no_brace in Hin.
      - cbn [lit list_ascii_of_string] in Hin.
        rewrite !elem_of_cons in Hin.
        destruct Hin as [?|[?|Hin]]; [done|done|by apply elem_of_nil in Hin].
      - done.
      - cbn [lit list_ascii_of_string] in Hin.
        rewrite !elem_of_cons in Hin.
        destruct Hin as [?|[?|[?|[?|Hin]]]];
          [done|done|done|done|by apply elem_of_nil in Hin]. }
  replace (pre ++ "{"%char :: mid ++ lit "}")
    with ((pre ++ "{"%char :: mid) ++ lit "}") at 1
    by (by rewrite <- app_assoc).
  rewrite rfind_snoc.
  rewrite (body_written ts); [done|done|].
  replace (pre ++ "{"%char :: mid ++ lit "}")
    with ((pre ++ ["{"%char]) ++ mid ++ lit "}")
    by (by rewrite <- app_assoc).
  replace (length pre + 1) with (length (pre ++ ["{"%char]))
    by (rewrite length_app; simpl; lia).
  replace (length (pre ++ "{"%char :: mid))
    with (length ((pre ++ ["{"%char]) ++ mid))
    by (by rewrite <- app_assoc).
  apply slice_middle.
Qed.

(** ** [parse_all_relations] and the queries of [main] *)

(** What a match of the header pattern says about the text, whatever
    follows the pattern. *)
Lemma header_re_inv_k (whole text : str)
    (k : str -> caps -> option caps) (m : caps) :
  rmatch whole header_re text [] k = Some m →
  ∃ h name rest,
    text = h ++ rest ∧ header_shape h name
    ∧ ∃ attrs, k rest [(2, attrs); (1, name)] = Some m.
Proof.
  unfold header_re. rewrite !seqs_cons. intros Hm.
  rewrite rmatch_seq in Hm. cbn [rmatch] in Hm.
  apply rep_greedy_inv in Hm as (name & s1 & -> & Hname & Hword & Hm).
  rewrite take_prefix in Hm.
  apply rep_greedy_inv in Hm as (ws1 & s2 & -> & _ & Hws1 & Hm).
  destruct s2 as [|a s2]; [done|].
  destruct (is_char "(" a) eqn:Ha; [|done].
  apply ascii_eqb_eq in Ha as ->.
  apply rep_greedy_inv in Hm as (attrs & s3 & -> & Hattrs & Hnot & Hm).
  rewrite take_prefix in Hm.
  destruct s3 as [|b s3]; [done|].
  destruct (is_char ")" b) eqn:Hb; [|done].
  apply ascii_eqb_eq in Hb as ->.
  apply rep_greedy_inv in Hm as (ws2 & s4 & -> & _ & Hws2 & Hm).
  destruct s4 as [|c s4]; [done|].
  destruct (is_char "=" c) eqn:Hc; [|done].
  apply ascii_eqb_eq in Hc as ->.
  apply rep_greedy_inv in Hm as (ws3 & s5 & -> & _ & Hws3 & Hm).
  destruct s5 as [|d s5]; [done|].
  destruct (is_char "{" d) eqn:Hd; [|done].
  apply ascii_eqb_eq in Hd as ->.
  exists (name ++ ws1 ++ "("%char :: attrs ++ ")"%char :: ws2
          ++ "="%char :: ws3 ++ ["{"%char]), name, s5.
  split_and!.
  - rewrite <- !app_assoc. simpl. rewrite <- !app_assoc. simpl.
    rewrite <- !app_assoc. simpl. rewrite <- !app_assoc. done.
  - exists ws1, attrs, ws2, ws3. split_and!; try done.
    + intros ->. simpl in Hname. lia.
    + intros ->. simpl in Hattrs. lia.
  - by exists attrs.
Qed.

Lemma starts_ok_after (p : ascii -> bool) (ws : str) (c : ascii)
    (rest : str) (q : ascii -> bool) :
  forallb q ws = true → (∀ a, q a = true → p a = false) → p c = false →
  starts_ok p (ws ++ c :: rest) = true.
Proof.
  intros Hws Hq Hc. destruct ws as [|a ws]; simpl.
  - by rewrite Hc.
  - simpl in Hws. apply andb_true_iff in Hws as [Ha _].
    by rewrite (Hq a Ha).
Qed.

Lemma is_space_not_word (c : ascii) : is_space c = true → is_word c = false.
Proof.
  intros Hs. destruct (is_word c) eqn:Hw; [|done].
  apply is_word_not_space in Hw. congruence.
Qed.

(** The header pattern on a text that begins with a header. *)
Lemma header_re_fwd (whole h name rest : str) :
  header_shape h name →
  ∃ attrs, ∀ (k : str -> caps -> option caps) (x : caps),
    k rest [(2, attrs); (1, name)] = Some x →
    rmatch whole header_re (h ++ rest) [] k = Some x.
Proof.
  intros (ws1 & attrs & ws2 & ws3 & -> & Hname & Hword & Hws1 & Hattrs
          & Hnot & Hws2 & Hws3).
  exists attrs. intros k x Hk.
  replace ((name ++ ws1 ++ "("%char :: attrs ++ ")"%char :: ws2
            ++ "="%char :: ws3 ++ ["{"%char]) ++ rest)
    with (name ++ ws1 ++ "("%char :: attrs ++ ")"%char :: ws2
          ++ "="%char :: ws3 ++ "{"%char :: rest).
  2:{ rewrite <- !app_assoc. simpl. rewrite <- !app_assoc. simpl.
      rewrite <- !app_assoc. simpl. rewrite <- !app_assoc. done. }
  unfold header_re. rewrite !seqs_cons.
  rewrite rmatch_seq. cbn [rmatch seqs foldr].
  apply (rep_greedy_max is_word 1 name); [done| |
    destruct name; [done|simpl; lia]|].
  { by apply (starts_ok_after _ _ _ _ is_space);
      [|apply is_space_not_word|]. }
  apply (rep_greedy_max is_space 0 ws1); [done|done|lia|].
  cbn [is_char]. replace (ascii_eqb "(" "(") with true by done.
  apply (rep_greedy_max (not_char ")") 1 attrs);
    [done|done|destruct attrs; [done|simpl; lia]|].
  replace (ascii_eqb ")" ")") with true by done.
  apply (rep_greedy_max is_space 0 ws2); [done|done|lia|].
  replace (ascii_eqb "=" "=") with true by done.
  apply (rep_greedy_max is_space 0 ws3); [done|done|lia|].
  replace (ascii_eqb "{" "{") with true by done.
  rewrite !take_prefix. apply Hk.
Qed.

Ltac app_norm := repeat (progress (rewrite <- ?app_assoc; cbn [app])).
Ltac app_norm_in H :=
  repeat (progress (rewrite <- ?app_assoc in H; cbn [app] in H)).

Lemma elem_of_mid (x : ascii) (l1 l2 : str) : x ∈ l1 ++ x :: l2.
Proof. rewrite elem_of_app. right. by left. Qed.

Lemma first_split_unique (x : ascii) (l1 l2 l1' l2' : str) :
  l1 ++ x :: l2 = l1' ++ x :: l2' → x ∉ l1 → x ∉ l1' →
  l1 = l1' ∧ l2 = l2'.
Proof.
  revert l1'. induction l1 as [|a l1 IH]; intros l1' Heq H1 H1'.
  - destruct l1' as [|a' l1']; simpl in Heq.
    + by injection Heq as ->.
    + injection Heq as <- _. exfalso. apply H1'. by left.
  - destruct l1' as [|a' l1']; simpl in Heq.
    + injection Heq as -> _. exfalso. apply H1. by left.
    + injection Heq as <- Heq.
      apply not_elem_of_cons in H1 as [_ H1].
      apply not_elem_of_cons in H1' as [_ H1'].
      destruct (IH l1' Heq H1 H1') as [-> ->]. done.
Qed.

Lemma prefix_before_first (a : str) (c : ascii) (b p : str) (x : ascii)
    (q : str) :
  a ++ c :: b = p ++ x :: q → x ∉ a → c ≠ x → c ∈ p.
Proof.
  revert p. induction a as [|a0 a IH]; intros p Heq Ha Hc.
  - destruct p as [|p0 p]; simpl in Heq.
    + by injection Heq as ->.
    + injection Heq as -> _. by left.
  - destruct p as [|p0 p]; simpl in Heq.
    + injection Heq as -> _. exfalso. apply Ha. by left.
    + injection Heq as _ Heq. right.
      apply not_elem_of_cons in Ha as [_ Ha]. by apply IH.
Qed.

Lemma run_split (x : str) (c n0 : ascii) (y w ws : str) :
  x ++ c :: n0 :: y = w ++ ws →
  forallb is_word w = true → forallb is_space ws = true →
  is_word c = false → is_space n0 = true.
Proof.
  revert x. induction w as [|w0 w IH]; intros x Heq Hw Hws Hc.
  - simpl in Heq. apply (forallb_elem _ ws); [done|].
    rewrite <- Heq. rewrite elem_of_app. right. right. by left.
  - simpl in Hw. apply andb_true_iff in Hw as [Hw0 Hw].
    destruct x as [|x0 x]; simpl in Heq.
    + injection Heq as -> _. congruence.
    + injection Heq as _ Heq. by eapply IH.
Qed.

Lemma parens_closed_spec (u u1 u2 : str) :
  parens_closed u = true → u = u1 ++ "("%char :: u2 → ")"%char ∈ u2.
Proof.
  revert u. induction u1 as [|a u1 IH]; intros u Hu ->; simpl in Hu.
  - apply andb_true_iff in Hu as [Hex _].
    apply existsb_exists in Hex as (a & Ha%list_elem_of_In & Heq).
    by apply ascii_eqb_eq in Heq as <-.
  - apply andb_true_iff in Hu as [_ Hu]. by eapply IH.
Qed.

Lemma gap_ok_tail (c : ascii) (u : str) :
  gap_ok (c :: u) = true → gap_ok u = true.
Proof.
  unfold gap_ok. rewrite !andb_true_iff. simpl. rewrite !andb_true_iff.
  intros [[[_ H1] H2] [_ H3]]. split_and!; [done| |done].
  destruct u as [|d u]; [done|]. by rewrite ends_ok_cons in H2.
Qed.

Lemma word_chars (c : ascii) :
  is_word c = true →
  c ≠ "("%char ∧ c ≠ "{"%char ∧ c ≠ "="%char ∧ is_space c = false.
Proof.
  intros H.
  assert (negb (ascii_eqb c "(") && negb (ascii_eqb c "{")
          && negb (ascii_eqb c "=") && negb (is_space c) = true) as Hb.
  { revert H. destruct c as [[] [] [] [] [] [] [] []]; by vm_compute. }
  rewrite !andb_true_iff, !negb_true_iff, !ascii_eqb_neq in Hb. tauto.
Qed.

Lemma space_chars (c : ascii) :
  is_space c = true → c ≠ "("%char ∧ c ≠ "{"%char.
Proof.
  intros H.
  assert (negb (ascii_eqb c "(") && negb (ascii_eqb c "{") = true) as Hb.
  { revert H. destruct c as [[] [] [] [] [] [] [] []]; by vm_compute. }
  rewrite !andb_true_iff, !negb_true_iff, !ascii_eqb_neq in Hb. tauto.
Qed.

(** The header pattern finds no match that begins in a gap. *)
Lemma no_match_in_gap (whole u later : str)
    (k : str -> caps -> option caps) :
  u ≠ [] → gap_ok u = true → follows later →
  rmatch whole header_re (u ++ later) [] k = None.
Proof.
  intros Hne Hgap Hlater.
  destruct (rmatch whole header_re (u ++ later) [] k) as [m|] eqn:Hm;
    [|done].
  exfalso.
  apply header_re_inv_k in Hm as (h & name & rest & Heq & Hshape & _).
  destruct Hshape as (ws1 & attrs & ws2 & ws3 & -> & Hname & Hword & Hws1
                      & Hattrs & Hnot & Hws2 & Hws3).
  unfold gap_ok in Hgap. rewrite !andb_true_iff in Hgap.
  destruct Hgap as [[Hbrace Hend] Hparens].
  assert ("("%char ∉ name ++ ws1) as Hno.
  { rewrite elem_of_app. intros [Hin|Hin].
    - apply (forallb_elem _ _ _ Hword) in Hin.
      by apply word_chars in Hin as (? & _).
    - apply (forallb_elem _ _ _ Hws1) in Hin.
      by apply space_chars in Hin as (? & _). }
  assert (u ++ later
          = (name ++ ws1) ++ "("%char :: attrs ++ ")"%char
            :: (ws2 ++ "="%char :: ws3) ++ "{"%char :: rest) as Heq'.
  { rewrite Heq. by app_norm. }
  clear Heq.
  destruct (decide ("("%char ∈ u)) as [Hin|Hnin].
  - apply list_elem_of_split_l in Hin as (u1 & u2 & -> & Hu1).
    pose proof (parens_closed_spec _ u1 u2 Hparens eq_refl) as Hclose.
    apply list_elem_of_split_l in Hclose as (u3 & u4 & -> & Hu3).
    app_norm_in Heq'.
    change (name ++ ws1 ++ "("%char :: attrs ++ ")"%char :: ws2
            ++ "="%char :: ws3 ++ "{"%char :: rest)
      with (name ++ ws1 ++ "("%char :: (attrs ++ ")"%char :: ws2
            ++ "="%char :: ws3 ++ "{"%char :: rest)) in Heq'.
    rewrite (app_assoc name) in Heq'.
    apply first_split_unique in Heq' as [_ Heq']; [|done|done].
    apply first_split_unique in Heq' as [_ Heq']; [|done|].
    2:{ intros Hin. apply (forallb_elem _ _ _ Hnot) in Hin.
        unfold not_char in Hin. by rewrite Ascii.eqb_refl in Hin. }
    assert ("{"%char ∉ u4) as Hu4.
    { intros Hin.
      assert ("{"%char ∈ u1 ++ "("%char :: u3 ++ ")"%char :: u4) as Hin'.
      { rewrite elem_of_app, elem_of_cons, elem_of_app, elem_of_cons.
        auto. }
      apply (forallb_elem _ _ _ Hbrace) in Hin'.
      unfold not_char in Hin'. by rewrite Ascii.eqb_refl in Hin'. }
    destruct Hlater as [->|(n0 & name2 & ws & more & -> & Hn0 & _)].
    + rewrite app_nil_r in Heq'. apply Hu4. rewrite Heq'.
      replace (ws2 ++ "="%char :: ws3 ++ "{"%char :: rest)
        with ((ws2 ++ "="%char :: ws3) ++ "{"%char :: rest)
        by (by app_norm).
      apply elem_of_mid.
    + app_norm_in Heq'.
      replace (ws2 ++ "="%char :: ws3 ++ "{"%char :: rest)
        with ((ws2 ++ "="%char :: ws3) ++ "{"%char :: rest) in Heq'
        by (by app_norm).
      apply prefix_before_first in Heq'; [|done|].
      2:{ by apply word_chars in Hn0 as (_ & ? & _). }
      apply elem_of_app in Heq' as [Hin|Hin].
      * apply (forallb_elem _ _ _ Hws2) in Hin.
        apply word_chars in Hn0 as (_ & _ & _ & ?). congruence.
      * apply elem_of_cons in Hin as [->|Hin].
        -- by apply word_chars in Hn0 as (_ & _ & ? & _).
        -- apply (forallb_elem _ _ _ Hws3) in Hin.
           apply word_chars in Hn0 as (_ & _ & _ & ?). congruence.
  - destruct Hlater as [->|(n0 & name2 & ws & more & -> & Hn0 & Hn2 & Hws)].
    + rewrite app_nil_r in Heq'. apply Hnin. rewrite Heq'.
      apply elem_of_mid.
    + replace (u ++ n0 :: name2 ++ ws ++ "("%char :: more)
        with ((u ++ n0 :: name2 ++ ws) ++ "("%char :: more) in Heq'
        by (by app_norm).
      apply first_split_unique in Heq' as [Heq' _]; [| |done].
      2:{ rewrite elem_of_app, elem_of_cons, elem_of_app.
          intros [?|[Hin|[Hin|Hin]]]; [done| | |].
          - subst. by apply word_chars in Hn0 as (? & _).
          - apply (forallb_elem _ _ _ Hn2) in Hin.
            by apply word_chars in Hin as (? & _).
          - apply (forallb_elem _ _ _ Hws) in Hin.
            by apply space_chars in Hin as (? & _). }
      destruct u as [|c u _] using rev_ind; [done|].
      rewrite ends_ok_snoc in Hend. apply negb_true_iff in Hend.
      app_norm_in Heq'.
      apply run_split in Heq'; [|done..].
      apply word_chars in Hn0 as (_ & _ & _ & ?). congruence.
Qed.

Lemma finditer_go_skip (r : regex) (pre : str) (pos : nat) (s : str) :
  finditer_go r (length pre) pos (pre ++ s)
  = finditer_go r 0 (pos + length pre) s.
Proof.
  revert pos. induction pre as [|a pre IH]; intros pos; simpl.
  - by rewrite Nat.add_0_r.
  - rewrite IH. f_equal. lia.
Qed.

(** The scan passes over a gap without a match. *)
Lemma finditer_go_gap (u later : str) (pos : nat) :
  gap_ok u = true → follows later →
  finditer_go header_re 0 pos (u ++ later)
  = finditer_go header_re 0 (pos + length u) later.
Proof.
  intros Hgap Hlater. revert pos Hgap.
  induction u as [|c u IH]; intros pos Hgap.
  - simpl. by rewrite Nat.add_0_r.
  - cbn [app finditer_go]. unfold re_match0.
    change (c :: u ++ later) with ((c :: u) ++ later) at 2.
    rewrite no_match_in_gap by done.
    rewrite IH by (by eapply gap_ok_tail). f_equal. simpl. lia.
Qed.

(** The scan finds a header where it begins and resumes after it. *)
Lemma finditer_go_header (h name rest : str) (pos : nat) :
  header_shape h name →
  finditer_go header_re 0 pos (h ++ rest)
  = pos :: finditer_go header_re 0 (pos + length h) rest.
Proof.
  intros Hshape.
  destruct (header_re_fwd (h ++ rest) h name rest Hshape) as [attrs Hfwd].
  assert (h ≠ []) as Hne.
  { destruct Hshape as (? & ? & ? & ? & -> & Hname & _).
    by destruct name. }
  destruct h as [|c h]; [done|].
  cbn [app finditer_go]. unfold re_match0.
  change (c :: h ++ rest) with ((c :: h) ++ rest).
  erewrite Hfwd; [|reflexivity].
  cbn [group Nat.eqb]. rewrite take_prefix.
  cbn [length]. rewrite Nat.sub_succ, Nat.sub_0_r.
  rewrite finditer_go_skip. f_equal. f_equal. lia.
Qed.

Lemma definition_text_inv (d : str) :
  definition_text d = true →
  ∃ h name body,
    d = h ++ body ∧ header_shape h name ∧ gap_ok body = true.
Proof.
  unfold definition_text.
  destruct (re_match0 header_re d) as [m|] eqn:Hm; [|done].
  unfold re_match0 in Hm.
  apply header_re_inv_k in Hm
    as (h & name & rest & -> & Hshape & attrs & [= <-]).
  cbn [group Nat.eqb]. rewrite take_prefix, drop_app_length.
  intros Hgap. by exists h, name, rest.
Qed.

Lemma follows_concat (ds : list str) :
  Forall (fun d => definition_text d = true) ds → follows (concat ds).
Proof.
  intros Hall. destruct Hall as [|d ds Hd _]; [by left|]. right.
  apply definition_text_inv in Hd
    as (h & name & body & -> & (ws1 & attrs & ws2 & ws3 & -> & Hname
        & Hword & Hws1 & _) & _).
  destruct name as [|n0 name]; [done|].
  simpl in Hword. apply andb_true_iff in Hword as [Hn0 Hword].
  exists n0, name, ws1,
    (attrs ++ ")"%char :: ws2 ++ "="%char :: ws3 ++ ["{"%char]
     ++ body ++ concat ds).
  split_and!; [|done..]. cbn [concat]. by app_norm.
Qed.

(** The header pattern finds the definitions of a content that is a
    sequence of definitions, and nothing else. *)
Lemma finditer_concat (ds : list str) :
  Forall (fun d => definition_text d = true) ds →
  ∀ pos, finditer_go header_re 0 pos (concat ds) = offsets pos ds.
Proof.
  intros Hall. induction Hall as [|d ds Hd Hds IH]; intros pos; [done|].
  apply definition_text_inv in Hd as (h & name & body & -> & Hshape & Hgap).
  cbn [concat offsets]. rewrite <- !app_assoc.
  rewrite (finditer_go_header _ name) by done.
  rewrite finditer_go_gap by (by try apply follows_concat).
  rewrite IH. do 2 f_equal. rewrite length_app. lia.
Qed.

Lemma parse_matches_offsets (ds : list str) :
  ∀ (done_ : str) (relations : store),
    parse_matches relations (done_ ++ concat ds)
      (offsets (length done_) ds)
    = foldl parse_relation relations ds.
Proof.
  induction ds as [|d ds IH]; intros done_ relations; [done|].
  cbn [offsets parse_matches foldl concat].
  assert (slice (length done_)
            match offsets (length done_ + length d) ds with
            | [] => length (done_ ++ d ++ concat ds)
            | next :: _ => next
            end (done_ ++ d ++ concat ds) = d) as ->.
  { destruct ds as [|d' ds]; cbn [offsets concat].
    - rewrite app_nil_r. rewrite <- (app_nil_r (done_ ++ d)) at 2.
      rewrite <- app_assoc. apply slice_middle.
    - rewrite <- length_app. apply slice_middle. }
  rewrite <- length_app.
  replace (done_ ++ d ++ concat ds) with ((done_ ++ d) ++ concat ds)
    by (by rewrite <- app_assoc).
  apply IH.
Qed.

(** X24: a content that is a sequence of definitions is read
    definition by definition.  When each text of [ds] begins with a match
    of the header pattern and goes on without [{], with closed
    parentheses and without a word character at its end, and the text
    [before] the first of them is of that kind too, [parse_all_relations]
    on their concatenation is [parse_relation] applied to each of them in
    turn. *)
Theorem parse_all_relations_definitions (relations : store)
    (before : str) (ds : list str) :
  gap_ok before = true →
  Forall (fun d => definition_text d = true) ds →
  parse_all_relations relations (before ++ concat ds)
  = foldl parse_relation relations ds.
Proof.
  intros Hgap Hds. unfold parse_all_relations.
  rewrite finditer_go_gap by (by try apply follows_concat).
  rewrite finditer_concat by done. simpl.
  apply parse_matches_offsets.
Qed.

Lemma elem_of_slice (c : ascii) (i j : nat) (s : str) :
  c ∈ slice i j s → c ∈ s.
Proof.
  unfold slice. intros Hin.
  rewrite <- (take_drop i s). apply elem_of_app. right.
  rewrite <- (take_drop (j - i) (drop i s)). apply elem_of_app. by left.
Qed.

Lemma parse_relation_keeps (relations : store) (text n : str) :
  is_Some (relations !! n) → is_Some (parse_relation relations text !! n).
Proof.
  intros Hn. unfold parse_relation.
  destruct (re_match header_re text) as [m|]; [|done].
  destruct (find "{" text); [|done].
  destruct (rfind "}" text); [|done].
  destruct (decide (group m 1 = n)) as [->|Hne].
  - rewrite lookup_insert_eq. by eexists.
  - by rewrite lookup_insert_ne.
Qed.

(** X25: reading the definitions of a content takes no relation away:
    a name bound in the store before [parse_all_relations] is bound
    after it; and a content that lacks one of the characters
    [( ) = { }] leaves the store as it is. *)
Theorem parse_all_relations_keeps (relations : store) (content : str) :
  (∀ n, is_Some (relations !! n) →
        is_Some (parse_all_relations relations content !! n))
  ∧ (∀ c, c ∈ lit "()={}" → c ∉ content →
          parse_all_relations relations content = relations).
Proof.
  unfold parse_all_relations.
  generalize (finditer_go header_re 0 0 content). intros matches. split.
  - revert relations.
    induction matches as [|start matches IH]; intros relations n Hn;
      [done|].
    cbn [parse_matches]. apply IH. by apply parse_relation_keeps.
  - intros c Hc Hno. revert relations.
    induction matches as [|start matches IH]; intros relations; [done|].
    cbn [parse_matches]. rewrite (parse_relation_lacking _ _ c); [done..|].
    intros Hin. by apply elem_of_slice in Hin.
Qed.

Section EmptyStore.

Variable set_iter : gset str -> list str.

Lemma nested_rule_empty (recurse : store -> str -> option answer)
    (keyword : str)
    (operation : str -> store -> str -> outcome (option relation))
    (otherwise : store -> option answer) (query : str) (a : answer) :
  (∀ q b, recurse ∅ q = Some b → b = (∅, Ret None)) →
  (∀ args n, operation args ∅ n = Ret None) →
  (∀ b, otherwise ∅ = Some b → b = (∅, Ret None)) →
  nested_rule recurse keyword operation otherwise ∅ query = Some a →
  a = (∅, Ret None).
Proof.
  intros Hrec Hop Hoth. unfold nested_rule.
  destruct (re_match (nested_re keyword) query) as [m|]; [|apply Hoth].
  case_bool_decide.
  - rewrite Hop. by intros [= <-].
  - destruct (recurse ∅ (strip (group m 2))) as [b|] eqn:Hb; [|done].
    apply Hrec in Hb as ->. apply Hoth.
Qed.

Lemma binary_rules_empty (query : str) :
  binary_rules set_iter ∅ query = Ret None.
Proof.
  unfold binary_rules, join_operation, union_operation,
    intersection_operation, difference_operation.
  repeat (destruct (re_match _ query); [by rewrite ?lookup_empty|]).
  done.
Qed.

Lemma parse_query_fuel_empty (fuel : nat) (query : str) (a : answer) :
  parse_query_fuel set_iter fuel ∅ query = Some a → a = (∅, Ret None).
Proof.
  revert query a. induction fuel as [|fuel IH]; intros query a; [done|].
  cbn [parse_query_fuel]. apply nested_rule_empty.
  - intros q b. apply IH.
  - intros args n. unfold project_args, project_operation.
    by rewrite lookup_empty.
  - intros b. apply nested_rule_empty.
    + intros q b0. apply IH.
    + intros args n. unfold select_args, select_operation.
      by rewrite lookup_empty.
    + intros b0 [= <-]. by rewrite binary_rules_empty.
Qed.

(** X26: with no relation in the store no query yields a relation:
    the evaluation of a query on the empty store has an answer within
    the bound on the recursion, and whenever the answer is a returned
    value, that value is [None] and the store is still empty. *)
Theorem parse_query_empty_store (query : str) :
  ∃ relations' outcome,
    parse_query set_iter ∅ query = Some (relations', outcome)
    ∧ ∀ result, outcome = Ret result → result = None ∧ relations' = ∅.
Proof.
  destruct (parse_query_total set_iter ∅ query) as [[relations' outcome] Hq].
  exists relations', outcome. split; [done|]. intros result ->.
  apply parse_query_fuel_empty in Hq. by injection Hq as -> ->.
Qed.

End EmptyStore.

Lemma elem_of_rev_str (c : ascii) (s : str) : c ∈ rev s → c ∈ s.
Proof. intros H%list_elem_of_In. by apply list_elem_of_In, in_rev. Qed.

Lemma split_go_pieces (c : ascii) (s acc : str) :
  c ∉ acc → Forall (fun piece => c ∉ piece) (split_go [c] 0 acc s).
Proof.
  revert acc. induction s as [|a s IH]; intros acc Hacc.
  - simpl. constructor; [|constructor].
    intros Hin. apply Hacc. by apply elem_of_rev_str in Hin.
  - cbn [split_go startswith]. rewrite andb_true_r.
    destruct (ascii_eqb c a) eqn:Hca.
    + constructor.
      * intros Hin. apply Hacc. by apply elem_of_rev_str in Hin.
      * apply IH. apply not_elem_of_nil.
    + apply IH. apply ascii_eqb_neq in Hca.
      rewrite not_elem_of_cons. by split.
Qed.

Lemma elem_of_drop_str (c : ascii) (n : nat) (s : str) :
  c ∈ drop n s → c ∈ s.
Proof.
  intros Hin. rewrite <- (take_drop n s). apply elem_of_app. by right.
Qed.

(** X27: the queries that [main] takes from the content: each is a
    line of the content without the whitespace around it, so it holds
    no line end and [strip] changes nothing in it. *)
Theorem main_queries_stripped (content : str) :
  Forall (fun query => strip query = query ∧ newline ∉ query)
    (main_queries content).
Proof.
  unfold main_queries.
  pose proof (split_go_pieces newline (strip content) []
                ltac:(apply not_elem_of_nil)) as Hlines.
  fold (split [newline] (strip content)) in Hlines.
  induction Hlines as [|line lines Hline _ IH]; [constructor|].
  cbn [collect_queries].
  assert (newline ∉ strip line) as Hs
    by (intros Hin; by apply strip_subseteq in Hin).
  destruct (startswith (lit "Query:") (strip line)).
  - constructor; [|done]. split; [apply strip_strip|].
    intros Hin. apply strip_subseteq in Hin.
    by apply elem_of_drop_str in Hin.
  - destruct (existsb _ operation_words); [|done].
    constructor; [|done]. split; [apply strip_strip|done].
Qed.

(** ** The further properties at concrete inputs *)

(** The intersection of [P] and [Q]. *)
Lemma intersection_operation_spec_witness :
  store_PQ !! lit "P" = Some rel_P
  ∧ store_PQ !! lit "Q" = Some rel_Q
  ∧ (intersection_operation store_PQ (lit "P") (lit "Q") = None
       ↔ attributes rel_P ≠ attributes rel_Q).
Proof.
  assert (store_PQ !! lit "P" = Some rel_P) as H1 by compute_done.
  assert (store_PQ !! lit "Q" = Some rel_Q) as H2 by compute_done.
  split; [exact H1|]. split; [exact H2|].
  exact (proj1 (intersection_operation_spec store_PQ (lit "P") (lit "Q")
                  rel_P rel_Q H1 H2)).
Defined.

(** The difference of [P] and [Q]. *)
Lemma difference_operation_spec_witness :
  store_PQ !! lit "P" = Some rel_P
  ∧ store_PQ !! lit "Q" = Some rel_Q
  ∧ (difference_operation store_PQ (lit "P") (lit "Q") = None
       ↔ attributes rel_P ≠ attributes rel_Q).
Proof.
  assert (store_PQ !! lit "P" = Some rel_P) as H1 by compute_done.
  assert (store_PQ !! lit "Q" = Some rel_Q) as H2 by compute_done.
  split; [exact H1|]. split; [exact H2|].
  exact (proj1 (difference_operation_spec store_PQ (lit "P") (lit "Q")
                  rel_P rel_Q H1 H2)).
Defined.

(** [P], which has a duplicate tuple, with itself. *)
Lemma set_operations_self_witness :
  store_PQ !! lit "P" = Some rel_P
  ∧ union_operation store_PQ (lit "P") (lit "P")
    = Some (Relation (attributes rel_P) (dedup_first (tuples rel_P)))
  ∧ intersection_operation store_PQ (lit "P") (lit "P")
    = Some (Relation (attributes rel_P) (dedup_first (tuples rel_P)))
  ∧ difference_operation store_PQ (lit "P") (lit "P")
    = Some (Relation (attributes rel_P) []).
Proof.
  assert (store_PQ !! lit "P" = Some rel_P) as H1 by compute_done.
  split; [exact H1|].
  exact (set_operations_self store_PQ (lit "P") rel_P H1).
Defined.

(** [P] and [Q] in the two orders. *)
Lemma union_intersection_commute_witness :
  store_PQ !! lit "P" = Some rel_P
  ∧ store_PQ !! lit "Q" = Some rel_Q
  ∧ (union_operation store_PQ (lit "P") (lit "Q") = None
       ↔ union_operation store_PQ (lit "Q") (lit "P") = None).
Proof.
  assert (store_PQ !! lit "P" = Some rel_P) as H1 by compute_done.
  assert (store_PQ !! lit "Q" = Some rel_Q) as H2 by compute_done.
  split; [exact H1|]. split; [exact H2|].
  exact (proj1 (union_intersection_commute store_PQ (lit "P") (lit "Q")
                  rel_P rel_Q H1 H2)).
Defined.

(** The tuples of [P] split by [Q]. *)
Lemma intersection_difference_partition_witness :
  store_PQ !! lit "P" = Some rel_P
  ∧ store_PQ !! lit "Q" = Some rel_Q
  ∧ attributes rel_P = attributes rel_Q
  ∧ ∃ common rest,
      intersection_operation store_PQ (lit "P") (lit "Q")
      = Some (Relation (attributes rel_P) common)
      ∧ difference_operation store_PQ (lit "P") (lit "Q")
        = Some (Relation (attributes rel_P) rest)
      ∧ (∀ t, t ∈ common → t ∉ rest)
      ∧ common ++ rest ≡ₚ dedup_first (tuples rel_P).
Proof.
  assert (store_PQ !! lit "P" = Some rel_P) as H1 by compute_done.
  assert (store_PQ !! lit "Q" = Some rel_Q) as H2 by compute_done.
  assert (attributes rel_P = attributes rel_Q) as H3 by reflexivity.
  split; [exact H1|]. split; [exact H2|]. split; [exact H3|].
  exact (intersection_difference_partition store_PQ (lit "P") (lit "Q")
           rel_P rel_Q H1 H2 H3).
Defined.

(** The selection [a=1] on [P]. *)
Lemma select_operation_spec_witness :
  store_PQ !! lit "P" = Some rel_P
  ∧ (select_operation store_PQ (lit "P") (lit "a=1") = Ret (Some rel_P_a1)
     → tuples rel_P_a1 `sublist_of` tuples rel_P).
Proof.
  assert (store_PQ !! lit "P" = Some rel_P) as H1 by compute_done.
  split; [exact H1|].
  exact (proj2 (select_operation_spec store_PQ (lit "P") (lit "a=1")
                  rel_P rel_P_a1 H1)).
Defined.

(** The selections [a=1] and [b=x] on [P], which keep the same tuples. *)
Lemma select_operation_compose_witness :
  store_PQ !! lit "P" = Some rel_P
  ∧ select_operation store_PQ (lit "P") (lit "a=1") = Ret (Some rel_P_a1)
  ∧ select_operation store_PQ (lit "P") (lit "b=x") = Ret (Some rel_P_a1)
  ∧ ({[lit "T" := rel_P_a1]} : store) !! lit "T" = Some rel_P_a1
  ∧ select_operation {[lit "T" := rel_P_a1]} (lit "T") (lit "a=1")
    = Ret (Some rel_P_a1).
Proof.
  assert (store_PQ !! lit "P" = Some rel_P) as H1 by compute_done.
  assert (select_operation store_PQ (lit "P") (lit "a=1")
          = Ret (Some rel_P_a1)) as H2 by compute_done.
  assert (select_operation store_PQ (lit "P") (lit "b=x")
          = Ret (Some rel_P_a1)) as H3 by compute_done.
  assert (({[lit "T" := rel_P_a1]} : store) !! lit "T" = Some rel_P_a1)
    as H4 by compute_done.
  split; [exact H1|]. split; [exact H2|]. split; [exact H3|].
  split; [exact H4|].
  exact (proj1 (select_operation_compose store_PQ
                  {[lit "T" := rel_P_a1]} {[lit "T" := rel_P_a1]}
                  (lit "P") (lit "T") (lit "T") (lit "a=1") (lit "b=x")
                  rel_P rel_P_a1 rel_P_a1 H1 H2 H3 H4 H4)).
Defined.

(** The condition [abc] on a tuple shorter than the schema. *)
Lemma evaluate_condition_no_operator_witness :
  ("<"%char ∉ lit "abc") ∧ (">"%char ∉ lit "abc")
  ∧ ("="%char ∉ lit "abc")
  ∧ evaluate_condition (lit "abc") [lit "a"; lit "b"] [Integer 1]
    = Ret false.
Proof.
  assert ("<"%char ∉ lit "abc") as H1 by compute_done.
  assert (">"%char ∉ lit "abc") as H2 by compute_done.
  assert ("="%char ∉ lit "abc") as H3 by compute_done.
  split; [exact H1|]. split; [exact H2|]. split; [exact H3|].
  exact (proj1 (evaluate_condition_no_operator (lit "abc") H1 H2 H3)
           [lit "a"; lit "b"] [Integer 1]).
Defined.

(** The condition [c>1] on the schema [a, b]. *)
Lemma evaluate_condition_unknown_attribute_witness :
  forallb attr_name [lit "a"; lit "b"] = true
  ∧ plain (lit "c") = true
  ∧ op_char ">" = true
  ∧ (strip (lit "c") ∉ [lit "a"; lit "b"])
  ∧ evaluate_condition (lit "c" ++ ">"%char :: lit "1") [lit "a"; lit "b"]
      [Integer 2; Text (lit "y")]
    = Ret false.
Proof.
  assert (forallb attr_name [lit "a"; lit "b"] = true) as H1 by reflexivity.
  assert (plain (lit "c") = true) as H2 by reflexivity.
  assert (op_char ">" = true) as H3 by reflexivity.
  assert (strip (lit "c") ∉ [lit "a"; lit "b"]) as H4 by compute_done.
  split; [exact H1|]. split; [exact H2|]. split; [exact H3|].
  split; [exact H4|].
  exact (proj1 (evaluate_condition_unknown_attribute [lit "a"; lit "b"]
                  (lit "c") (lit "1") ">" H1 H2 H3 H4)
           [Integer 2; Text (lit "y")]).
Defined.

(** The condition [ a >= 1] and the condition [a>=1]. *)
Lemma evaluate_condition_blanks_witness :
  forallb attr_name [lit "a"; lit "b"] = true
  ∧ plain (lit " a ") = true
  ∧ strip (lit " a ") ∈ [lit "a"; lit "b"]
  ∧ plain (lit " 1") = true
  ∧ lit ">=" ∈ operators
  ∧ evaluate_condition (lit " a " ++ lit ">=" ++ lit " 1")
      [lit "a"; lit "b"] [Integer 2; Text (lit "y")]
    = evaluate_condition (strip (lit " a ") ++ lit ">=" ++ strip (lit " 1"))
        [lit "a"; lit "b"] [Integer 2; Text (lit "y")].
Proof.
  assert (forallb attr_name [lit "a"; lit "b"] = true) as H1 by reflexivity.
  assert (plain (lit " a ") = true) as H2 by reflexivity.
  assert (strip (lit " a ") ∈ [lit "a"; lit "b"]) as H3 by compute_done.
  assert (plain (lit " 1") = true) as H4 by reflexivity.
  assert (lit ">=" ∈ operators) as H5 by compute_done.
  split; [exact H1|]. split; [exact H2|]. split; [exact H3|].
  split; [exact H4|]. split; [exact H5|].
  exact (evaluate_condition_blanks [lit "a"; lit "b"]
           [Integer 2; Text (lit "y")] (lit " a ") (lit " 1") (lit ">=")
           H1 H2 H3 H4 H5).
Defined.

(** The projection of [P] onto [b]. *)
Lemma project_operation_spec_witness :
  store_PQ !! lit "P" = Some rel_P
  ∧ project_operation store_PQ (lit "P") [lit "b"] = Ret (Some rel_P_b)
  ∧ attributes rel_P_b = [lit "b"]
  ∧ NoDup (tuples rel_P_b)
  ∧ length (tuples rel_P_b) ≤ length (tuples rel_P).
Proof.
  assert (store_PQ !! lit "P" = Some rel_P) as H1 by compute_done.
  assert (project_operation store_PQ (lit "P") [lit "b"]
          = Ret (Some rel_P_b)) as H2 by compute_done.
  split; [exact H1|]. split; [exact H2|].
  destruct (project_operation_spec store_PQ (lit "P") [lit "b"] rel_P
              rel_P_b H1 H2) as (Ha & _ & Hnd & _ & Hlen).
  split; [exact Ha|]. split; [exact Hnd|exact Hlen].
Defined.

(** The projection of [P] onto [a, b]. *)
Lemma project_operation_full_schema_witness :
  store_PQ !! lit "P" = Some rel_P
  ∧ NoDup (attributes rel_P)
  ∧ well_formed rel_P
  ∧ project_operation store_PQ (lit "P") (attributes rel_P)
    = Ret (Some (Relation (attributes rel_P) (dedup_first (tuples rel_P)))).
Proof.
  assert (store_PQ !! lit "P" = Some rel_P) as H1 by compute_done.
  assert (NoDup (attributes rel_P)) as H2 by compute_done.
  assert (well_formed rel_P) as H3 by compute_done.
  split; [exact H1|]. split; [exact H2|]. split; [exact H3|].
  exact (project_operation_full_schema store_PQ (lit "P") rel_P H1 H2 H3).
Defined.

(** The join of [P] and [D]. *)
Lemma join_operation_shape_witness :
  store_J !! lit "P" = Some rel_P
  ∧ store_J !! lit "D" = Some rel_D
  ∧ join_operation elements store_J (lit "P") (lit "D") None
    = Ret (Some rel_PD)
  ∧ attributes rel_P `prefix_of` attributes rel_PD
  ∧ Forall (fun t => ∃ t1, t1 ∈ tuples rel_P ∧ t1 `prefix_of` t)
      (tuples rel_PD).
Proof.
  assert (store_J !! lit "P" = Some rel_P) as H1 by compute_done.
  assert (store_J !! lit "D" = Some rel_D) as H2 by compute_done.
  assert (join_operation elements store_J (lit "P") (lit "D") None
          = Ret (Some rel_PD)) as H3 by compute_done.
  split; [exact H1|]. split; [exact H2|]. split; [exact H3|].
  destruct (join_operation_shape elements store_J (lit "P") (lit "D") None
              rel_P rel_D rel_PD H1 H2 H3) as (Hp & _ & _ & Ht).
  split; [exact Hp|exact Ht].
Defined.

(** The natural join of [P] and [D]. *)
Lemma join_operation_spec_witness :
  store_J !! lit "P" = Some rel_P
  ∧ store_J !! lit "D" = Some rel_D
  ∧ well_formed rel_P
  ∧ well_formed rel_D
  ∧ ∃ result_tuples,
      join_operation elements store_J (lit "P") (lit "D") None
      = Ret (Some (Relation (join_attrs (attributes rel_P)
                               (attributes rel_D)) result_tuples))
      ∧ result_tuples
        = natural_join (attributes rel_P) (attributes rel_D)
            (tuples rel_P) (tuples rel_D)
      ∧ ∀ t, t ∈ result_tuples
             ↔ ∃ t1 t2, t1 ∈ tuples rel_P ∧ t2 ∈ tuples rel_D
                        ∧ agree (attributes rel_P) (attributes rel_D) t1 t2
                        ∧ t = t1 ++ extra_values (attributes rel_P)
                                      (attributes rel_D) t2.
Proof.
  assert (store_J !! lit "P" = Some rel_P) as H1 by compute_done.
  assert (store_J !! lit "D" = Some rel_D) as H2 by compute_done.
  assert (well_formed rel_P) as H3 by compute_done.
  assert (well_formed rel_D) as H4 by compute_done.
  split; [exact H1|]. split; [exact H2|]. split; [exact H3|].
  split; [exact H4|].
  exact (join_operation_spec elements
           (fun X x => elem_of_elements X x) store_J (lit "P") (lit "D")
           None rel_P rel_D H1 H2 H3 H4).
Defined.

(** The join of [P] and [C], which share no attribute. *)
Lemma join_operation_product_witness :
  store_J !! lit "P" = Some rel_P
  ∧ store_J !! lit "C" = Some rel_C
  ∧ well_formed rel_P
  ∧ well_formed rel_C
  ∧ NoDup (attributes rel_C)
  ∧ (∀ a, a ∈ attributes rel_C → a ∉ attributes rel_P)
  ∧ ∃ result_tuples,
      join_operation elements store_J (lit "P") (lit "C") None
      = Ret (Some (Relation (attributes rel_P ++ attributes rel_C)
                     result_tuples))
      ∧ result_tuples
        = flat_map (fun t1 => map (fun t2 => t1 ++ t2) (tuples rel_C))
            (tuples rel_P)
      ∧ length result_tuples
        = length (tuples rel_P) * length (tuples rel_C).
Proof.
  assert (store_J !! lit "P" = Some rel_P) as H1 by compute_done.
  assert (store_J !! lit "C" = Some rel_C) as H2 by compute_done.
  assert (well_formed rel_P) as H3 by compute_done.
  assert (well_formed rel_C) as H4 by compute_done.
  assert (NoDup (attributes rel_C)) as H5 by compute_done.
  assert (∀ a, a ∈ attributes rel_C → a ∉ attributes rel_P) as H6.
  { apply Forall_forall. compute_done. }
  split; [exact H1|]. split; [exact H2|]. split; [exact H3|].
  split; [exact H4|]. split; [exact H5|]. split; [exact H6|].
  exact (join_operation_product elements
           (fun X x => elem_of_elements X x) store_J (lit "P") (lit "C")
           None rel_P rel_C H1 H2 H3 H4 H5 H6).
Defined.

(** The join of [Q] with itself. *)
Lemma join_operation_self_witness :
  store_J !! lit "Q" = Some rel_Q
  ∧ well_formed rel_Q
  ∧ NoDup (attributes rel_Q)
  ∧ NoDup (tuples rel_Q)
  ∧ join_operation elements store_J (lit "Q") (lit "Q") None
    = Ret (Some rel_Q).
Proof.
  assert (store_J !! lit "Q" = Some rel_Q) as H1 by compute_done.
  assert (well_formed rel_Q) as H2 by compute_done.
  assert (NoDup (attributes rel_Q)) as H3 by compute_done.
  assert (NoDup (tuples rel_Q)) as H4 by compute_done.
  split; [exact H1|]. split; [exact H2|]. split; [exact H3|].
  split; [exact H4|].
  exact (join_operation_self elements (fun X x => elem_of_elements X x)
           store_J (lit "Q") None rel_Q H1 H2 H3 H4).
Defined.

(** The selection [a=1] on the projection of [P] onto [a, b]. *)
Lemma nested_query_composes_witness :
  lit "a=1" ≠ []
  ∧ forallb dot (lit "a=1") = true
  ∧ ("("%char ∉ lit "a=1")
  ∧ starts_ok is_space (lit "a=1") = true
  ∧ ends_ok is_space (lit "a=1") = true
  ∧ forallb dot (lit "project a, b (P)") = true
  ∧ forallb is_word (lit "project a, b (P)") = false
  ∧ starts_ok is_space (lit "project a, b (P)") = true
  ∧ ends_ok is_space (lit "project a, b (P)") = true
  ∧ parse_query elements store_PQ
      (lit "select " ++ lit "a=1" ++ lit " (" ++ lit "project a, b (P)"
       ++ lit ")")
    = match parse_query elements store_PQ (lit "project a, b (P)") with
      | Some (relations', Ret (Some inner_result)) =>
          Some (execute_on_result relations' (Some inner_result)
                  (fun rels n => select_operation rels n (lit "a=1")))
      | other => other
      end.
Proof.
  assert (lit "a=1" ≠ []) as H1 by compute_done.
  assert (forallb dot (lit "a=1") = true) as H2 by reflexivity.
  assert ("("%char ∉ lit "a=1") as H3 by compute_done.
  assert (starts_ok is_space (lit "a=1") = true) as H4 by reflexivity.
  assert (ends_ok is_space (lit "a=1") = true) as H5 by reflexivity.
  assert (forallb dot (lit "project a, b (P)") = true) as H6
    by reflexivity.
  assert (forallb is_word (lit "project a, b (P)") = false) as H7
    by reflexivity.
  assert (starts_ok is_space (lit "project a, b (P)") = true) as H8
    by reflexivity.
  assert (ends_ok is_space (lit "project a, b (P)") = true) as H9
    by reflexivity.
  split; [exact H1|]. split; [exact H2|]. split; [exact H3|].
  split; [exact H4|]. split; [exact H5|]. split; [exact H6|].
  split; [exact H7|]. split; [exact H8|]. split; [exact H9|].
  exact (proj1 (nested_query_composes elements store_PQ (lit "a=1")
                  (lit "project a, b (P)") H1 H2 H3 H4 H5 H6 H7 H8 H9)).
Defined.

(** A query between two blanks and before a blank and a line end. *)
Lemma parse_query_whitespace_witness :
  forallb is_space (lit "  ") = true
  ∧ forallb is_space (lit " " ++ [newline]) = true
  ∧ parse_query elements store_PQ
      (lit "  " ++ lit "union P Q" ++ lit " " ++ [newline])
    = parse_query elements store_PQ (lit "union P Q").
Proof.
  assert (forallb is_space (lit "  ") = true) as H1 by reflexivity.
  assert (forallb is_space (lit " " ++ [newline]) = true) as H2
    by reflexivity.
  split; [exact H1|]. split; [exact H2|].
  exact (parse_query_whitespace elements store_PQ (lit "  ")
           (lit "union P Q") (lit " " ++ [newline]) H1 H2).
Defined.

(** Two queries on [P] and [Q], the second of which fails. *)
Lemma main_loop_independent_witness :
  store_PQ !! temp_name = None
  ∧ (main_loop elements store_PQ [lit "select a=1 (P)"; lit "join P Nope"]
     = Some ([Some rel_P_a1; None], None)
     ↔ Forall2 (fun query result =>
          parse_query elements store_PQ query
          = Some (store_PQ, Ret result))
         [lit "select a=1 (P)"; lit "join P Nope"]
         [Some rel_P_a1; None]).
Proof.
  assert (store_PQ !! temp_name = None) as H1 by compute_done.
  split; [exact H1|].
  exact (main_loop_independent elements store_PQ
           [lit "select a=1 (P)"; lit "join P Nope"]
           [Some rel_P_a1; None] H1).
Defined.

(** A definition without its closing brace. *)
Lemma parse_relation_incomplete_witness :
  "}"%char ∈ lit "()={}"
  ∧ ("}"%char ∉ lit "R (a) = { 1")
  ∧ parse_relation store_PQ (lit "R (a) = { 1") = store_PQ.
Proof.
  assert ("}"%char ∈ lit "()={}") as H1 by compute_done.
  assert ("}"%char ∉ lit "R (a) = { 1") as H2 by compute_done.
  split; [exact H1|]. split; [exact H2|].
  exact (parse_relation_incomplete store_PQ (lit "R (a) = { 1") "}" H1 H2).
Defined.

(** [P], written and read back under the name [T]. *)
Lemma written_relation_read_back_witness :
  lit "T" ≠ []
  ∧ forallb is_word (lit "T") = true
  ∧ attributes rel_P ≠ []
  ∧ Forall writable_attr (attributes rel_P)
  ∧ Forall (fun t => t ≠ [] ∧ Forall writable t) (tuples rel_P)
  ∧ parse_relation ∅
      (lit "T" ++ lit " (" ++ join_with (lit ", ") (attributes rel_P)
       ++ lit ") = {" ++ [newline] ++ format_tuples (tuples rel_P)
       ++ lit "}")
    = <[lit "T" := rel_P]> ∅.
Proof.
  assert (lit "T" ≠ []) as H1 by compute_done.
  assert (forallb is_word (lit "T") = true) as H2 by reflexivity.
  assert (attributes rel_P ≠ []) as H3 by compute_done.
  assert (Forall writable_attr (attributes rel_P)) as H4 by compute_done.
  assert (Forall (fun t => t ≠ [] ∧ Forall writable t) (tuples rel_P))
    as H5 by compute_done.
  split; [exact H1|]. split; [exact H2|]. split; [exact H3|].
  split; [exact H4|]. split; [exact H5|].
  exact (proj2 (written_relation_read_back ∅ (lit "T") rel_P
                  (lit "Result") H1 H2 H3 H4 H5)).
Defined.

(** A comment, two definitions and a query. *)
Lemma parse_all_relations_definitions_witness :
  gap_ok (lit "# data" ++ [newline]) = true
  ∧ Forall (fun d => definition_text d = true) two_definitions
  ∧ parse_all_relations ∅
      ((lit "# data" ++ [newline]) ++ concat two_definitions)
    = foldl parse_relation ∅ two_definitions.
Proof.
  assert (gap_ok (lit "# data" ++ [newline]) = true) as H1 by reflexivity.
  assert (Forall (fun d => definition_text d = true) two_definitions)
    as H2 by compute_done.
  split; [exact H1|]. split; [exact H2|].
  exact (parse_all_relations_definitions ∅ (lit "# data" ++ [newline])
           two_definitions H1 H2).
Defined.

(** [P] after a content that defines [Q] again. *)
Lemma parse_all_relations_keeps_witness :
  is_Some (store_PQ !! lit "P")
  ∧ is_Some (parse_all_relations store_PQ (lit "Q (c) = { 5 }")
             !! lit "P").
Proof.
  assert (is_Some (store_PQ !! lit "P")) as H1 by compute_done.
  split; [exact H1|].
  exact (proj1 (parse_all_relations_keeps store_PQ (lit "Q (c) = { 5 }"))
           (lit "P") H1).
Defined.

(** ** Conditions, operator by operator *)

Lemma contains_junction (c d : ascii) (lhs v : str) :
  c ∉ lhs → c ∉ v → starts_ok (is_char d) v = true →
  contains [c; d] (lhs ++ c :: v) = false.
Proof.
  intros Hl Hv Hd. induction lhs as [|a lhs IH].
  - cbn [app contains startswith].
    rewrite (contains_absent c [d] v) by done. rewrite orb_false_r.
    destruct v as [|x v']; [by rewrite andb_false_r|].
    cbn [startswith]. simpl in Hd. unfold is_char in Hd.
    apply negb_true_iff, ascii_eqb_neq in Hd.
    replace (ascii_eqb d x) with false
      by (symmetry; apply ascii_eqb_neq; congruence).
    by rewrite andb_false_r.
  - apply not_elem_of_cons in Hl as [Hca Hl].
    cbn [app contains startswith].
    replace (ascii_eqb c a) with false
      by (symmetry; by apply ascii_eqb_neq).
    by apply IH.
Qed.

Lemma starts_ok_absent (c : ascii) (v : str) :
  c ∉ v → starts_ok (is_char c) v = true.
Proof.
  destruct v as [|x v]; [done|]. intros [Hne _]%not_elem_of_cons.
  simpl. unfold is_char. apply negb_true_iff, ascii_eqb_neq. congruence.
Qed.

(** The loop goes on to the next operator when the split does not give
    two parts. *)
Lemma evaluate_condition_loop_parts (op : str) (ops : list str)
    (condition : str) (schema : list str) (tuple_data : list value) :
  (∀ p0 p1, split op condition ≠ [p0; p1]) →
  evaluate_condition_loop (op :: ops) condition schema tuple_data
  = evaluate_condition_loop ops condition schema tuple_data.
Proof.
  intros Hparts. cbn [evaluate_condition_loop].
  destruct (contains op condition); [|done].
  destruct (split op condition) as [|p0 [|p1 [|p2 ps]]] eqn:Hs; try done.
  by destruct (Hparts p0 p1).
Qed.

(** A text with a second occurrence of the character is not split in
    two. *)
Lemma split_more_parts (c : ascii) (a v : str) :
  c ∈ a ++ v → ∀ p0 p1, split [c] (a ++ c :: v) ≠ [p0; p1].
Proof.
  intros Hin p0 p1 Hs.
  pose proof (split_go_pieces c (a ++ c :: v) []
                ltac:(apply not_elem_of_nil)) as Hpieces.
  fold (split [c] (a ++ c :: v)) in Hpieces. rewrite Hs in Hpieces.
  apply Forall_cons in Hpieces as [Hp0 Hp1].
  apply Forall_cons in Hp1 as [Hp1 _].
  apply split_two_inv in Hs; [|done]. cbn [app] in Hs.
  destruct (decide (c ∈ a)) as [Ha|Ha].
  - apply list_elem_of_split_l in Ha as (a1 & a2 & -> & Ha1).
    rewrite <- app_assoc in Hs. cbn [app] in Hs.
    apply first_split_unique in Hs as [_ Hs]; [|done..].
    apply Hp1. rewrite <- Hs. apply elem_of_mid.
  - apply first_split_unique in Hs as [_ Hs]; [|done..].
    apply Hp1. rewrite <- Hs.
    by apply elem_of_app in Hin as [?|?].
Qed.

Section Condition.

Variable schema : list str.
Variable tuple_data : list value.
Variables lhs v : str.
Hypothesis lhs_attribute : strip lhs ∈ schema.
Hypothesis lhs_lt : "<"%char ∉ lhs.
Hypothesis lhs_gt : ">"%char ∉ lhs.
Hypothesis v_lt : "<"%char ∉ v.
Hypothesis v_gt : ">"%char ∉ v.

Lemma absent_condition (c : ascii) (op : str) :
  c ∉ lhs → c ∉ op → c ∉ v → c ∉ lhs ++ op ++ v.
Proof. rewrite !elem_of_app. tauto. Qed.

Local Ltac literal_absent :=
  cbv [lit list_ascii_of_string];
  rewrite !not_elem_of_cons; split_and!; (done || apply not_elem_of_nil).

Local Ltac skip_absent :=
  rewrite evaluate_condition_loop_skip
    by (apply contains_absent, absent_condition;
        [done|literal_absent|done]).

Local Ltac hit_here :=
  erewrite evaluate_condition_loop_hit;
    [ | apply contains_app
      | apply split_app; done
      | exact lhs_attribute ].

Lemma condition_ge :
  evaluate_condition (lhs ++ lit ">=" ++ v) schema tuple_data
  = do x <- getitem tuple_data (index (strip lhs) schema);
    py_ge x (coerce_literal (strip v)).
Proof using lhs_attribute lhs_gt v_gt.
  unfold evaluate_condition, operators. hit_here. done.
Qed.

Lemma condition_le :
  evaluate_condition (lhs ++ lit "<=" ++ v) schema tuple_data
  = do x <- getitem tuple_data (index (strip lhs) schema);
    py_le x (coerce_literal (strip v)).
Proof using lhs_attribute lhs_lt lhs_gt v_lt v_gt.
  unfold evaluate_condition, operators. skip_absent. hit_here. done.
Qed.

Lemma condition_gt :
  starts_ok (is_char "=") v = true →
  evaluate_condition (lhs ++ lit ">" ++ v) schema tuple_data
  = do x <- getitem tuple_data (index (strip lhs) schema);
    py_gt x (coerce_literal (strip v)).
Proof using lhs_attribute lhs_lt lhs_gt v_lt v_gt.
  intros Hv. unfold evaluate_condition, operators.
  rewrite evaluate_condition_loop_skip
    by (by apply (contains_junction ">" "=")).
  skip_absent. hit_here. done.
Qed.

Lemma condition_lt :
  starts_ok (is_char "=") v = true →
  evaluate_condition (lhs ++ lit "<" ++ v) schema tuple_data
  = do x <- getitem tuple_data (index (strip lhs) schema);
    py_lt x (coerce_literal (strip v)).
Proof using lhs_attribute lhs_lt lhs_gt v_lt v_gt.
  intros Hv. unfold evaluate_condition, operators.
  skip_absent.
  rewrite evaluate_condition_loop_skip
    by (by apply (contains_junction "<" "=")).
  skip_absent. hit_here. done.
Qed.

Lemma condition_eq :
  "="%char ∉ lhs → "="%char ∉ v →
  evaluate_condition (lhs ++ lit "=" ++ v) schema tuple_data
  = do x <- getitem tuple_data (index (strip lhs) schema);
    Ret (py_eq x (coerce_literal (strip v))).
Proof using lhs_attribute lhs_lt lhs_gt v_lt v_gt.
  intros Hl Hv. unfold evaluate_condition, operators.
  do 4 skip_absent. hit_here. done.
Qed.

Lemma condition_ne :
  "!"%char ∉ lhs → "!"%char ∉ v →
  strip (lhs ++ lit "!") ∉ schema →
  evaluate_condition (lhs ++ lit "!=" ++ v) schema tuple_data
  = do x <- getitem tuple_data (index (strip lhs) schema);
    Ret (py_ne x (coerce_literal (strip v))).
Proof using lhs_attribute lhs_lt lhs_gt v_lt v_gt.
  intros Hl Hv Hbang. unfold evaluate_condition, operators.
  do 4 skip_absent.
  assert (lhs ++ lit "!=" ++ v = (lhs ++ lit "!") ++ "="%char :: v) as Heq
    by (by rewrite <- app_assoc).
  destruct (decide ("="%char ∈ (lhs ++ lit "!") ++ v)) as [Hin|Hno].
  - rewrite evaluate_condition_loop_parts.
    + hit_here. done.
    + rewrite Heq. by apply split_more_parts.
  - rewrite (evaluate_condition_loop_miss (lit "=") _ _
               (lhs ++ lit "!") v).
    + hit_here. done.
    + rewrite Heq. apply not_elem_of_app in Hno as [Hno1 Hno2].
      by apply (split_app "=" []).
    + done.
Qed.

End Condition.

Lemma strip_bang (a : str) :
  strip a = a → strip (a ++ lit "!") = a ++ lit "!".
Proof.
  intros Ha. apply strip_id.
  - apply starts_ok_app; [|done]. rewrite <- Ha.
    apply starts_ok_rstrip, starts_ok_lstrip.
  - by apply ends_ok_last.
Qed.

(** C5, amended: for an attribute name [a] of the schema without
    whitespace around it and a literal [v], neither of which contains
    [<] or [>], the conditions [a>=v] and [a<=v] compare the value of
    [a] in the tuple with the coerced literal by greater-or-equal and by
    less-or-equal; and when neither contains [!] and the schema has no
    attribute named [a!], the condition [a!=v] compares them by
    not-equal. *)
Theorem evaluate_condition_two_char (schema : list str)
    (tuple_data : list value) (a v : str) :
  a ∈ schema →
  strip a = a →
  "<"%char ∉ a → ">"%char ∉ a → "<"%char ∉ v → ">"%char ∉ v →
  evaluate_condition (a ++ lit ">=" ++ v) schema tuple_data
  = (do x <- getitem tuple_data (index a schema);
     py_ge x (coerce_literal (strip v)))
  ∧ evaluate_condition (a ++ lit "<=" ++ v) schema tuple_data
    = (do x <- getitem tuple_data (index a schema);
       py_le x (coerce_literal (strip v)))
  ∧ ("!"%char ∉ a → "!"%char ∉ v → a ++ lit "!" ∉ schema →
     evaluate_condition (a ++ lit "!=" ++ v) schema tuple_data
     = (do x <- getitem tuple_data (index a schema);
        Ret (py_ne x (coerce_literal (strip v))))).
Proof.
  intros Ha Hstrip Hal Hag Hvl Hvg.
  assert (strip a ∈ schema) as Ha' by (by rewrite Hstrip).
  split_and!.
  - rewrite condition_ge by done. by rewrite Hstrip.
  - rewrite condition_le by done. by rewrite Hstrip.
  - intros Hab Hvb Hbang.
    rewrite condition_ne by (by rewrite ?strip_bang). by rewrite Hstrip.
Qed.

(** C5 as stated fails.  The split must give exactly two parts, so with a
    literal that contains the operator the condition [a>=a>=a] is false
    although the value [b] of [a] is greater than the literal [a>=a]; in
    the schema [a, a!] the condition [a!=2] is split on [=] and read as
    [a! = 2], so on the tuple [(2, 2)] it holds although the value of [a]
    equals the literal; and the text before the operator is stripped, so
    for an attribute named [ a], with a blank, the condition [ a>=1] is
    false although the value 5 is greater than 1. *)
Lemma evaluate_condition_two_char_counterexample :
  (lit "a" ∈ [lit "a"]
   ∧ evaluate_condition (lit "a" ++ lit ">=" ++ lit "a>=a")
       [lit "a"] [Text (lit "b")] = Ret false
   ∧ py_ge (Text (lit "b")) (coerce_literal (strip (lit "a>=a"))) = Ret true
   ∧ ¬ two_char_comparisons [lit "a"] [Text (lit "b")]
         (lit "a") (lit "a>=a"))
  ∧ (lit "a" ∈ [lit "a"; lit "a!"]
     ∧ evaluate_condition (lit "a" ++ lit "!=" ++ lit "2")
         [lit "a"; lit "a!"] [Integer 2; Integer 2] = Ret true
     ∧ ¬ two_char_comparisons [lit "a"; lit "a!"] [Integer 2; Integer 2]
           (lit "a") (lit "2"))
  ∧ (lit " a" ∈ [lit " a"]
     ∧ evaluate_condition (lit " a" ++ lit ">=" ++ lit "1")
         [lit " a"] [Integer 5] = Ret false
     ∧ py_ge (Integer 5) (coerce_literal (strip (lit "1"))) = Ret true
     ∧ ¬ two_char_comparisons [lit " a"] [Integer 5] (lit " a") (lit "1")).
Proof.
  split_and!.
  - left.
  - by vm_compute.
  - by vm_compute.
  - intros (H & _ & _). vm_compute in H. discriminate H.
  - left.
  - by vm_compute.
  - intros (_ & _ & H). vm_compute in H. discriminate H.
  - left.
  - by vm_compute.
  - by vm_compute.
  - intros (H & _ & _). vm_compute in H. discriminate H.
Qed.

Lemma cross_type_compare (x y : value) :
  cross_type x y = true →
  py_eq x y = false ∧ py_ne x y = true
  ∧ py_gt x y = Raise TypeError ∧ py_lt x y = Raise TypeError
  ∧ py_ge x y = Raise TypeError ∧ py_le x y = Raise TypeError.
Proof.
  destruct x as [z|s], y as [z'|s']; intros H; try discriminate H;
    by split_and!.
Qed.

(** C10, amended: for a condition [lhs op v] where [lhs] stripped is an
    attribute of the schema, neither [lhs] nor [v] contains [<] or [>],
    and the value of the attribute in the tuple and the coerced literal
    are of different types: with [>=] and [<=] the evaluation raises
    [TypeError]; with [>] and [<] it raises [TypeError] when [v] does not
    begin with [=]; with [=] it returns false when neither [lhs] nor [v]
    contains [=]; with [!=] it returns true when neither contains [!] and
    the schema has no attribute named [lhs] followed by [!]. *)
Theorem evaluate_condition_cross_type (schema : list str)
    (tuple_data : list value) (lhs v : str) (x : value) :
  cross_type x (coerce_literal (strip v)) = true →
  strip lhs ∈ schema →
  tuple_data !! index (strip lhs) schema = Some x →
  "<"%char ∉ lhs → ">"%char ∉ lhs → "<"%char ∉ v → ">"%char ∉ v →
  evaluate_condition (lhs ++ lit ">=" ++ v) schema tuple_data
  = Raise TypeError
  ∧ evaluate_condition (lhs ++ lit "<=" ++ v) schema tuple_data
    = Raise TypeError
  ∧ (starts_ok (is_char "=") v = true →
     evaluate_condition (lhs ++ lit ">" ++ v) schema tuple_data
     = Raise TypeError
     ∧ evaluate_condition (lhs ++ lit "<" ++ v) schema tuple_data
       = Raise TypeError)
  ∧ ("="%char ∉ lhs → "="%char ∉ v →
     evaluate_condition (lhs ++ lit "=" ++ v) schema tuple_data
     = Ret false)
  ∧ ("!"%char ∉ lhs → "!"%char ∉ v → strip (lhs ++ lit "!") ∉ schema →
     evaluate_condition (lhs ++ lit "!=" ++ v) schema tuple_data
     = Ret true).
Proof.
  intros Hcross Ha Hx Hll Hlg Hvl Hvg.
  apply cross_type_compare in Hcross
    as (Heq & Hne & Hgt & Hlt & Hge & Hle).
  assert (getitem tuple_data (index (strip lhs) schema) = Ret x) as Hget
    by (unfold getitem; by rewrite Hx).
  split_and!.
  - rewrite condition_ge by done. by rewrite Hget.
  - rewrite condition_le by done. by rewrite Hget.
  - intros Hv. split.
    + rewrite condition_gt by done. by rewrite Hget.
    + rewrite condition_lt by done. by rewrite Hget.
  - intros Hle' Hve. rewrite condition_eq by done. rewrite Hget.
    cbn [bind]. by rewrite Heq.
  - intros Hlb Hvb Hbang. rewrite condition_ne by done. rewrite Hget.
    cbn [bind]. by rewrite Hne.
Qed.

(** C10 as stated fails.  The split must give exactly two parts, so with
    the literal [x>y] the condition [a>x>y] on an Integer is false and
    raises nothing; and in the schema [a, a!] the condition [a!=x] is
    split on [=] and read as [a! = x], which is false. *)
Lemma evaluate_condition_cross_type_counterexample :
  (lit "a" ∈ [lit "a"]
   ∧ [Integer 1] !! index (lit "a") [lit "a"] = Some (Integer 1)
   ∧ cross_type (Integer 1) (coerce_literal (strip (lit "x>y"))) = true
   ∧ evaluate_condition (lit "a" ++ lit ">" ++ lit "x>y")
       [lit "a"] [Integer 1] = Ret false
   ∧ ¬ cross_type_comparisons [lit "a"] [Integer 1] (lit "a") (lit "x>y"))
  ∧ (lit "a" ∈ [lit "a"; lit "a!"]
     ∧ [Integer 1; Integer 2] !! index (lit "a") [lit "a"; lit "a!"]
       = Some (Integer 1)
     ∧ cross_type (Integer 1) (coerce_literal (strip (lit "x"))) = true
     ∧ evaluate_condition (lit "a" ++ lit "!=" ++ lit "x")
         [lit "a"; lit "a!"] [Integer 1; Integer 2] = Ret false
     ∧ ¬ cross_type_comparisons [lit "a"; lit "a!"] [Integer 1; Integer 2]
           (lit "a") (lit "x")).
Proof.
  split_and!.
  - left.
  - reflexivity.
  - reflexivity.
  - by vm_compute.
  - intros (_ & _ & H).
    destruct (H (lit ">")) as [e He]; [left|].
    vm_compute in He. discriminate He.
  - left.
  - reflexivity.
  - reflexivity.
  - by vm_compute.
  - intros (_ & H & _). vm_compute in H. discriminate H.
Qed.

Lemma plain_absent (s : str) (c : ascii) :
  plain s = true → op_char c = true → c ∉ s.
Proof.
  intros Hs Hc Hin. rewrite plain_spec in Hs.
  specialize (Hs c Hin). congruence.
Qed.

(** X10: on a condition [lhs op v] with a one-character operator, where
    [lhs] stripped is an attribute of the schema and neither [lhs] nor
    [v] holds an operator character, the evaluator compares the value of
    that attribute with the coerced literal by greater-than for [>],
    less-than for [<] and equality for [=]; the index error of a short
    tuple comes before the comparison. *)
Theorem evaluate_condition_one_char (schema : list str)
    (tuple_data : list value) (lhs v : str) :
  plain lhs = true →
  strip lhs ∈ schema →
  plain v = true →
  evaluate_condition (lhs ++ lit ">" ++ v) schema tuple_data
  = (do x <- getitem tuple_data (index (strip lhs) schema);
     py_gt x (coerce_literal (strip v)))
  ∧ evaluate_condition (lhs ++ lit "<" ++ v) schema tuple_data
    = (do x <- getitem tuple_data (index (strip lhs) schema);
       py_lt x (coerce_literal (strip v)))
  ∧ evaluate_condition (lhs ++ lit "=" ++ v) schema tuple_data
    = (do x <- getitem tuple_data (index (strip lhs) schema);
       Ret (py_eq x (coerce_literal (strip v)))).
Proof.
  intros Hl Ha Hv.
  assert (∀ c, op_char c = true → c ∉ lhs) as Hlhs
    by (intros c; by apply plain_absent).
  assert (∀ c, op_char c = true → c ∉ v) as Hlit
    by (intros c; by apply plain_absent).
  assert (starts_ok (is_char "=") v = true) as Hstart
    by (by apply starts_ok_absent, Hlit).
  split_and!.
  - apply condition_gt; auto.
  - apply condition_lt; auto.
  - apply condition_eq; auto.
Qed.

(** ** The value of a field, whatever the field *)

Lemma rev_replicate (n : nat) (c : ascii) :
  rev (replicate n c) = replicate n c.
Proof.
  induction n as [|n IH]; [done|]. simpl. rewrite IH.
  clear IH. induction n as [|n IH]; [done|]. simpl. by rewrite IH.
Qed.

Lemma starts_ok_layers (p : ascii -> bool) (n : nat) (c : ascii)
    (core rest : str) :
  p c = false →
  (n = 0 → starts_ok p core = true) →
  starts_ok p rest = true →
  starts_ok p (replicate n c ++ core ++ rest) = true.
Proof.
  intros Hc Hcore Hrest. destruct n as [|n]; simpl; [|by rewrite Hc].
  apply starts_ok_app; [by apply Hcore|done].
Qed.

Lemma ends_ok_layers (p : ascii -> bool) (n m : nat) (c : ascii)
    (core : str) :
  p c = false →
  (m = 0 → ends_ok p core = true) →
  ends_ok p (replicate n c ++ core ++ replicate m c) = true.
Proof.
  intros Hc Hcore. unfold ends_ok.
  rewrite !rev_app_distr, !rev_replicate, <- app_assoc.
  apply starts_ok_layers; [done|done|by apply starts_ok_replicate].
Qed.

Lemma all_quotes (q : str) :
  forallb (in_chars [dquote]) q = true → q = replicate (length q) dquote.
Proof.
  induction q as [|c q IH]; [done|]. simpl.
  intros [Hc Hq]%andb_true_iff. rewrite <- IH by done. f_equal.
  unfold in_chars in Hc. simpl in Hc. rewrite orb_false_r in Hc.
  by apply ascii_eqb_eq in Hc.
Qed.

Lemma starts_ok_prefix (p : ascii -> bool) (s1 s2 : str) :
  starts_ok p (s1 ++ s2) = true → s1 ≠ [] → starts_ok p s1 = true.
Proof. by destruct s1. Qed.

(** C9, amended: the value of a field is read in three steps.  The
    whitespace around the field is trimmed; then all the double quotes at
    the two ends of what is left are removed, however many layers there
    are, and whitespace within the quotes stays; then what remains, the
    core, is stored as an Integer when [int] accepts it and as Text
    otherwise.  The first part states this for a field given by its
    parts; the second part says that every field has such parts. *)
Theorem convert_value_spec :
  (∀ (ws1 ws2 core : str) (n m : nat),
     forallb is_space ws1 = true →
     forallb is_space ws2 = true →
     starts_ok (in_chars [dquote]) core = true →
     ends_ok (in_chars [dquote]) core = true →
     (n = 0 → starts_ok is_space core = true) →
     (m = 0 → ends_ok is_space core = true) →
     convert_value
       (ws1 ++ replicate n dquote ++ core ++ replicate m dquote ++ ws2)
     = match py_int core with
       | Some z => Integer z
       | None => Text core
       end)
  ∧ (∀ val : str,
       ∃ (ws1 ws2 core : str) (n m : nat),
         val = ws1 ++ replicate n dquote ++ core ++ replicate m dquote
               ++ ws2
         ∧ forallb is_space ws1 = true
         ∧ forallb is_space ws2 = true
         ∧ starts_ok (in_chars [dquote]) core = true
         ∧ ends_ok (in_chars [dquote]) core = true
         ∧ (n = 0 → starts_ok is_space core = true)
         ∧ (m = 0 → ends_ok is_space core = true)).
Proof.
  split.
  - intros ws1 ws2 core n m H1 H2 Hs He Hn Hm. unfold convert_value.
    assert (strip (ws1 ++ replicate n dquote ++ core
                   ++ replicate m dquote ++ ws2)
            = replicate n dquote ++ core ++ replicate m dquote) as ->.
    { unfold strip.
      replace (ws1 ++ replicate n dquote ++ core ++ replicate m dquote
               ++ ws2)
        with (ws1 ++ (replicate n dquote ++ core ++ replicate m dquote)
              ++ ws2)
        by (by rewrite <- !app_assoc).
      apply strip_by_pad; [done|done| |].
      - apply starts_ok_layers; [done|done|by apply starts_ok_replicate].
      - by apply ends_ok_layers. }
    unfold strip_chars.
    rewrite strip_by_pad; try done; by apply forallb_replicate.
  - intros val.
    destruct (lstrip_decomp is_space val) as (ws1 & Hws1 & Hval).
    destruct (rstrip_decomp is_space (lstrip is_space val))
      as (ws2 & Hws2 & Hmid).
    fold (strip_by is_space val) in Hmid. fold (strip val) in Hmid.
    assert (starts_ok is_space (strip val) = true) as Hts
      by apply starts_ok_rstrip, starts_ok_lstrip.
    assert (ends_ok is_space (strip val) = true) as Hte
      by apply ends_ok_rstrip.
    destruct (lstrip_decomp (in_chars [dquote]) (strip val))
      as (q1 & Hq1 & Ht).
    destruct (rstrip_decomp (in_chars [dquote])
                (lstrip (in_chars [dquote]) (strip val)))
      as (q2 & Hq2 & Hcore).
    fold (strip_by (in_chars [dquote]) (strip val)) in Hcore.
    set (core := strip_by (in_chars [dquote]) (strip val)) in *.
    exists ws1, ws2, core, (length q1), (length q2).
    rewrite <- (all_quotes q1), <- (all_quotes q2) by done.
    split_and!; try done.
    + rewrite Hval at 1. rewrite Hmid at 1. rewrite Ht at 1.
      rewrite Hcore at 1. by rewrite <- !app_assoc.
    + apply starts_ok_rstrip, starts_ok_lstrip.
    + apply ends_ok_rstrip.
    + intros Hn. apply nil_length_inv in Hn. subst q1.
      destruct core as [|c core'] eqn:Hc; [done|].
      rewrite Ht, Hcore in Hts. simpl in Hts. done.
    + intros Hm. apply nil_length_inv in Hm. subst q2.
      rewrite app_nil_r in Hcore.
      destruct core as [|c core'] eqn:Hc; [done|].
      rewrite Ht, Hcore in Hte. by apply ends_ok_suffix in Hte.
Qed.

(** ** The theorems on conditions and fields at concrete inputs *)

(** The conditions [a>=2], [a<=2] and [a!=2] on a tuple of schema
    [a, b<], one of whose names holds an operator character. *)
Lemma evaluate_condition_two_char_witness :
  lit "a" ∈ [lit "a"; lit "b<"]
  ∧ strip (lit "a") = lit "a"
  ∧ ("<"%char ∉ lit "a") ∧ (">"%char ∉ lit "a")
  ∧ ("<"%char ∉ lit "2") ∧ (">"%char ∉ lit "2")
  ∧ ("!"%char ∉ lit "a") ∧ ("!"%char ∉ lit "2")
  ∧ (lit "a" ++ lit "!" ∉ [lit "a"; lit "b<"])
  ∧ two_char_comparisons [lit "a"; lit "b<"] [Integer 2; Text (lit "y")]
      (lit "a") (lit "2").
Proof.
  assert (lit "a" ∈ [lit "a"; lit "b<"]) as H1 by compute_done.
  assert (strip (lit "a") = lit "a") as H2 by reflexivity.
  assert ("<"%char ∉ lit "a") as H3 by compute_done.
  assert (">"%char ∉ lit "a") as H4 by compute_done.
  assert ("<"%char ∉ lit "2") as H5 by compute_done.
  assert (">"%char ∉ lit "2") as H6 by compute_done.
  assert ("!"%char ∉ lit "a") as H7 by compute_done.
  assert ("!"%char ∉ lit "2") as H8 by compute_done.
  assert (lit "a" ++ lit "!" ∉ [lit "a"; lit "b<"]) as H9 by compute_done.
  split; [exact H1|]. split; [exact H2|]. split; [exact H3|].
  split; [exact H4|]. split; [exact H5|]. split; [exact H6|].
  split; [exact H7|]. split; [exact H8|]. split; [exact H9|].
  destruct (evaluate_condition_two_char [lit "a"; lit "b<"]
              [Integer 2; Text (lit "y")] (lit "a") (lit "2")
              H1 H2 H3 H4 H5 H6) as (Hge & Hle & Hne).
  split; [exact Hge|]. split; [exact Hle|exact (Hne H7 H8 H9)].
Defined.

(** The Text value of [b] against the Integer literal [2], with blanks
    around the attribute and before the literal. *)
Lemma evaluate_condition_cross_type_witness :
  cross_type (Text (lit "y")) (coerce_literal (strip (lit " 2"))) = true
  ∧ strip (lit " b ") ∈ [lit "a"; lit "b"]
  ∧ [Integer 2; Text (lit "y")]
      !! index (strip (lit " b ")) [lit "a"; lit "b"]
    = Some (Text (lit "y"))
  ∧ ("<"%char ∉ lit " b ") ∧ (">"%char ∉ lit " b ")
  ∧ ("<"%char ∉ lit " 2") ∧ (">"%char ∉ lit " 2")
  ∧ starts_ok (is_char "=") (lit " 2") = true
  ∧ ("="%char ∉ lit " b ") ∧ ("="%char ∉ lit " 2")
  ∧ ("!"%char ∉ lit " b ") ∧ ("!"%char ∉ lit " 2")
  ∧ (strip (lit " b " ++ lit "!") ∉ [lit "a"; lit "b"])
  ∧ evaluate_condition (lit " b " ++ lit ">=" ++ lit " 2")
      [lit "a"; lit "b"] [Integer 2; Text (lit "y")] = Raise TypeError
  ∧ evaluate_condition (lit " b " ++ lit "<=" ++ lit " 2")
      [lit "a"; lit "b"] [Integer 2; Text (lit "y")] = Raise TypeError
  ∧ evaluate_condition (lit " b " ++ lit ">" ++ lit " 2")
      [lit "a"; lit "b"] [Integer 2; Text (lit "y")] = Raise TypeError
  ∧ evaluate_condition (lit " b " ++ lit "<" ++ lit " 2")
      [lit "a"; lit "b"] [Integer 2; Text (lit "y")] = Raise TypeError
  ∧ evaluate_condition (lit " b " ++ lit "=" ++ lit " 2")
      [lit "a"; lit "b"] [Integer 2; Text (lit "y")] = Ret false
  ∧ evaluate_condition (lit " b " ++ lit "!=" ++ lit " 2")
      [lit "a"; lit "b"] [Integer 2; Text (lit "y")] = Ret true.
Proof.
  assert (cross_type (Text (lit "y")) (coerce_literal (strip (lit " 2")))
          = true) as H0 by reflexivity.
  assert (strip (lit " b ") ∈ [lit "a"; lit "b"]) as H1 by compute_done.
  assert ([Integer 2; Text (lit "y")]
            !! index (strip (lit " b ")) [lit "a"; lit "b"]
          = Some (Text (lit "y"))) as H2 by reflexivity.
  assert ("<"%char ∉ lit " b ") as H3 by compute_done.
  assert (">"%char ∉ lit " b ") as H4 by compute_done.
  assert ("<"%char ∉ lit " 2") as H5 by compute_done.
  assert (">"%char ∉ lit " 2") as H6 by compute_done.
  assert (starts_ok (is_char "=") (lit " 2") = true) as H7 by reflexivity.
  assert ("="%char ∉ lit " b ") as H8 by compute_done.
  assert ("="%char ∉ lit " 2") as H9 by compute_done.
  assert ("!"%char ∉ lit " b ") as H10 by compute_done.
  assert ("!"%char ∉ lit " 2") as H11 by compute_done.
  assert (strip (lit " b " ++ lit "!") ∉ [lit "a"; lit "b"]) as H12
    by compute_done.
  split; [exact H0|]. split; [exact H1|]. split; [exact H2|].
  split; [exact H3|]. split; [exact H4|]. split; [exact H5|].
  split; [exact H6|]. split; [exact H7|]. split; [exact H8|].
  split; [exact H9|]. split; [exact H10|]. split; [exact H11|].
  split; [exact H12|].
  destruct (evaluate_condition_cross_type [lit "a"; lit "b"]
              [Integer 2; Text (lit "y")] (lit " b ") (lit " 2")
              (Text (lit "y")) H0 H1 H2 H3 H4 H5 H6)
    as (Hge & Hle & Hord & Heq & Hne).
  split; [exact Hge|]. split; [exact Hle|].
  split; [exact (proj1 (Hord H7))|]. split; [exact (proj2 (Hord H7))|].
  split; [exact (Heq H8 H9)|exact (Hne H10 H11 H12)].
Defined.

(** A 7 between blanks within one layer of quotes is the Integer 7;
    [x y] within two quotes before and three after is the Text [x y]. *)
Lemma convert_value_spec_witness :
  forallb is_space (lit " ") = true
  ∧ forallb is_space (lit "  ") = true
  ∧ starts_ok (in_chars [dquote]) (lit " 7 ") = true
  ∧ ends_ok (in_chars [dquote]) (lit " 7 ") = true
  ∧ starts_ok (in_chars [dquote]) (lit "x y") = true
  ∧ ends_ok (in_chars [dquote]) (lit "x y") = true
  ∧ convert_value
      (lit " " ++ replicate 1 dquote ++ lit " 7 " ++ replicate 1 dquote
       ++ lit "  ")
    = match py_int (lit " 7 ") with
      | Some z => Integer z
      | None => Text (lit " 7 ")
      end
  ∧ convert_value
      (lit " " ++ replicate 2 dquote ++ lit "x y" ++ replicate 3 dquote
       ++ lit "  ")
    = match py_int (lit "x y") with
      | Some z => Integer z
      | None => Text (lit "x y")
      end.
Proof.
  assert (forallb is_space (lit " ") = true) as H1 by reflexivity.
  assert (forallb is_space (lit "  ") = true) as H2 by reflexivity.
  assert (starts_ok (in_chars [dquote]) (lit " 7 ") = true) as H3
    by reflexivity.
  assert (ends_ok (in_chars [dquote]) (lit " 7 ") = true) as H4
    by reflexivity.
  assert (starts_ok (in_chars [dquote]) (lit "x y") = true) as H5
    by reflexivity.
  assert (ends_ok (in_chars [dquote]) (lit "x y") = true) as H6
    by reflexivity.
  split; [exact H1|]. split; [exact H2|]. split; [exact H3|].
  split; [exact H4|]. split; [exact H5|]. split; [exact H6|].
  split.
  - apply (proj1 convert_value_spec (lit " ") (lit "  ") (lit " 7 ") 1 1
             H1 H2 H3 H4); intros Hn; discriminate Hn.
  - apply (proj1 convert_value_spec (lit " ") (lit "  ") (lit "x y") 2 3
             H1 H2 H5 H6); intros Hn; discriminate Hn.
Defined.

(** The conditions [ a > 1], [ a < 1] and [ a = 1] on a tuple of schema
    [a, b>], one of whose names holds an operator character. *)
Lemma evaluate_condition_one_char_witness :
  plain (lit " a ") = true
  ∧ strip (lit " a ") ∈ [lit "a"; lit "b>"]
  ∧ plain (lit " 1") = true
  ∧ evaluate_condition (lit " a " ++ lit ">" ++ lit " 1")
      [lit "a"; lit "b>"] [Integer 2; Text (lit "y")]
    = (do x <- getitem [Integer 2; Text (lit "y")]
                 (index (strip (lit " a ")) [lit "a"; lit "b>"]);
       py_gt x (coerce_literal (strip (lit " 1")))).
Proof.
  assert (plain (lit " a ") = true) as H1 by reflexivity.
  assert (strip (lit " a ") ∈ [lit "a"; lit "b>"]) as H2 by compute_done.
  assert (plain (lit " 1") = true) as H3 by reflexivity.
  split; [exact H1|]. split; [exact H2|]. split; [exact H3|].
  exact (proj1 (evaluate_condition_one_char [lit "a"; lit "b>"]
                  [Integer 2; Text (lit "y")] (lit " a ") (lit " 1")
                  H1 H2 H3)).
Defined.

(** A selection on a relation that the empty store does not have. *)
Lemma parse_query_empty_store_witness :
  ∃ relations' outcome,
    parse_query elements ∅ (lit "select a=1 (R)")
    = Some (relations', outcome)
    ∧ ∀ result, outcome = Ret result → result = None ∧ relations' = ∅.
Proof.
  exact (parse_query_empty_store elements (lit "select a=1 (R)")).
Defined.
